(** * sqsgenerator: the Python layer around the SQS core

    A shallow embedding of the Python sources of sqsgenerator
    ([core/structure.py], [settings/functional.py], [settings/__init__.py],
    [commands/run.py]) and of the setting readers exercised by
    [test/cli/bindings/test_readers.py], with the properties the
    specification states about them.

    Python exceptions are values of [exn]; a call that may raise returns a
    [result].  numpy arrays of strings carry their item size, because numpy
    stores strings in fixed-width cells.  Objects that the code mutates in
    place (the symbol array of a structure, a settings dictionary) are
    threaded through the functions that touch them. *)

From Stdlib Require Import ZArith String List QArith Lia Sorted Permutation.
From stdpp Require Import gmap strings list fin_maps sorting pretty.

Open Scope string_scope.
Open Scope Z_scope.

(** ** Python exceptions and results *)

Module Py.

Inductive exn :=
  | ValueError (msg : string)
  | IndexError (msg : string)
  | TypeError (msg : string)
  | KeyError (key : string)
  | AttributeError (name : string)
  | OverflowError (msg : string)
  | BadSettings (msg : string) (parameter : option string).

Inductive result (A : Type) :=
  | Ok (a : A)
  | Raise (e : exn).
Arguments Ok {A} a.
Arguments Raise {A} e.

Definition bind {A B} (r : result A) (k : A -> result B) : result B :=
  match r with
  | Ok a => k a
  | Raise e => Raise e
  end.

Definition raises {A} (r : result A) : Prop := exists e, r = Raise e.

Definition is_raise {A} (r : result A) : bool :=
  match r with Ok _ => false | Raise _ => true end.

(** [len(l)] as a Python integer. *)
Definition len {A} (l : list A) : Z := Z.of_nat (length l).

(** Resolution of a Python index against a sequence of length [n]:
    [-n <= i < n] is accepted and negative values count from the end. *)
Definition in_range (n : nat) (i : Z) : bool :=
  (- Z.of_nat n <=? i) && (i <? Z.of_nat n).

Definition wrap (n : nat) (i : Z) : nat :=
  Z.to_nat (if i <? 0 then i + Z.of_nat n else i).

(** [l[i]] on a Python list. *)
Definition list_getitem {A} (l : list A) (i : Z) : result A :=
  if in_range (length l) i then
    match l !! wrap (length l) i with
    | Some a => Ok a
    | None => Raise (IndexError "list index out of range")
    end
  else Raise (IndexError "list index out of range").

End Py.
Export Py.

Notation "'let!' x ':=' r 'in' k" := (Py.bind r (fun x => k))
  (at level 10, x name, r at level 100, k at level 200, only parsing).

(** ** The part of numpy the sources use *)

Module Np.

(** A one-dimensional array of dtype [<Uk]: [itemsize] is [k], the number of
    characters a cell holds. *)
Record str_array := { itemsize : nat; items : list string }.

(** [np.array(l)] on a list of strings: the cells are as wide as the longest
    string, and at least one character wide. *)
Definition array (l : list string) : str_array :=
  {| itemsize := Nat.max 1 (max_list (String.length <$> l)); items := l |}.

Definition tolist (a : str_array) : list string := items a.

(** A string written into a cell is cut to the cell's width. *)
Definition fit (k : nat) (s : string) : string := String.substring 0 k s.

(** The dtype [np.array] gives a non-empty list of Python integers: int64
    when every entry fits 64 bits, and uint64, float64 or object otherwise.
    [int_dtype n l] is the test [np.array(l).dtype == int] where the array
    indexes an axis of [n] entries: an entry that addresses one of them
    fits, since an array has fewer than 2^63 entries. *)
Definition int64 (i : Z) : bool := (- 2 ^ 63 <=? i) && (i <? 2 ^ 63).

Definition int_dtype (n : nat) (l : list Z) : bool :=
  forallb (fun i => int64 i || in_range n i) l.

(** Index arrays: every entry must resolve against the axis length. *)
Fixpoint check_indices (n : nat) (idx : list Z) : result (list nat) :=
  match idx with
  | [] => Ok []
  | i :: rest =>
      if in_range n i then
        let! js := check_indices n rest in Ok (wrap n i :: js)
      else Raise (IndexError "index is out of bounds for axis 0")
  end.

(** Values assigned through an index array are broadcast against it: equal
    lengths pair up, a single value is repeated. *)
Definition broadcast {A} (vals : list A) (n : nat) : result (list A) :=
  if decide (length vals = n) then Ok vals
  else match vals with
       | [v] => Ok (replicate n v)
       | _ => Raise (ValueError "shape mismatch: value array could not be broadcast to indexing result")
       end.

(** The writes happen in index order, so a repeated index keeps the value
    written last. *)
Fixpoint scatter {A} (l : list A) (js : list nat) (vals : list A) : list A :=
  match js, vals with
  | j :: js', v :: vals' => scatter (<[j := v]> l) js' vals'
  | _, _ => l
  end.

(** [a[idx] = vals] for an integer index array [idx]. *)
Definition setitem (a : str_array) (idx : list Z) (vals : list string)
  : result str_array :=
  let! js := check_indices (length (items a)) idx in
  let! vs := broadcast vals (length js) in
  Ok {| itemsize := itemsize a;
        items := scatter (items a) js (fit (itemsize a) <$> vs) |}.

(** [a[idx]] for an integer index array [idx], on the rows of any array. *)
Definition take {A} (l : list A) (idx : list Z) : result (list A) :=
  let! js := check_indices (length l) idx in
  match mapM (fun j => l !! j) js with
  | Some r => Ok r
  | None => Raise (IndexError "index is out of bounds for axis 0")
  end.

(** [np.argwhere(mask).flatten()]: the positions of the true entries. *)
Fixpoint argwhere_from (k : Z) (mask : list bool) : list Z :=
  match mask with
  | [] => []
  | b :: rest => (if b then [k] else []) ++ argwhere_from (k + 1) rest
  end.
Definition argwhere (mask : list bool) : list Z := argwhere_from 0 mask.

(** [np.argsort(keys)] with the default [kind]: numpy promises an index
    array that sorts [keys]; which of several equal keys comes first is
    left to the sorting kind, and the default one is not a stable sort.
    [argsort_of keys idx] holds for every index array the call may return. *)
Definition keys_at (keys : list Z) (idx : list Z) : list Z :=
  omap (fun i => keys !! Z.to_nat i) idx.

Definition argsort_of (keys : list Z) (idx : list Z) : Prop :=
  idx ≡ₚ (Z.of_nat <$> seq 0 (length keys)) /\
  Sorted Z.le (keys_at keys idx).

(** [a[mask]] for a boolean mask: the entries at which the mask is true. *)
Definition compress {A} (mask : list bool) (l : list A) : list A :=
  (filter (fun p => p.1 = true) (zip mask l)).*2.

(** One index array with the promised properties: the positions sorted by
    key with a merge sort. *)
Definition key_le (p q : Z * Z) : Prop := p.1 <= q.1.

#[export] Instance key_le_dec (p q : Z * Z) : Decision (key_le p q) :=
  Z_le_dec p.1 q.1.

Definition reference_argsort (keys : list Z) : list Z :=
  (merge_sort key_le (zip keys (Z.of_nat <$> seq 0 (length keys)))).*2.

(** The two sorting codes behind [np.argsort] of 64-bit integers with the
    default kind, as numpy has them; which of them a call runs depends on
    the build and on the processor.

    Where numpy sorts with x86-simd-sort on an AVX-512 processor, an array
    of at most eight keys is loaded into eight lanes, padded with the
    largest value, and sorted
    together with its indices by the bitonic network of [sort_zmm_64bit]:
    six rounds of four comparators, each of which exchanges two lanes only
    when the key of the first is the larger one. *)
Definition comparators8 : list (nat * nat) :=
  [(0, 1); (2, 3); (4, 5); (6, 7);
   (0, 3); (1, 2); (4, 7); (5, 6);
   (0, 1); (2, 3); (4, 5); (6, 7);
   (0, 7); (1, 6); (2, 5); (3, 4);
   (0, 2); (1, 3); (4, 6); (5, 7);
   (0, 1); (2, 3); (4, 5); (6, 7)]%nat.

Definition coex (lanes : list (Z * Z)) (c : nat * nat) : list (Z * Z) :=
  match lanes !! c.1, lanes !! c.2 with
  | Some p, Some q =>
      if q.1 <? p.1 then <[c.1 := q]> (<[c.2 := p]> lanes) else lanes
  | _, _ => lanes
  end.

Definition simd_argsort8 (keys : list Z) : option (list Z) :=
  let n := length keys in
  if decide (n <= 8)%nat then
    let lanes := (zip keys (Z.of_nat <$> seq 0 n)
                  ++ replicate (8 - n) (2 ^ 63 - 1, 0))%list in
    Some (firstn n (foldl coex lanes comparators8).*2)
  else None.

(** Elsewhere numpy runs [aquicksort_] of [npysort/quicksort.cpp] on the
    index array [tosort]: ranges of more than 17 entries are partitioned
    around the median of their first, middle and last key, the larger part
    is pushed on a stack, and shorter ranges are sorted by insertion.  A
    range whose depth budget is used up goes to heap sort, which is not
    modelled: the outcome is [None] then. *)
Definition key_at (v tosort : list Z) (p : Z) : Z :=
  default 0 (i ← tosort !! Z.to_nat p; v !! Z.to_nat i).

Definition swap (tosort : list Z) (a b : Z) : list Z :=
  match tosort !! Z.to_nat a, tosort !! Z.to_nat b with
  | Some x, Some y => <[Z.to_nat a := y]> (<[Z.to_nat b := x]> tosort)
  | _, _ => tosort
  end.

(** [do ++pi; while (v[*pi] < vp)] and [do --pj; while (vp < v[*pj])],
    started at the position after the increment or decrement. *)
Fixpoint scan_up (fuel : nat) (v tosort : list Z) (vp pi : Z) : Z :=
  match fuel with
  | O => pi
  | S f => if key_at v tosort pi <? vp then scan_up f v tosort vp (pi + 1) else pi
  end.

Fixpoint scan_down (fuel : nat) (v tosort : list Z) (vp pj : Z) : Z :=
  match fuel with
  | O => pj
  | S f => if vp <? key_at v tosort pj then scan_down f v tosort vp (pj - 1) else pj
  end.

Fixpoint exchange (fuel : nat) (v tosort : list Z) (vp pi pj : Z) : list Z * Z :=
  match fuel with
  | O => (tosort, pi)
  | S f =>
      let pi' := scan_up (length tosort) v tosort vp (pi + 1) in
      let pj' := scan_down (length tosort) v tosort vp (pj - 1) in
      if pj' <=? pi' then (tosort, pi')
      else exchange f v (swap tosort pi' pj') vp pi' pj'
  end.

Definition partition (v tosort : list Z) (pl pr : Z) : list Z * Z :=
  let pm := pl + (pr - pl) / 2 in
  let t1 := if key_at v tosort pm <? key_at v tosort pl then swap tosort pm pl
            else tosort in
  let t2 := if key_at v t1 pr <? key_at v t1 pm then swap t1 pr pm else t1 in
  let t3 := if key_at v t2 pm <? key_at v t2 pl then swap t2 pm pl else t2 in
  let vp := key_at v t3 pm in
  let t4 := swap t3 pm (pr - 1) in
  let '(t5, pi) := exchange (length tosort) v t4 vp pl (pr - 1) in
  (swap t5 pi (pr - 1), pi).

(** The inner loop of the insertion sort: the entries before [pj] whose key
    is larger than [vp] move up by one, and [vi] goes into the gap. *)
Fixpoint sift (fuel : nat) (v tosort : list Z) (vp vi pl pj : Z) : list Z :=
  match fuel with
  | O => <[Z.to_nat pj := vi]> tosort
  | S f =>
      if (pl <? pj) && (vp <? key_at v tosort (pj - 1)) then
        match tosort !! Z.to_nat (pj - 1) with
        | Some prev => sift f v (<[Z.to_nat pj := prev]> tosort) vp vi pl (pj - 1)
        | None => tosort
        end
      else <[Z.to_nat pj := vi]> tosort
  end.

Definition insertion_sort (v tosort : list Z) (pl pr : Z) : list Z :=
  foldl (fun t k =>
           let pi := pl + 1 + Z.of_nat k in
           match t !! Z.to_nat pi with
           | Some vi => sift (length t) v t (default 0 (v !! Z.to_nat vi)) vi pl pi
           | None => t
           end)
        tosort (seq 0 (Z.to_nat (pr - pl))).

(** The outer loop; [top] says that the loop is at its head, where the
    depth budget is tested. *)
Fixpoint aquicksort_loop (fuel : nat) (v tosort : list Z) (pl pr : Z)
    (stack : list (Z * Z)) (cdepth : Z) (depths : list Z) (top : bool)
    : option (list Z) :=
  match fuel with
  | O => None
  | S f =>
      if top && (cdepth <? 0) then None
      else if 16 <? pr - pl then
        let '(t1, pi) := partition v tosort pl pr in
        if pi - pl <? pr - pi then
          aquicksort_loop f v t1 pl (pi - 1) ((pi + 1, pr) :: stack)
                          (cdepth - 1) (cdepth - 1 :: depths) false
        else
          aquicksort_loop f v t1 (pi + 1) pr ((pl, pi - 1) :: stack)
                          (cdepth - 1) (cdepth - 1 :: depths) false
      else
        let t1 := insertion_sort v tosort pl pr in
        match stack, depths with
        | (l, r) :: stack', d :: depths' =>
            aquicksort_loop f v t1 l r stack' d depths' true
        | _, _ => Some t1
        end
  end.

Definition aquicksort (keys : list Z) : option (list Z) :=
  let n := length keys in
  aquicksort_loop (2 * n + 2) keys (Z.of_nat <$> seq 0 n) 0 (Z.of_nat n - 1) []
                  (2 * Z.log2 (Z.of_nat n)) [] true.

End Np.

(** ** The compiled extension, as far as the Python layer relies on it *)

Definition PBC : Type := bool * bool * bool.
Definition pbc_default : PBC := (true, true, true).

(** [Atom] objects of the extension: [Atom.Z] and [Atom.symbol]. *)
Record Atom := { atom_Z : Z; symbol : string }.

(** Modelled from the spec: the extension module [sqsgenerator.core.core] is
    not among the sources.  The spec's data model gives what the Python layer
    needs from it: a lattice and rows of fractional coordinates (reals, kept
    abstract here), the reduction of a row modulo 1 on the periodic axes
    ([canonical]), and the table of species, where each symbol has an ordinal
    number ([ordinal], [None] for a symbol the table lacks). *)
Class Extension := {
  Lattice : Type;
  Row : Type;
  canonical : PBC -> Row -> Row;
  ordinal : string -> option Z
}.

Module Structure.
Section Defs.
Context {X : Extension}.

Definition find_atom (sym : string) : option Atom :=
  match ordinal sym with
  | Some z => Some {| atom_Z := z; symbol := sym |}
  | None => None
  end.

(** The state of a [Structure] object: the four fields held by the extension
    base class and the three attributes [__init__] adds.  [_symbols] is a
    numpy array that [symbols] hands out without copying.  The set
    [_unique_species] is kept as the list of its members, each once. *)
Record Structure := {
  lattice : Lattice;
  frac_coords : list Row;
  species : list Atom;
  pbc : PBC;
  _symbols : Np.str_array;
  _numbers : list Z;
  _unique_species : list string
}.

(** [Structure.__init__].  Modelled from the spec: the base-class constructor
    keeps the lattice and the flags, stores the coordinates reduced on the
    periodic axes, resolves every symbol in the species table and requires
    one symbol per coordinate row.  The three assignments that follow are
    the Python source. *)
Definition init (lat : Lattice) (coords : list Row) (symbols : list string)
    (flags : PBC) : result Structure :=
  if decide (length coords = length symbols) then
    match mapM find_atom symbols with
    | Some atoms =>
        Ok {| lattice := lat;
              frac_coords := canonical flags <$> coords;
              species := atoms;
              pbc := flags;
              _symbols := Np.array (symbol <$> atoms);
              _numbers := atom_Z <$> atoms;
              _unique_species := remove_dups (symbol <$> atoms) |}
    | None => Raise (ValueError "unknown species")
    end
  else Raise (ValueError "number of species and of coordinates differ").

Definition symbols (s : Structure) : Np.str_array := _symbols s.
Definition numbers (s : Structure) : list Z := _numbers s.
Definition unique_species (s : Structure) : list string := _unique_species s.
Definition num_unique_species (s : Structure) : nat := length (_unique_species s).
Definition num_atoms (s : Structure) : nat := length (species s).

(** What [__getitem__] is indexed with. *)
Inductive Item :=
  | ItemInt (i : Z)                     (* a [numbers.Integral] *)
  | ItemList (l : list Z)               (* a list or tuple of integers *)
  | ItemMask (m : list bool)            (* a list or tuple of booleans *)
  | ItemIntArray (a : list Z)           (* an integer [ndarray] *)
  | ItemOtherArray                      (* a sequence of any other dtype *)
  | ItemSlice (start stop step : option Z)
  | ItemOther.

Inductive Got :=
  | GotAtom (a : Atom)
  | GotStructure (s : Structure).

(** [np.arange(n)[slice(start, stop, step)]], with the index arithmetic of
    Python's [slice.indices]. *)
Definition slice_bounds (n : Z) (start stop step : option Z) : result (Z * Z * Z) :=
  let st := default 1 step in
  if st =? 0 then Raise (ValueError "slice step cannot be zero")
  else
    let lower := if st <? 0 then -1 else 0 in
    let upper := if st <? 0 then n - 1 else n in
    let clip (v : Z) := if v <? 0 then Z.max (v + n) lower else Z.min v upper in
    let a := match start with
             | None => if st <? 0 then upper else lower
             | Some v => clip v
             end in
    let b := match stop with
             | None => if st <? 0 then lower else upper
             | Some v => clip v
             end in
    Ok (a, b, st).

Fixpoint range_from (fuel : nat) (a st : Z) : list Z :=
  match fuel with
  | O => []
  | S k => a :: range_from k (a + st) st
  end.

Definition range_len (a b st : Z) : nat :=
  if 0 <? st then Z.to_nat ((b - a + st - 1) / st)
  else Z.to_nat ((a - b - st - 1) / (- st)).

Definition slice_indices (n : nat) (start stop step : option Z) : result (list Z) :=
  let! abs := slice_bounds (Z.of_nat n) start stop step in
  let '(a, b, st) := abs in
  Ok (range_from (range_len a b st) a st).

(** [Structure.__getitem__].  An integer is bounds-checked and looked up in
    [species]; every other accepted item becomes an index array, and the
    rows and symbols it selects go to the constructor, which is called
    without periodicity flags and so with their default.  A list is accepted
    when [np.array] gives it an integer dtype: not when it is empty, and not
    when one of its entries does not fit 64 bits. *)
Definition getitem (s : Structure) (item : Item) : result Got :=
  match item with
  | ItemInt i =>
      if (i <? - Z.of_nat (num_atoms s)) || (Z.of_nat (num_atoms s) <=? i)
      then Raise (IndexError "Index out of range.")
      else let! a := list_getitem (species s) i in Ok (GotAtom a)
  | _ =>
      let! indices :=
        match item with
        | ItemList [] => Raise (TypeError "Only integer numbers cann be used for slicing")
        | ItemMask [] => Raise (TypeError "Only integer numbers cann be used for slicing")
        | ItemList l =>
            if Np.int_dtype (num_atoms s) l then Ok l
            else Raise (TypeError "Only integer numbers cann be used for slicing")
        | ItemIntArray a => Ok a
        | ItemMask m => Ok (Np.argwhere m)
        | ItemOtherArray => Raise (TypeError "Only integer numbers cann be used for slicing")
        | ItemSlice start stop step => slice_indices (num_atoms s) start stop step
        | _ => Raise (TypeError "Structure indices must not be of this type")
        end in
      let! rows := Np.take (frac_coords s) indices in
      let! syms := Np.take (Np.items (symbols s)) indices in
      let! r := init (lattice s) rows syms pbc_default in
      Ok (GotStructure r)
  end.

(** [Structure.sorted]: [self[np.argsort(self._numbers)]], for the index
    array [idx] that [np.argsort] returned. *)
Definition sorted_by (s : Structure) (idx : list Z) : result Got :=
  getitem s (ItemIntArray idx).

Definition sorted (s : Structure) (r : result Got) : Prop :=
  exists idx, Np.argsort_of (_numbers s) idx /\ r = sorted_by s idx.

(** The [which] argument of [with_species]: [None] or a list of integers. *)
Inductive Which :=
  | WhichNone
  | WhichList (l : list Z).

(** [which = which or tuple(range)]: a missing or empty [which] evaluates
    [tuple(range)], a call of [tuple] on the type [range], which raises. *)
Definition which_or_range (which : Which) : result (list Z) :=
  match which with
  | WhichNone | WhichList [] => Raise (TypeError "'type' object is not iterable")
  | WhichList l => Ok l
  end.

(** [Structure.with_species]. *)
Definition with_species (s : Structure) (new_species : list string)
    (which : Which) : result Structure :=
  let! which := which_or_range which in
  if (len new_species <? 1) then
    Raise (ValueError "Cannot create an empty structure")
  else if negb (len which =? len new_species) then
    Raise (ValueError "Number of species does not match the number of specified atoms")
  else
    let! new_symbols := Np.setitem (symbols s) which new_species in
    init (lattice s) (frac_coords s) (Np.tolist new_symbols) pbc_default.

(** [Structure.slice_with_species]. *)
Definition slice_with_species (s : Structure) (new_species : list string)
    (which : Which) : result Got :=
  let! w := which_or_range which in
  let! r := with_species s new_species (WhichList w) in
  getitem r (ItemList w).

(** [structure_to_dict]: the three entries of the exchange record. *)
Record StructureDict := {
  dict_lattice : Lattice;
  dict_coords : list Row;
  dict_species : list string
}.

Definition to_dict (s : Structure) : StructureDict :=
  {| dict_lattice := lattice s;
     dict_coords := frac_coords s;
     dict_species := Np.tolist (symbols s) |}.

(** A structure is well formed when the constructor built it. *)
Definition wf (s : Structure) : Prop :=
  exists lat coords syms flags, init lat coords syms flags = Ok s.

(** The site an entry of [which] addresses, for [n] sites. *)
Definition addressed (n : nat) (which : list Z) (i : nat) : Prop :=
  exists k, k ∈ which /\ wrap n k = i.

(** The sites of a structure: each row of coordinates with its atom. *)
Definition sites (s : Structure) : list (Row * Atom) :=
  zip (frac_coords s) (species s).

(** A site as the constructor stores it when it is called without flags. *)
Definition stored (site : Row * Atom) : Row * Atom :=
  (canonical pbc_default site.1, site.2).

(** Two lists of sites hold the sites of every ordinal number in the same
    order. *)
Definition same_order_within_Z (l1 l2 : list (Row * Atom)) : Prop :=
  forall z, filter (fun site => atom_Z site.2 = z) l1
            = filter (fun site => atom_Z site.2 = z) l2.


(** [itertools.groupby] on a list of symbols: the maximal runs of equal
    symbols, each with its length. *)
Fixpoint groupby (l : list string) : list (string * nat) :=
  match l with
  | [] => []
  | x :: rest =>
      match groupby rest with
      | (y, n) :: gs => if String.eqb x y then (y, S n) :: gs
                        else (x, 1%nat) :: (y, n) :: gs
      | [] => [(x, 1%nat)]
      end
  end.

(** [group_symbols] of [__repr__]: a run of one symbol is written as the
    symbol, a longer run as the symbol followed by its length. *)
Definition group_symbols (syms : list string) : list string :=
  (fun g : string * nat =>
     if (g.2 =? 1)%nat then g.1 else (g.1 ++ pretty g.2)%string) <$> groupby syms.

(** [Structure.__repr__]. *)
Definition repr (s : Structure) : string :=
  ("Structure(" ++ foldr String.append EmptyString (group_symbols (Np.items (_symbols s)))
   ++ ", len=" ++ pretty (num_atoms s) ++ ")")%string.

(** An assertion either holds, and the computation goes on to its result,
    or fails with [AssertionError]. *)
Inductive Checked (A : Type) :=
  | Passed (r : result A)
  | AssertionError.
Arguments Passed {A} r.
Arguments AssertionError {A}.

(** The arithmetic on reals that [make_supercell] does with numpy, kept
    abstract: [scale @ lattice] for the sizes, a row of [frac_coords @
    iscale.T], and a row plus the translation vector of a shift. *)
Class Tiling := {
  scale_lattice : Z * Z * Z -> Lattice -> Lattice;
  shrink : Z * Z * Z -> Row -> Row;
  translate : Z * Z * Z -> Z * Z * Z -> Row -> Row
}.

(** [range(n)] *)
Definition range (n : Z) : list Z := Z.of_nat <$> seq 0 (Z.to_nat n).

(** [itertools.product] of the three ranges: the last index runs fastest. *)
Definition product3 (sa sb sc : Z) : list (Z * Z * Z) :=
  a ← range sa; b ← range sb; c ← range sc; [(a, b, c)].

(** [make_supercell(structure, sa, sb, sc)].  [np.linalg.inv] refuses the
    singular scale matrix of a size 0 with [LinAlgError], a [ValueError];
    [np.vstack] refuses an empty list of blocks with [ValueError]. *)
Definition make_supercell `{Tiling} (s : Structure) (sa sb sc : Z)
    : Checked Structure :=
  let sizes := (sa, sb, sc) in
  let num_cells := sa * sb * sc in
  let num_atoms_supercell := Z.of_nat (num_atoms s) * num_cells in
  if (sa =? 0) || (sb =? 0) || (sc =? 0) then
    Passed (Raise (ValueError "Singular matrix"))
  else
    let supercell_lattice := scale_lattice sizes (lattice s) in
    let scaled_fc := shrink sizes <$> frac_coords s in
    match (fun shift => translate sizes shift <$> scaled_fc) <$> product3 sa sb sc with
    | [] => Passed (Raise (ValueError "need at least one array to concatenate"))
    | blocks =>
        let supercell_coords := concat blocks in
        let supercell_species :=
          concat (replicate (Z.to_nat num_cells) (Np.tolist (symbols s))) in
        if negb (len supercell_coords =? num_atoms_supercell) then AssertionError
        else if negb (len supercell_species =? num_atoms_supercell) then AssertionError
        else Passed (init supercell_lattice supercell_coords supercell_species
                          (true, true, true))
    end.

End Defs.

Arguments Passed {A} r.
Arguments AssertionError {A}.

End Structure.

(** ** [settings/functional.py]: the [parameter] decorator *)

Module Functional.
Section Defs.
Context {V : Type}.

(** A settings object is an [AttrDict] with string keys.  A reader receives
    it by reference and may write to it, so a reader maps the dictionary to
    the dictionary it leaves behind and its outcome. *)
Definition Reader : Type := gmap string V -> gmap string V * result V.

(** [Default.NoDefault], a plain default value, or a callable default. *)
Inductive Default :=
  | NoDefault
  | DefaultValue (v : V)
  | DefaultCall (g : Reader).

(** [required] and [key] are either of their plain type or a callable. *)
Inductive Required :=
  | RequiredBool (b : bool)
  | RequiredCall.

Inductive Key :=
  | KeyStr (k : string)
  | KeyCall.

(** [get_required] returns [required] itself in both branches of its
    conditional; the wrapper tests the truth of what it gets, and a function
    object is true. *)
Definition get_required (required : Required) (settings : gmap string V) : Required :=
  required.

Definition truth (r : Required) : bool :=
  match r with
  | RequiredBool b => b
  | RequiredCall => true
  end.

(** [get_key] likewise returns [key] itself. *)
Definition get_key (key : Key) (settings : gmap string V) : Key := key.

(** [k in settings]: the keys of a settings object are strings. *)
Definition contains (settings : gmap string V) (k : Key) : bool :=
  match k with
  | KeyStr s => bool_decide (is_Some (settings !! s))
  | KeyCall => false
  end.

(** [get_default]; the wrapper calls it only when [have_default] holds.  A
    callable default is called with the settings object itself, so like a
    reader it may write to it. *)
Definition get_default (default : Default) : Reader :=
  fun settings =>
    match default with
    | NoDefault => (settings, Raise (TypeError "no default"))
    | DefaultValue v => (settings, Ok v)
    | DefaultCall g => g settings
    end.

Definition have_default (default : Default) : bool :=
  match default with
  | NoDefault => false
  | _ => true
  end.

(** The quotation mark that the error message puts around the name. *)
Definition quote : string := String (Ascii.ascii_of_nat 34) EmptyString.

(** [if key is None: key = name] *)
Definition key_or_name (name : string) (key : option Key) : Key :=
  match key with
  | None => KeyStr name
  | Some k => k
  end.

(** [parameter(name, default, required, key)(f)]: the function [_wrapped].
    [py_None] is what a Python function returns when it falls off its end.
    The log line written when a default is used is not modelled. *)
Definition parameter (py_None : V) (name : string) (default : Default)
    (required : Required) (key : option Key) (f : Reader) : Reader :=
  let key := key_or_name name key in
  fun settings =>
    let is_required := get_required required settings in
    let k := get_key key settings in
    if negb (contains settings k) then
      if truth is_required then
        if negb (have_default default) then
          (settings,
           Raise (BadSettings ("Required parameter " ++ quote ++ name ++ quote
                               ++ " was not found")
                              (Some name)))
        else get_default default settings
      else (settings, Ok py_None)
    else
      match f settings with
      | (settings', Raise (BadSettings msg _)) =>
          (settings', Raise (BadSettings msg (Some name)))
      | (settings', Raise e) => (settings', Raise e)
      | (settings', Ok processed_value) => (settings', Ok processed_value)
      end.

(** The decorator with its [registry] argument: the wrapped reader and the
    registry after [registry[name] = _wrapped]. *)
Definition decorate (py_None : V) (name : string) (default : Default)
    (required : Required) (key : option Key)
    (registry : option (gmap string Reader)) (f : Reader)
    : Reader * option (gmap string Reader) :=
  let w := parameter py_None name default required key f in
  (w, (fun reg => <[name := w]> reg) <$> registry).

(** The small combinators of the module. *)
Definition if_ {S A} (condition : S -> bool) (th_val el_val : A) (settings : S) : A :=
  if condition settings then th_val else el_val.
Definition star {A B C} (f : A -> B -> C) (x : A * B) : C := f (fst x) (snd x).
Definition const {A B} (o : A) (_ : B) : A := o.
Definition identity {A} (x : A) : A := x.

End Defs.
Arguments Default : clear implicits.
Arguments Reader : clear implicits.
End Functional.

(** ** [settings/__init__.py]: [construct_settings] *)

Module Settings.

(** Modelled from the spec: what [construct_settings] calls but the sources
    do not contain.  [process_settings] (of [settings/readers.py]) receives
    the settings object, may write to it, and either returns the processed
    settings or fails with the validation error of spec 4.G, which carries a
    message and the offending parameter.  [as_dict] and [as_list] are the
    conversions [dict(...)] and [list(...)], [None] where they raise
    [TypeError]; [accepts] says whether the extension's [IterationSettings]
    takes the eleven arguments or rejects them with [TypeError]. *)
Class Env := {
  V : Type;
  process_settings :
    gmap string V -> gmap string V * (string * option string + gmap string V);
  as_dict : V -> option V;
  as_list : V -> option V;
  accepts : list V -> bool
}.

Section Defs.
Context {E : Env}.

(** The arguments [IterationSettings] is built from, in call order. *)
Record IterationSettings := {
  structure : V;
  target_objective : V;
  pair_weights : V;
  shell_weights : V;
  iterations : V;
  max_output_configurations : V;
  shell_distances : V;
  threads_per_rank : V;
  atol : V;
  rtol : V;
  mode : V
}.

(** Dictionaries are objects: the heap maps the address of each to its
    entries.  A function that is handed a dictionary is handed an address. *)
Definition alloc (h : gmap nat (gmap string V)) (d : gmap string V)
    : gmap nat (gmap string V) * nat :=
  let b := fresh (dom h) in (<[b := d]> h, b).

(** [settings.name] on an [AttrDict]. *)
Definition getattr (d : gmap string V) (name : string) : result V :=
  match d !! name with
  | Some v => Ok v
  | None => Raise (AttributeError name)
  end.

Definition convert (f : V -> option V) (v : V) : result V :=
  match f v with
  | Some r => Ok r
  | None => Raise (TypeError "object is not iterable")
  end.

(** The loop over [overloads.items()], on the dictionary at address [b]. *)
Fixpoint overload (h : gmap nat (gmap string V)) (b : nat)
    (overloads : list (string * V)) : gmap nat (gmap string V) * result unit :=
  match overloads with
  | [] => (h, Ok tt)
  | (key, value) :: rest =>
      let d := h !!! b in
      if bool_decide (is_Some (d !! key)) then
        overload (<[b := <[key := value]> d]> h) b rest
      else (h, Raise (KeyError key))
  end.

(** The call of [IterationSettings(...)] with its eleven argument
    expressions, evaluated left to right. *)
Definition build (d : gmap string V) : result IterationSettings :=
  let! a1 := getattr d "structure" in
  let! a2 := getattr d "target_objective" in
  let! a3 := getattr d "pair_weights" in
  let! a4 := (let! x := getattr d "shell_weights" in convert as_dict x) in
  let! a5 := getattr d "iterations" in
  let! a6 := getattr d "max_output_configurations" in
  let! a7 := (let! x := getattr d "shell_distances" in convert as_list x) in
  let! a8 := (let! x := getattr d "threads_per_rank" in convert as_list x) in
  let! a9 := getattr d "atol" in
  let! a10 := getattr d "rtol" in
  let! a11 := getattr d "mode" in
  if accepts [a1; a2; a3; a4; a5; a6; a7; a8; a9; a10; a11] then
    Ok {| structure := a1; target_objective := a2; pair_weights := a3;
          shell_weights := a4; iterations := a5;
          max_output_configurations := a6; shell_distances := a7;
          threads_per_rank := a8; atol := a9; rtol := a10; mode := a11 |}
  else Raise (TypeError "IterationSettings: incompatible constructor arguments").

(** [construct_settings(settings, process, **overloads)], where [settings]
    is the dictionary at address [a] of heap [h]. *)
Definition construct_settings (h : gmap nat (gmap string V)) (a : nat)
    (process : bool) (overloads : list (string * V))
    : gmap nat (gmap string V) * result IterationSettings :=
  let '(h1, b) := alloc h (h !!! a) in
  match overload h1 b overloads with
  | (h2, Raise e) => (h2, Raise e)
  | (h2, Ok _) =>
      if process then
        match process_settings (h2 !!! b) with
        | (d', inl (msg, p)) => (<[b := d']> h2, Raise (BadSettings msg p))
        | (d', inr processed) => (<[b := d']> h2, build processed)
        end
      else (h2, build (h2 !!! b))
  end.

End Defs.
End Settings.

(** ** The readers of [settings/readers.py] that the tests pin down *)

Module Readers.

(** An entry of a user-supplied sequence: a real number, or anything else
    (a string, a complex number). *)
Inductive Entry :=
  | Real (x : Q)
  | NotReal.

Definition real_of (e : Entry) : option Q :=
  match e with
  | Real x => Some x
  | NotReal => None
  end.

Definition bad (parameter msg : string) {A} : result A :=
  Raise (BadSettings msg (Some parameter)).

Definition Qltb (x y : Q) : bool := negb (Qle_bool y x).

Fixpoint increasing_from (x : Q) (l : list Q) : bool :=
  match l with
  | [] => true
  | y :: rest => Qltb x y && increasing_from y rest
  end.

Definition strictly_increasing (l : list Q) : bool :=
  match l with
  | [] => true
  | x :: rest => increasing_from x rest
  end.

(** "a leading 0 is inserted if absent" *)
Definition with_leading_zero (l : list Q) : list Q :=
  match l with
  | x :: _ => if Qeq_bool x 0 then l else 0%Q :: l
  | [] => 0%Q :: l
  end.

(** Modelled from the spec: [read_shell_distances] is not among the sources.
    Spec 4.G: "shell_distances: strictly increasing positive reals; a
    leading 0 is inserted if absent; length >= 2", each failure being a
    validation error tagged with the parameter.  The argument is the value
    found under the key [shell_distances]. *)
Definition read_shell_distances (distances : list Entry) : result (list Q) :=
  match mapM real_of distances with
  | None => bad "shell_distances" "all shell distances must be real numbers"
  | Some ds =>
      let ds0 := with_leading_zero ds in
      if negb (strictly_increasing ds0) then
        bad "shell_distances" "shell distances must be positive and strictly increasing"
      else if (length ds0 <? 2)%nat then
        bad "shell_distances" "at least one shell distance is needed"
      else Ok ds0
  end.


Definition full (K : nat) (x : Q) : list (list Q) := replicate K (replicate K x).







(** The real entries of a sequence. *)
Definition reals (distances : list Entry) : list Q := omap real_of distances.

Definition negative (e : Entry) : Prop := exists x, e = Real x /\ (x < 0)%Q.

(** "strictly increasing after the leading zero": the sequence, with the 0
    in front of it when it does not start with one, ascends strictly. *)
Definition increasing_after_zero (distances : list Entry) : Prop :=
  Sorted Qlt (with_leading_zero (reals distances)).

(** The three reasons for [BadSettings] that C3 names. *)
Definition rejected (distances : list Entry) : Prop :=
  distances = [] \/
  Exists (fun e => e = NotReal \/ negative e) distances \/
  ~ increasing_after_zero distances.

(** A sequence that holds a zero and nothing else. *)
Definition only_zero (distances : list Entry) : Prop :=
  exists x, distances = [Real x] /\ (x == 0)%Q.

End Readers.

(** ** [commands/run.py]: [expand_results] *)

Module Run.
Import Structure.
Section Defs.
Context {X : Extension}.

(** A value of the [configurations] map: the bare configuration, or a
    dictionary that holds it under the key [configuration]. *)
Inductive Conf :=
  | ConfList (conf : list string)
  | ConfDict (configuration : option (list string)).

(** The result document, as far as [expand_results] reads it. *)
Record Document := {
  doc_structure : option Structure;
  doc_configurations : option (list (Z * Conf));
  doc_which : option (list Z)
}.

(** [conf if not isinstance(conf, dict) else conf['configuration']] *)
Definition configuration_of (c : Conf) : result (list string) :=
  match c with
  | ConfList conf => Ok conf
  | ConfDict (Some conf) => Ok conf
  | ConfDict None => Raise (KeyError "configuration")
  end.

(** [new_species].  With a sublattice, [species = s.symbols] is the symbol
    array of the parent structure itself, not a copy: the assignment
    [species[mask] = conf] writes into the parent, and the next
    configuration starts from what the previous one left.  The function
    therefore takes the parent's array and returns it as it is afterwards.
    [np.array(dense.which, dtype=int)] refuses an integer that does not fit
    64 bits with [OverflowError]. *)
Definition new_species (which : option (list Z)) (parent : Np.str_array)
    (conf : list string) : Np.str_array * result (list string) :=
  match which with
  | Some mask =>
      if forallb Np.int64 mask then
        match Np.setitem parent mask conf with
        | Ok species => (species, Ok (Np.tolist species))
        | Raise e => (parent, Raise e)
        end
      else (parent, Raise (OverflowError "Python int too large to convert to C long"))
  | None => (parent, Ok conf)
  end.

(** The dictionary comprehension, one [(rank, conf)] item after the other;
    [new_structure] is [functools.partial(Structure, s.lattice,
    s.frac_coords)]. *)
Fixpoint expand_items (lat : Lattice) (rows : list Row) (which : option (list Z))
    (parent : Np.str_array) (items : list (Z * Conf))
    : Np.str_array * result (list (Z * Structure)) :=
  match items with
  | [] => (parent, Ok [])
  | (rank, c) :: rest =>
      match configuration_of c with
      | Raise e => (parent, Raise e)
      | Ok conf =>
          match new_species which parent conf with
          | (parent1, Raise e) => (parent1, Raise e)
          | (parent1, Ok sp) =>
              match init lat rows sp pbc_default with
              | Raise e => (parent1, Raise e)
              | Ok st =>
                  match expand_items lat rows which parent1 rest with
                  | (parent2, Ok r) => (parent2, Ok ((rank, st) :: r))
                  | (parent2, Raise e) => (parent2, Raise e)
                  end
              end
          end
      end
  end.

Definition set_symbols (s : Structure) (a : Np.str_array) : Structure :=
  {| lattice := lattice s; frac_coords := frac_coords s; species := species s;
     pbc := pbc s; _symbols := a; _numbers := _numbers s;
     _unique_species := _unique_species s |}.

(** [expand_results(dense)]: the parent structure as the call leaves it
    (absent when the document has none) and the outcome. *)
Definition expand_results (dense : Document)
    : option Structure * result (list (Z * Structure)) :=
  match doc_structure dense with
  | None => (None, Raise (AttributeError "structure"))
  | Some s =>
      match doc_configurations dense with
      | None => (Some s, Raise (AttributeError "configurations"))
      | Some items =>
          let '(a, r) := expand_items (lattice s) (frac_coords s)
                                      (doc_which dense) (symbols s) items in
          (Some (set_symbols s a), r)
      end
  end.

(** Two symbol arrays of the same length that differ at most on the sites
    [which] addresses. *)
Definition agree_outside (which : list Z) (a b : Np.str_array) : Prop :=
  length (Np.items a) = length (Np.items b) /\
  forall i : nat, ~ addressed (length (Np.items b)) which i ->
                  Np.items a !! i = Np.items b !! i.


(** The table helpers of the module.  [transpose] zips the rows of [l]: it
    gives as many rows as the shortest row of [l] is long. *)
Fixpoint transpose {A} (l : list (list A)) : list (list A) :=
  match l with
  | [] => []
  | [row] => (fun x => [x]) <$> row
  | row :: rest => zip_with cons row (transpose rest)
  end.

(** [add_col]: [cols.insert(0, col)] between two transpositions. *)
Definition add_col {A} (l : list (list A)) (col : list A) : list (list A) :=
  let cols := transpose l in
  transpose (col :: cols).

(** [add_row]: [l.insert(0, row)]; the list that is returned is [l]
    itself. *)
Definition add_row {A} (l : list (list A)) (row : list A) : list (list A) :=
  row :: l.

(** Modelled from the spec: the extension's [SQSResult] and
    [symbols_from_z] are not among the sources.  Spec 3 gives a result its
    rank, its configuration of ordinal numbers, its objective and its
    parameters; objective values, parameter arrays, shapes and timings are
    kept abstract. *)
Class Results := {
  ObjectiveValue : Type;
  ParameterArray : Type;
  Shape : Type;
  Timings : Type;
  symbols_from_z : list Z -> list string
}.

Section Documents.
Context {R : Results}.

Record SQSResult := {
  rank : Z;
  configuration : list Z;
  objective : ObjectiveValue;
  parameters : Shape -> ParameterArray
}.

(** The settings, as far as [make_result_document] reads them: [structure],
    [sublattice] with its [structure] and [which], and the shape of
    [target_objective].  An absent entry is [None]. *)
Record RunSettings := {
  settings_structure : option Structure;
  settings_sublattice : option (Structure * list Z);
  settings_shape : option Shape
}.

Inductive FieldValue :=
  | VConfiguration (symbols : list string)
  | VObjective (o : ObjectiveValue)
  | VParameters (p : ParameterArray).

(** What is stored under a rank: the value of the only field, or a
    dictionary from field names to values. *)
Inductive ResultEntry :=
  | Bare (v : FieldValue)
  | Fields (d : gmap string FieldValue).

(** [allowed_fields[f](result)] *)
Definition allowed_field (settings : RunSettings) (f : string) (r : SQSResult)
    : result FieldValue :=
  if String.eqb f "configuration" then Ok (VConfiguration (symbols_from_z (configuration r)))
  else if String.eqb f "objective" then Ok (VObjective (objective r))
  else if String.eqb f "parameters" then
    match settings_shape settings with
    | Some shape => Ok (VParameters (parameters r shape))
    | None => Raise (AttributeError "target_objective")
    end
  else Raise (KeyError f).

Fixpoint field_dict (settings : RunSettings) (fields : list string) (r : SQSResult)
    (d : gmap string FieldValue) : result (gmap string FieldValue) :=
  match fields with
  | [] => Ok d
  | f :: rest =>
      let! v := allowed_field settings f r in
      field_dict settings rest r (<[f := v]> d)
  end.

Definition make_sqs_result_document (settings : RunSettings) (fields : list string)
    (r : SQSResult) : result ResultEntry :=
  match fields with
  | [key] => let! v := allowed_field settings key r in Ok (Bare v)
  | _ => let! d := field_dict settings fields r ∅ in Ok (Fields d)
  end.

(** [d[k] = v] on a dictionary kept as the list of its items: a key that is
    there keeps its place. *)
Fixpoint dict_set {A} (d : list (Z * A)) (k : Z) (v : A) : list (Z * A) :=
  match d with
  | [] => [(k, v)]
  | (k', v') :: rest => if k' =? k then (k', v) :: rest
                        else (k', v') :: dict_set rest k v
  end.

Fixpoint configurations_dict (settings : RunSettings) (fields : list string)
    (results : list SQSResult) (d : list (Z * ResultEntry)) : result (list (Z * ResultEntry)) :=
  match results with
  | [] => Ok d
  | r :: rest =>
      let! e := make_sqs_result_document settings fields r in
      configurations_dict settings fields rest (dict_set d (rank r) e)
  end.

Record ResultDocument := {
  document_structure : Structure;
  document_configurations : list (Z * ResultEntry);
  document_which : option (list Z);
  document_timings : option Timings
}.

(** [make_result_document(sqs_results, settings, timings, fields)]. *)
Definition make_result_document (sqs_results : list SQSResult)
    (settings : RunSettings) (timings : option Timings) (fields : list string)
    : result ResultDocument :=
  let have_sublattice := settings_sublattice settings in
  let! structure :=
    match have_sublattice with
    | Some (s, _) => Ok s
    | None => match settings_structure settings with
              | Some s => Ok s
              | None => Raise (AttributeError "structure")
              end
    end in
  let! configurations := configurations_dict settings fields sqs_results [] in
  Ok {| document_structure := structure;
        document_configurations := configurations;
        document_which := snd <$> have_sublattice;
        document_timings := timings |}.

(** The fields [iteration] asks for: the [--dump-include] choices, with
    [configuration] added when it is not among them. *)
Definition dump_fields (dump_include : list string) : list string :=
  if bool_decide ("configuration" ∈ dump_include) then dump_include
  else (dump_include ++ ["configuration"])%list.

(** The document as [expand_results] reads it.  A value that is neither a
    dictionary nor a list of symbols has no reading. *)
Definition as_conf (e : ResultEntry) : option Conf :=
  match e with
  | Bare (VConfiguration l) => Some (ConfList l)
  | Bare _ => None
  | Fields d =>
      match d !! "configuration" with
      | Some (VConfiguration l) => Some (ConfDict (Some l))
      | Some _ => None
      | None => Some (ConfDict None)
      end
  end.

Definition as_dense (doc : ResultDocument) : option Document :=
  match mapM (fun re : Z * ResultEntry => c ← as_conf re.2; Some (re.1, c))
             (document_configurations doc) with
  | Some confs => Some {| doc_structure := Some (document_structure doc);
                          doc_configurations := Some confs;
                          doc_which := document_which doc |}
  | None => None
  end.

End Documents.
End Defs.
End Run.

(** ** [utils/optionparser.py]: the keys of arguments and options *)

Module Optionparser.

(** [ArgumentBase.format_key]: [--key] for an option, [<key>] for a
    positional argument. *)
Definition format_key (key : string) (option : bool) : string :=
  if option then ("--" ++ key)%string else ("<" ++ key ++ ">")%string.

(** [str.endswith] *)
Definition endswith (s suffix : string) : bool :=
  String.eqb (String.substring (String.length s - String.length suffix)
                               (String.length suffix) s) suffix
  && (String.length suffix <=? String.length s)%nat.

(** The test by which [parse_options] tells the keys it hands to a parser
    from the keys it copies. *)
Definition is_parsed_key (key : string) : bool :=
  String.prefix "--" key || (String.prefix "<" key && endswith key ">").

End Optionparser.

(** ** A concrete extension for examples *)

Module Demo.

(** Part of the periodic table, with ["0"] for a vacancy. *)
Definition table : list (string * Z) :=
  [("0", 0); ("H", 1); ("He", 2); ("Li", 3); ("Be", 4); ("B", 5); ("C", 6);
   ("N", 7); ("O", 8); ("F", 9); ("Ne", 10); ("Na", 11); ("Mg", 12);
   ("Al", 13); ("Si", 14); ("P", 15); ("S", 16); ("Cl", 17); ("Ar", 18);
   ("Cr", 24); ("Fe", 26); ("Ni", 28); ("Cs", 55)].

Fixpoint assoc (l : list (string * Z)) (sym : string) : option Z :=
  match l with
  | [] => None
  | (k, z) :: rest => if String.eqb k sym then Some z else assoc rest sym
  end.

(** Coordinates in thousandths of a lattice vector. *)
Definition reduce (flags : PBC) (r : Z * Z * Z) : Z * Z * Z :=
  let '(a, b, c) := flags in
  let '(x, y, z) := r in
  (if a then x mod 1000 else x,
   if b then y mod 1000 else y,
   if c then z mod 1000 else z).

Definition ext : Extension :=
  {| Lattice := Z; Row := Z * Z * Z; canonical := reduce; ordinal := assoc table |}.

(** A cubic cell of edge 3.567 with three carbon atoms. *)
Definition carbon : result (@Structure.Structure ext) :=
  Eval vm_compute in
  @Structure.init ext 3567 [(0, 0, 0); (250, 250, 250); (500, 500, 0)]
                  ["C"; "C"; "C"] pbc_default.

(** The CsCl cell of the spec's scenario S1, and the same cell as a slab
    that is not periodic along the third axis. *)
Definition cscl : result (@Structure.Structure ext) :=
  Eval vm_compute in
  @Structure.init ext 4120 [(0, 0, 0); (500, 500, 500)] ["Cs"; "Cl"] pbc_default.


(** Three sites in the order Cl, H, Cl. *)
Definition chain : result (@Structure.Structure ext) :=
  Eval vm_compute in
  @Structure.init ext 4120 [(0, 0, 0); (300, 0, 0); (600, 0, 0)] ["Cl"; "H"; "Cl"]
                  pbc_default.

(** Four sites in the order Cl, Cl, H, H, and a cell of 18 carbon atoms in
    a row. *)
Definition pairs : result (@Structure.Structure ext) :=
  Eval vm_compute in
  @Structure.init ext 4120 [(0, 0, 0); (250, 0, 0); (500, 0, 0); (750, 0, 0)]
                  ["Cl"; "Cl"; "H"; "H"] pbc_default.

Definition eighteen : result (@Structure.Structure ext) :=
  Eval vm_compute in
  @Structure.init ext 9000 ((fun k => (50 * Z.of_nat k, 0, 0)) <$> seq 0 18)
                  (replicate 18 "C") pbc_default.

(** What [sorted()] makes of the two when [np.argsort] returns the index
    array given. *)
Definition pairs_order : list Z := [3; 2; 1; 0].

Definition pairs_sorted : result (@Structure.Got ext) :=
  Eval vm_compute in
  match pairs with
  | Ok s => Structure.sorted_by s pairs_order
  | Raise e => Raise e
  end.

Definition eighteen_order : list Z :=
  [0; 15; 14; 13; 12; 11; 10; 9; 8; 7; 6; 5; 4; 3; 2; 1; 16; 17].

Definition eighteen_sorted : result (@Structure.Got ext) :=
  Eval vm_compute in
  match eighteen with
  | Ok s => Structure.sorted_by s eighteen_order
  | Raise e => Raise e
  end.

(** A reader of [atol] over integer values that rejects negative numbers. *)
Definition read_atol_body : Functional.Reader Z := fun settings =>
  match settings !! "atol" with
  | Some v => if v <? 0 then (settings, Raise (BadSettings "negative" None))
              else (settings, Ok v)
  | None => (settings, Raise (KeyError "atol"))
  end.

(** Settings over integers with a [process_settings] that fills in a
    default for [iterations]. *)
Definition env : Settings.Env :=
  {| Settings.V := Z;
     Settings.process_settings := fun d =>
       match d !! "iterations" with
       | Some _ => (d, inr d)
       | None => (<["iterations" := 100000]> d, inr (<["iterations" := 100000]> d))
       end;
     Settings.as_dict := Some;
     Settings.as_list := Some;
     Settings.accepts := fun _ => true |}.

Definition caller : gmap string Z := {["atol" := 1; "mode" := 0]}.

(** Settings with all the entries [IterationSettings] is built from, and a
    callable default for [rtol] that also stores what it returns. *)
Definition full : gmap string Z :=
  {["structure" := 1; "target_objective" := 2; "pair_weights" := 3;
    "shell_weights" := 4; "iterations" := 5; "max_output_configurations" := 6;
    "shell_distances" := 7; "threads_per_rank" := 8; "atol" := 9; "rtol" := 10;
    "mode" := 11]}.

Definition default_rtol : Functional.Reader Z :=
  fun settings => (<["rtol" := 5]> settings, Ok 5).

(** The arithmetic of [make_supercell] on cubic cells, with coordinates in
    thousandths: a lattice is the length of its edge.  The division is that
    of integers, which is the division numpy does on reals only where the
    size divides the coordinate, as it does in the examples below. *)
Definition scale_edge (sizes : Z * Z * Z) (lat : Z) : Z := sizes.1.1 * lat.

Definition shrink_row (sizes r : Z * Z * Z) : Z * Z * Z :=
  (r.1.1 / sizes.1.1, r.1.2 / sizes.1.2, r.2 / sizes.2).

Definition translate_row (sizes shift r : Z * Z * Z) : Z * Z * Z :=
  (r.1.1 + 1000 * shift.1.1 / sizes.1.1,
   r.1.2 + 1000 * shift.1.2 / sizes.1.2,
   r.2 + 1000 * shift.2 / sizes.2).

Definition tiling : @Structure.Tiling ext :=
  @Structure.Build_Tiling ext scale_edge shrink_row translate_row.

(** Results with integer objectives, parameters and timings;
    [symbols_from_z] looks the ordinal numbers up in the table. *)
Definition symbol_of (z : Z) : string :=
  match List.find (fun p : string * Z => p.2 =? z) table with
  | Some p => p.1
  | None => "?"
  end.

Definition results : Run.Results :=
  {| Run.ObjectiveValue := Z;
     Run.ParameterArray := list Z;
     Run.Shape := nat;
     Run.Timings := list Z;
     Run.symbols_from_z := fmap symbol_of |}.

(** The CsCl cell as a structure. *)
Definition empty_cell : @Structure.Structure ext :=
  @Structure.Build_Structure ext 0 [] [] pbc_default (Np.array []) [] [].

Definition cscl_cell : @Structure.Structure ext :=
  Eval vm_compute in match cscl with Ok s => s | Raise _ => empty_cell end.

(** Two results on the CsCl cell, and settings that hold the structure
    only. *)
Definition sqs_results : list (@Run.SQSResult results) :=
  [ @Run.Build_SQSResult results 0 [17; 55] 0 (fun _ => []);
    @Run.Build_SQSResult results 1 [55; 17] 2 (fun _ => []) ].

Definition run_settings (s : @Structure.Structure ext) : @Run.RunSettings ext results :=
  @Run.Build_RunSettings ext results (Some s) None None.

(** A result document without sublattice, with a bare configuration and a
    dictionary, and one with the sublattice of site 1. *)
Definition plain_confs : list (Z * Run.Conf) :=
  [(0, Run.ConfList ["Cl"; "Cs"]); (3, Run.ConfDict (Some ["Cs"; "Cs"]))].

Definition plain_document (s : @Structure.Structure ext) : @Run.Document ext :=
  @Run.Build_Document ext (Some s) (Some plain_confs) None.

Definition sublattice_confs : list (Z * Run.Conf) := [(0, Run.ConfList ["Fe"])].

Definition sublattice_document (s : @Structure.Structure ext) : @Run.Document ext :=
  @Run.Build_Document ext (Some s) (Some sublattice_confs) (Some [1]).

End Demo.

(** * Properties *)

(** ** [Structure.__getitem__] with an integer *)

Module GetitemFacts.
Import Structure.
Section Facts.
Context {X : Extension}.

Lemma list_getitem_in_range {A} (l : list A) (i : Z) :
  in_range (length l) i = true ->
  exists a, list_getitem l i = Ok a /\ l !! wrap (length l) i = Some a.
Proof.
  intros Hr. unfold list_getitem. rewrite Hr.
  assert (Hlt : (wrap (length l) i < length l)%nat).
  { unfold in_range in Hr. apply andb_true_iff in Hr as [H1 H2].
    apply Z.leb_le in H1. apply Z.ltb_lt in H2. unfold wrap.
    destruct (Z.ltb_spec i 0); lia. }
  destruct (lookup_lt_is_Some_2 l _ Hlt) as [a Ha].
  exists a. by rewrite Ha.
Qed.

(** C10.  For a structure with [N] atoms, [s[i]] with an integer [i] is the
    entry of [species] at position [i] when [0 <= i < N] and at position
    [i + N] when [-N <= i < 0]; for every other integer it raises
    [IndexError]; and it is never a [Structure]. *)
Theorem getitem_integer (s : Structure) (i : Z) :
  let N := Z.of_nat (num_atoms s) in
  (- N <= i < N ->
     exists a, getitem s (ItemInt i) = Ok (GotAtom a) /\
               species s !! Z.to_nat (if i <? 0 then i + N else i) = Some a) /\
  (~ (- N <= i < N) ->
     exists msg, getitem s (ItemInt i) = Raise (IndexError msg)) /\
  (forall r, getitem s (ItemInt i) <> Ok (GotStructure r)).
Proof.
  intros N. unfold getitem, num_atoms in *. subst N.
  destruct (Z.ltb_spec i (- Z.of_nat (length (species s)))) as [Hlo | Hlo];
  destruct (Z.leb_spec (Z.of_nat (length (species s))) i) as [Hhi | Hhi]; simpl.
  - repeat split; [lia | eauto | discriminate].
  - repeat split; [lia | eauto | discriminate].
  - repeat split; [lia | eauto | discriminate].
  - assert (Hr : in_range (length (species s)) i = true).
    { unfold in_range. apply andb_true_iff. split; [apply Z.leb_le | apply Z.ltb_lt]; lia. }
    destruct (list_getitem_in_range (species s) i Hr) as (a & Ha & Hl).
    rewrite Ha. simpl. repeat split.
    + intros _. exists a. split; [done |]. exact Hl.
    + intros Hn. lia.
    + discriminate.
Qed.

End Facts.

Lemma getitem_integer_witness :
  exists s : @Structure Demo.ext,
    Demo.cscl = Ok s /\
    getitem s (ItemInt (-1)) = Ok (GotAtom {| atom_Z := 17; symbol := "Cl" |}) /\
    (exists msg, getitem s (ItemInt 2) = Raise (IndexError msg)).
Proof.
  eexists. split; [reflexivity |].
  match goal with
  | |- getitem ?s _ = _ /\ _ =>
      pose proof (@getitem_integer Demo.ext s (-1)) as (Hin & _ & _);
      pose proof (@getitem_integer Demo.ext s 2) as (_ & Hout & _)
  end.
  split.
  - destruct Hin as (a & Ha & Hl); [cbn; lia |].
    rewrite Ha. cbn in Hl. by injection Hl as <-.
  - apply Hout. cbn. lia.
Defined.

End GetitemFacts.

(** ** The [parameter] decorator *)

Module FunctionalFacts.
Import Functional.
Section Facts.
Context {V : Type}.

(** C2.  A reader declared through [parameter] with name [n], applied to a
    settings object that contains the reader's key: if the body raises
    [BadSettings], the caller sees [BadSettings] with the same message and
    [parameter = n]; if the body returns a value, the wrapper returns that
    value.  In both cases what the body wrote to the settings stays. *)
Theorem parameter_tags_and_forwards (py_None : V) (n : string)
    (default : Default V) (required : Required) (key : option Key)
    (f : Reader V) (settings : gmap string V) :
  contains settings (key_or_name n key) = true ->
  (forall settings' msg p,
      f settings = (settings', Raise (BadSettings msg p)) ->
      parameter py_None n default required key f settings
        = (settings', Raise (BadSettings msg (Some n)))) /\
  (forall settings' v,
      f settings = (settings', Ok v) ->
      parameter py_None n default required key f settings = (settings', Ok v)).
Proof.
  intros Hin. unfold parameter, get_key. rewrite Hin. simpl.
  split; intros * Hf; by rewrite Hf.
Qed.

(** Any other exception of the body passes through the wrapper as it is. *)
Lemma parameter_other_exceptions (py_None : V) n default required key
    (f : Reader V) settings settings' e :
  contains settings (key_or_name n key) = true ->
  f settings = (settings', Raise e) ->
  (forall msg p, e <> BadSettings msg p) ->
  parameter py_None n default required key f settings = (settings', Raise e).
Proof.
  intros Hin Hf He. unfold parameter, get_key. rewrite Hin, Hf. simpl.
  destruct e; try done. by destruct (He msg parameter0).
Qed.

(** A required parameter without default that is missing is reported under
    its name. *)
Lemma parameter_missing (py_None : V) n required key (f : Reader V) settings :
  contains settings (key_or_name n key) = false ->
  truth required = true ->
  exists msg, parameter py_None n NoDefault required key f settings
              = (settings, Raise (BadSettings msg (Some n))).
Proof.
  intros Hin Hreq. unfold parameter, get_key, get_required.
  rewrite Hin, Hreq. simpl. eauto.
Qed.

End Facts.

Lemma parameter_tags_and_forwards_witness :
  let bad : gmap string Z := {["atol" := -1]} in
  contains bad (key_or_name "atol" None) = true /\
  parameter 0 "atol" (DefaultValue 1) (RequiredBool true) None Demo.read_atol_body bad
    = (bad, Raise (BadSettings "negative" (Some "atol"))).
Proof.
  split; [reflexivity |].
  refine (proj1 (parameter_tags_and_forwards 0 "atol" (DefaultValue 1)
                   (RequiredBool true) None Demo.read_atol_body {["atol" := -1]} _)
                _ "negative" None _); vm_compute; reflexivity.
Defined.

End FunctionalFacts.

(** ** [construct_settings] *)

Module SettingsFacts.
Import Settings.
Section Facts.
Context {E : Env}.

(** The loop writes to the dictionary at [b] only. *)
Lemma overload_frame (overloads : list (string * V)) :
  forall (h : gmap nat (gmap string V)) (b a : nat),
    a <> b -> (overload h b overloads).1 !! a = h !! a.
Proof.
  induction overloads as [| [key value] rest IH]; intros h b a Hab; simpl.
  - done.
  - case_bool_decide; simpl; [| done].
    rewrite IH by done. by rewrite lookup_insert_ne.
Qed.

(** The loop ends with [KeyError] exactly when it meets a key the dictionary
    lacks, and with nothing else. *)
Lemma overload_outcome (overloads : list (string * V)) :
  forall (h : gmap nat (gmap string V)) (b : nat) (d : gmap string V),
    h !! b = Some d ->
    match (overload h b overloads).2 with
    | Ok _ => Forall (fun kv => is_Some (d !! kv.1)) overloads
    | Raise e => exists k, e = KeyError k /\ k ∈ overloads.*1 /\ d !! k = None
    end.
Proof.
  induction overloads as [| [key value] rest IH]; intros h b d Hb; simpl.
  - constructor.
  - rewrite (lookup_total_correct h b d Hb).
    case_bool_decide as Hk; simpl.
    + specialize (IH (<[b := <[key := value]> d]> h) b (<[key := value]> d)
                     (lookup_insert_eq _ _ _)).
      destruct (overload _ b rest).2 as [u | e].
      * constructor; [done |].
        eapply Forall_impl; [exact IH |]. intros [k v] Hs. simpl in *.
        destruct (decide (key = k)) as [-> | Hne]; [done |].
        by rewrite lookup_insert_ne in Hs.
      * destruct IH as (k & -> & Hin & Hnone). exists k. split; [done |].
        split; [by right |].
        destruct (decide (key = k)) as [-> | Hne].
        -- by rewrite lookup_insert_eq in Hnone.
        -- by rewrite lookup_insert_ne in Hnone.
    + exists key. split; [done |]. split; [by left |].
      by apply eq_None_not_Some.
Qed.

(** Building the [IterationSettings] never ends in [KeyError]. *)
Lemma build_no_KeyError (d : gmap string V) (k : string) :
  build d <> Raise (KeyError k).
Proof.
  unfold build, getattr, convert, bind.
  repeat (case_match; simplify_eq; try discriminate).
Qed.

(** C9.  [construct_settings] raises [KeyError] if and only if some overload
    key is not a key of the caller's settings, and whatever the outcome the
    caller's dictionary holds the entries it held before the call. *)
Theorem construct_settings_KeyError_and_frame
    (h : gmap nat (gmap string V)) (a : nat) (d : gmap string V)
    (process : bool) (overloads : list (string * V)) :
  h !! a = Some d ->
  ((exists k, (construct_settings h a process overloads).2 = Raise (KeyError k))
     <-> (exists k, k ∈ overloads.*1 /\ d !! k = None)) /\
  (construct_settings h a process overloads).1 !! a = Some d.
Proof.
  intros Ha. unfold construct_settings, alloc.
  rewrite (lookup_total_correct h a d Ha).
  set (b := fresh (dom h)).
  assert (Hab : a <> b).
  { intros ->. apply (is_fresh (dom h)). apply elem_of_dom. by eexists. }
  pose proof (overload_frame overloads (<[b := d]> h) b a Hab) as Hframe.
  rewrite lookup_insert_ne in Hframe by done.
  pose proof (overload_outcome overloads (<[b := d]> h) b d
                (lookup_insert_eq _ _ _)) as Hout.
  destruct (overload (<[b := d]> h) b overloads) as [h2 [u | e]] eqn:Hov;
    simpl in Hframe, Hout.
  - assert (Hno : ~ exists k, k ∈ overloads.*1 /\ d !! k = None).
    { intros (k & Hin & Hnone). apply list_elem_of_fmap in Hin as ([k' v] & -> & Hin).
      rewrite Forall_forall in Hout. specialize (Hout _ Hin). simpl in *.
      rewrite Hnone in Hout. by destruct Hout. }
    destruct process.
    + destruct (process_settings (h2 !!! b)) as [d' [[msg p] | processed]]; simpl.
      * split; [| by rewrite lookup_insert_ne, Hframe, Ha].
        split; [intros [k Hk]; discriminate | intros Hk; by destruct Hno].
      * split; [| by rewrite lookup_insert_ne, Hframe, Ha].
        split; [intros [k Hk]; by apply build_no_KeyError in Hk
               | intros Hk; by destruct Hno].
    + simpl. split; [| by rewrite Hframe, Ha].
      split; [intros [k Hk]; by apply build_no_KeyError in Hk
             | intros Hk; by destruct Hno].
  - simpl. destruct Hout as (k & -> & Hin & Hnone).
    split; [| by rewrite Hframe, Ha].
    split; [intros _; by exists k | intros _; by exists k].
Qed.

End Facts.

Lemma construct_settings_KeyError_and_frame_witness :
  (exists k, (@construct_settings Demo.env {[7%nat := Demo.caller]} 7 true [("rtol", 5)]).2
             = Raise (KeyError k)) /\
  (@construct_settings Demo.env {[7%nat := Demo.caller]} 7 true [("rtol", 5)]).1 !! 7%nat
    = Some Demo.caller.
Proof.
  pose proof (@construct_settings_KeyError_and_frame Demo.env {[7%nat := Demo.caller]}
                7%nat Demo.caller true [("rtol", 5)] eq_refl) as [Hiff Hframe].
  split; [| exact Hframe].
  apply Hiff. exists "rtol". split; [apply list_elem_of_here | reflexivity].
Defined.

End SettingsFacts.

(** ** Index arrays and scattered writes *)

Module NpFacts.
Import Np.

Lemma in_range_spec (n : nat) (i : Z) :
  in_range n i = true <-> - Z.of_nat n <= i < Z.of_nat n.
Proof.
  unfold in_range. rewrite andb_true_iff, Z.leb_le, Z.ltb_lt. done.
Qed.

Lemma wrap_lt (n : nat) (i : Z) : in_range n i = true -> (wrap n i < n)%nat.
Proof.
  rewrite in_range_spec. intros H. unfold wrap.
  destruct (Z.ltb_spec i 0); lia.
Qed.

Lemma check_indices_Ok (n : nat) (idx : list Z) :
  Forall (fun i => in_range n i = true) idx ->
  check_indices n idx = Ok (wrap n <$> idx).
Proof.
  induction 1 as [| i rest Hi _ IH]; simpl; [done |].
  by rewrite Hi, IH.
Qed.

Lemma check_indices_Raise (n : nat) (idx : list Z) :
  Exists (fun i => in_range n i = false) idx ->
  exists e, check_indices n idx = Raise e.
Proof.
  induction 1 as [i rest Hi | i rest _ [e IH]]; simpl.
  - rewrite Hi. eauto.
  - destruct (in_range n i); [rewrite IH |]; simpl; eauto.
Qed.

Lemma check_indices_inv (n : nat) (idx : list Z) (js : list nat) :
  check_indices n idx = Ok js ->
  Forall (fun i => in_range n i = true) idx /\ js = wrap n <$> idx.
Proof.
  revert js. induction idx as [| i rest IH]; intros js; simpl.
  - intros [= <-]. by split.
  - destruct (in_range n i) eqn:Hi; [| discriminate].
    destruct (check_indices n rest) as [js' |] eqn:Hrest; simpl; [| discriminate].
    intros [= <-]. destruct (IH js' eq_refl) as [HF ->].
    split; [by constructor | done].
Qed.

Lemma in_range_dec_split (n : nat) (idx : list Z) :
  Forall (fun i => in_range n i = true) idx \/
  Exists (fun i => in_range n i = false) idx.
Proof.
  induction idx as [| i rest [IH | IH]].
  - left. constructor.
  - destruct (in_range n i) eqn:Hi; [left; by constructor | right; by left].
  - right. by right.
Qed.

Lemma broadcast_same {A} (vals : list A) : broadcast vals (length vals) = Ok vals.
Proof. unfold broadcast. by rewrite decide_True. Qed.

Lemma length_scatter {A} (js : list nat) :
  forall (l vals : list A), length (scatter l js vals) = length l.
Proof.
  induction js as [| j js IH]; intros l [| v vals]; simpl; try done.
  by rewrite IH, length_insert.
Qed.

(** A position that no index addresses keeps its value. *)
Lemma scatter_frame {A} (js : list nat) (i : nat) :
  forall (l vals : list A), i ∉ js -> scatter l js vals !! i = l !! i.
Proof.
  induction js as [| j js IH]; intros l [| v vals] Hi; simpl; try done.
  apply not_elem_of_cons in Hi as [Hne Hi].
  rewrite IH by done. by apply list_lookup_insert_ne.
Qed.

(** With indices that are in range and pairwise different, every index
    holds the value written through it. *)
Lemma scatter_readback {A} (js : list nat) :
  forall (l vals : list A) (k j : nat) (v : A),
    NoDup js -> Forall (fun j => (j < length l)%nat) js ->
    js !! k = Some j -> vals !! k = Some v ->
    scatter l js vals !! j = Some v.
Proof.
  induction js as [| j0 js IH]; intros l vals k j v Hnd Hlt Hj Hv; [done |].
  destruct vals as [| v0 vals]; [by destruct k |].
  apply NoDup_cons in Hnd as [Hnotin Hnd].
  apply Forall_cons in Hlt as [Hlt0 Hlt]. simpl.
  destruct k as [| k]; simpl in Hj, Hv.
  - injection Hj as ->. injection Hv as ->.
    rewrite scatter_frame by done. by apply list_lookup_insert_eq.
  - eapply IH; eauto.
    eapply Forall_impl; [exact Hlt |]. intros ? ?. by rewrite length_insert.
Qed.

Lemma scatter_Forall {A} (P : A -> Prop) (js : list nat) :
  forall (l vals : list A), Forall P l -> Forall P vals -> Forall P (scatter l js vals).
Proof.
  induction js as [| j js IH]; intros l [| v vals] Hl Hv; simpl; try done.
  apply Forall_cons in Hv as [Hv0 Hv].
  apply IH; [| done]. by apply Forall_insert.
Qed.

(** A string that fits a cell is stored as it is. *)
Lemma substring_all (s : string) (k : nat) :
  (String.length s <= k)%nat -> String.substring 0 k s = s.
Proof.
  revert k. induction s as [| c s IH]; intros k Hk; simpl.
  - by destruct k.
  - destruct k as [| k]; simpl in Hk; [lia |]. f_equal. apply IH. lia.
Qed.

Lemma fit_id (k : nat) (s : string) : (String.length s <= k)%nat -> fit k s = s.
Proof. apply substring_all. Qed.

Lemma max_list_ge (l : list nat) (x : nat) : x ∈ l -> (x <= max_list l)%nat.
Proof.
  induction 1 as [x l | x y l _ IH]; simpl; lia.
Qed.

(** Every string of [np.array(l)] fits its cells. *)
Lemma array_fits (l : list string) :
  Forall (fun s => (String.length s <= itemsize (array l))%nat) l.
Proof.
  apply Forall_forall. intros s Hs. simpl.
  assert (String.length s ∈ String.length <$> l) by (by apply list_elem_of_fmap_2).
  pose proof (max_list_ge _ _ H). lia.
Qed.

(** The outcome of [a[idx] = vals] when there are as many values as
    indices. *)
Lemma setitem_same_length (a : str_array) (idx : list Z) (vals : list string) :
  length vals = length idx ->
  Forall (fun i => in_range (length (items a)) i = true) idx ->
  setitem a idx vals =
    Ok {| itemsize := itemsize a;
          items := scatter (items a) (wrap (length (items a)) <$> idx)
                           (fit (itemsize a) <$> vals) |}.
Proof.
  intros Hlen Hr. unfold setitem. rewrite (check_indices_Ok _ _ Hr). simpl.
  rewrite length_fmap, <- Hlen, broadcast_same. done.
Qed.

Lemma setitem_inv (a a' : str_array) (idx : list Z) (vals : list string) :
  setitem a idx vals = Ok a' ->
  exists vs, itemsize a' = itemsize a /\
             items a' = scatter (items a) (wrap (length (items a)) <$> idx)
                                (fit (itemsize a) <$> vs).
Proof.
  unfold setitem. intros H.
  destruct (check_indices (length (items a)) idx) as [js |] eqn:Hc; [| done].
  apply check_indices_inv in Hc as [_ ->]. simpl in H.
  destruct (broadcast vals _) as [vs |]; [| done]. simpl in H.
  injection H as <-. by exists vs.
Qed.

End NpFacts.

(** ** [Structure.with_species] *)

Module WithSpeciesFacts.
Import Np NpFacts Structure.
Section Facts.
Context {X : Extension}.

Lemma find_atom_symbol (sym : string) (a : Atom) :
  find_atom sym = Some a -> symbol a = sym /\ find_atom (symbol a) = Some a.
Proof.
  unfold find_atom. destruct (ordinal sym) as [z |] eqn:Hz; [| done].
  intros [= <-]. simpl. by rewrite Hz.
Qed.

Lemma find_atom_is_Some (sym : string) :
  is_Some (find_atom sym) <-> is_Some (ordinal sym).
Proof.
  unfold find_atom. destruct (ordinal sym); split; intros [? ?]; by eauto.
Qed.

Lemma init_inv lat coords syms flags (s : Structure) :
  init lat coords syms flags = Ok s ->
  length coords = length syms /\
  mapM find_atom syms = Some (species s) /\
  lattice s = lat /\ pbc s = flags /\
  frac_coords s = canonical flags <$> coords /\
  _symbols s = array (symbol <$> species s) /\
  _numbers s = atom_Z <$> species s.
Proof.
  unfold init. case_decide as Hlen; [| done].
  destruct (mapM find_atom syms) as [atoms |]; [| done].
  intros [= <-]. simpl. done.
Qed.

Lemma mapM_find_atom_symbols (syms : list string) (atoms : list Atom) :
  mapM find_atom syms = Some atoms ->
  symbol <$> atoms = syms /\ mapM find_atom (symbol <$> atoms) = Some atoms.
Proof.
  rewrite mapM_Some. induction 1 as [| sym a syms atoms H _ [IH1 IH2]]; [done |].
  apply find_atom_symbol in H as [H1 H2]. split; [simpl; by f_equal |].
  rewrite fmap_cons. apply mapM_Some. apply mapM_Some in IH2. by constructor.
Qed.

(** What the constructor leaves: one row per atom, and a symbol array that
    spells the species. *)
Lemma wf_inv (s : Structure) :
  wf s ->
  length (frac_coords s) = length (species s) /\
  items (symbols s) = symbol <$> species s /\
  itemsize (symbols s) = itemsize (array (symbol <$> species s)) /\
  mapM find_atom (symbol <$> species s) = Some (species s) /\
  _numbers s = atom_Z <$> species s.
Proof.
  intros (lat & coords & syms & flags & H).
  apply init_inv in H as (Hlen & Hm & _ & _ & Hc & Hs & Hn).
  pose proof (length_mapM _ _ _ Hm) as Hl.
  apply mapM_find_atom_symbols in Hm as [Hsym Hm].
  unfold symbols. rewrite Hs, Hc, length_fmap. simpl. repeat split; try done. lia.
Qed.

Lemma init_Ok_species lat (coords : list Row) (syms : list string)
    (atoms : list Atom) flags :
  length coords = length syms ->
  mapM find_atom syms = Some atoms ->
  exists s, init lat coords syms flags = Ok s /\ species s = atoms /\
            lattice s = lat /\ pbc s = flags /\
            frac_coords s = canonical flags <$> coords /\
            symbols s = array (symbol <$> atoms) /\
            _numbers s = atom_Z <$> atoms.
Proof.
  intros Hlen Hm. unfold init. rewrite decide_True by done. rewrite Hm.
  eexists. split; [done |]. simpl. done.
Qed.

(** The outcome of [with_species] once its guards are passed. *)
Lemma with_species_unfold (s : Structure) (new_species : list string)
    (w0 : Z) (w : list Z) :
  length new_species = S (length w) ->
  with_species s new_species (WhichList (w0 :: w)) =
    let! new_symbols := setitem (symbols s) (w0 :: w) new_species in
    init (lattice s) (frac_coords s) (tolist new_symbols) pbc_default.
Proof.
  intros Hlen. unfold with_species. cbn [which_or_range bind]. unfold len.
  destruct (Z.ltb_spec (Z.of_nat (length new_species)) 1) as [H | H]; [lia |].
  rewrite Hlen. cbn [length]. rewrite Z.eqb_refl. reflexivity.
Qed.

Lemma with_species_inv (s s' : Structure) (new_species : list string)
    (which : list Z) :
  with_species s new_species (WhichList which) = Ok s' ->
  length new_species = length which /\ which <> [] /\
  exists a, setitem (symbols s) which new_species = Ok a /\
            init (lattice s) (frac_coords s) (tolist a) pbc_default = Ok s'.
Proof.
  unfold with_species.
  destruct which as [| w0 w]; [intros; discriminate |].
  cbn [which_or_range bind]. unfold len.
  destruct (Z.ltb_spec (Z.of_nat (length new_species)) 1) as [H | H];
    [intros; discriminate |].
  destruct (Z.eqb_spec (Z.of_nat (length (w0 :: w))) (Z.of_nat (length new_species)))
    as [He | He]; cbn [negb]; [| intros; discriminate].
  intros Hr. split; [lia |]. split; [done |].
  destruct (setitem (symbols s) (w0 :: w) new_species) as [a |]; [| discriminate].
  by exists a.
Qed.



(** When the symbols fit the cells of the symbol array and the indices
    address pairwise different sites, reading the symbol array of the result
    at [which] gives the symbols back. *)
Lemma with_species_readback (s s' : Structure) (new_species : list string)
    (which : list Z) :
  wf s ->
  Forall (fun x => (String.length x <= itemsize (symbols s))%nat) new_species ->
  NoDup (wrap (num_atoms s) <$> which) ->
  with_species s new_species (WhichList which) = Ok s' ->
  take (items (symbols s')) which = Ok new_species.
Proof.
  intros Hwf Hfit Hnd Hws.
  destruct (wf_inv s Hwf) as (Hlen & Hitems & Hsize & Hspecies & _).
  assert (HN : length (items (symbols s)) = num_atoms s)
    by (unfold num_atoms; by rewrite Hitems, length_fmap).
  apply with_species_inv in Hws as (Heq & _ & a & Hset & Hinit).
  destruct (in_range_dec_split (length (items (symbols s))) which) as [Hin | Hout].
  2: { unfold setitem in Hset. destruct (check_indices_Raise _ _ Hout) as [e He].
       rewrite He in Hset. discriminate. }
  rewrite (setitem_same_length _ _ _ Heq Hin) in Hset. injection Hset as <-.
  cbn [tolist items] in Hinit.
  apply init_inv in Hinit as (_ & Hm & _ & _ & _ & Hsym & _).
  apply mapM_find_atom_symbols in Hm as [Hm _].
  unfold symbols in *. rewrite Hsym. cbn [items]. rewrite Hm.
  assert (Hvals : fit (itemsize (_symbols s)) <$> new_species = new_species).
  { clear -Hfit. induction Hfit as [| x xs Hx _ IH]; [done |].
    rewrite fmap_cons, IH, fit_id; done. }
  rewrite Hvals, HN in *.
  unfold take. cbn [array items]. rewrite length_scatter, HN.
  rewrite (check_indices_Ok _ _ Hin). cbn [bind].
  assert (Hm2 : mapM (fun j => scatter (items (_symbols s))
                                 (wrap (num_atoms s) <$> which) new_species !! j)
                     (wrap (num_atoms s) <$> which) = Some new_species).
  { apply mapM_Some. apply Forall2_same_length_lookup_2.
    - by rewrite length_fmap.
    - intros k j v Hj Hv.
      eapply scatter_readback; eauto.
      rewrite HN. apply Forall_fmap. eapply Forall_impl; [exact Hin |].
      intros i Hi. simpl. by apply wrap_lt. }
  by rewrite Hm2.
Qed.

End Facts.
End WithSpeciesFacts.

Module WithSpeciesExamples.
Import Np Structure WithSpeciesFacts.
#[local] Existing Instance Demo.ext.






(** C7 at a cell of carbon atoms.  The symbol array of a structure of carbon atoms
    has cells of one character.  [with_species(["Si"], [1])] writes "Si"
    into such a cell, which keeps "S": the site is occupied by sulfur, and
    reading the symbols at [which] gives ["S"], not ["Si"]. *)
Theorem with_species_cuts_symbol :
  exists s s' : Structure,
    Demo.carbon = Ok s /\
    itemsize (symbols s) = 1%nat /\
    with_species s ["Si"] (WhichList [1]) = Ok s' /\
    take (items (symbols s')) [1] = Ok ["S"] /\
    species s' !! 1%nat = Some {| atom_Z := 16; symbol := "S" |}.
Proof.
  eexists _, _.
  split; [reflexivity |].
  split; [reflexivity |].
  split; [reflexivity |].
  split; reflexivity.
Qed.

End WithSpeciesExamples.

(** ** [Structure.sorted] *)

Module SortedFacts.
Import Np NpFacts Structure WithSpeciesFacts.

(** Selecting the entries of a list along a permutation of its positions
    gives a permutation of the list. *)
Lemma mapM_Permutation {A B} (f : A -> option B) (js js' : list A) :
  js ≡ₚ js' ->
  forall r, mapM f js = Some r -> exists r', mapM f js' = Some r' /\ r ≡ₚ r'.
Proof.
  induction 1 as [| j js js' _ IH | j1 j2 js | js1 js2 js3 _ IH1 _ IH2]; intros r Hr.
  - exists r. by split.
  - apply mapM_Some in Hr. apply Forall2_cons_inv_l in Hr as (y & r0 & Hy & Hr0 & ->).
    apply mapM_Some in Hr0. destruct (IH _ Hr0) as (r' & Hr' & Hp).
    exists (y :: r'). split; [| by constructor].
    apply mapM_Some. constructor; [done | by apply mapM_Some].
  - apply mapM_Some in Hr. apply Forall2_cons_inv_l in Hr as (y1 & r0 & Hy1 & Hr0 & ->).
    apply Forall2_cons_inv_l in Hr0 as (y2 & r1 & Hy2 & Hr1 & ->).
    exists (y2 :: y1 :: r1). split; [| by constructor].
    apply mapM_Some. by repeat constructor.
  - destruct (IH1 _ Hr) as (r2 & Hr2 & Hp2).
    destruct (IH2 _ Hr2) as (r3 & Hr3 & Hp3).
    exists r3. split; [done | by etrans].
Qed.

Lemma mapM_lookup_seq {A} (l : list A) :
  mapM (fun j => l !! j) (seq 0 (length l)) = Some l.
Proof.
  apply mapM_Some. apply Forall2_same_length_lookup_2; [by rewrite length_seq |].
  intros i j y Hj Hy. apply lookup_seq in Hj as [-> _]. done.
Qed.

Lemma mapM_lookup_Permutation {A} (l : list A) (js : list nat) :
  js ≡ₚ seq 0 (length l) ->
  exists r, mapM (fun j => l !! j) js = Some r /\ r ≡ₚ l.
Proof.
  intros Hp. symmetry in Hp.
  destruct (mapM_Permutation _ _ _ Hp l (mapM_lookup_seq l)) as (r & Hr & Hlr).
  exists r. by split.
Qed.

Lemma omap_Forall2 {A B} (f : A -> option B) (js : list A) (r : list B) :
  Forall2 (fun j y => f j = Some y) js r -> omap f js = r.
Proof.
  induction 1 as [| j y js r Hj _ IH]; [done |].
  cbn. rewrite Hj. cbn. by rewrite IH.
Qed.

(** An index array that [np.argsort] may return consists of positions. *)
Lemma argsort_positions (n : nat) (idx : list Z) :
  idx ≡ₚ (Z.of_nat <$> seq 0 n) ->
  Forall (fun i => in_range n i = true) idx /\
  wrap n <$> idx = Z.to_nat <$> idx /\
  Z.to_nat <$> idx ≡ₚ seq 0 n.
Proof.
  intros Hp.
  assert (Hall : Forall (fun i => 0 <= i < Z.of_nat n) idx).
  { apply Forall_forall. intros i Hi. rewrite Hp in Hi.
    apply list_elem_of_fmap in Hi as (j & -> & Hj).
    apply elem_of_seq in Hj. lia. }
  split; [| split].
  - eapply Forall_impl; [exact Hall |]. intros i Hi. simpl in Hi.
    apply in_range_spec. lia.
  - apply Forall_fmap_ext. eapply Forall_impl; [exact Hall |].
    intros i Hi. simpl in Hi. unfold wrap. destruct (Z.ltb_spec i 0); [lia | done].
  - rewrite Hp, <- list_fmap_compose.
    rewrite (list_fmap_ext (Z.to_nat ∘ Z.of_nat) id (seq 0 n)).
    + by rewrite list_fmap_id.
    + intros _ j _. simpl. lia.
Qed.

Lemma zip_seq_lookup (keys : list Z) :
  Forall (fun p : Z * Z => keys !! Z.to_nat p.2 = Some p.1)
         (zip keys (Z.of_nat <$> seq 0 (length keys))).
Proof.
  apply Forall_forall. intros [k i] Hin.
  apply list_elem_of_lookup in Hin as [j Hj].
  apply lookup_zip_with_Some in Hj as (x & y & [= -> ->] & Hx & Hy).
  rewrite list_lookup_fmap in Hy.
  destruct (seq 0 (length keys) !! j) as [j' |] eqn:Hs; [| done].
  apply lookup_seq in Hs as [-> _]. injection Hy as <-.
  simpl. by rewrite Nat2Z.id.
Qed.

Lemma argsort_exists (keys : list Z) : argsort_of keys (reference_argsort keys).
Proof.
  unfold argsort_of, reference_argsort.
  set (pairs := zip keys (Z.of_nat <$> seq 0 (length keys))).
  pose proof (merge_sort_Permutation key_le pairs) as Hp.
  split.
  - rewrite Hp. unfold pairs. rewrite snd_zip; [done |].
    by rewrite length_fmap, length_seq.
  - assert (Hs : Sorted key_le (merge_sort key_le pairs)).
    { apply Sorted_merge_sort. intros p q. unfold key_le. lia. }
    assert (Hl : Forall (fun p : Z * Z => keys !! Z.to_nat p.2 = Some p.1)
                        (merge_sort key_le pairs)).
    { rewrite Hp. apply zip_seq_lookup. }
    revert Hs Hl. generalize (merge_sort key_le pairs). clear.
    intros l Hs Hl.
    assert (Hk : keys_at keys l.*2 = l.*1).
    { clear Hs. unfold keys_at. induction Hl as [| [k i] l Hki _ IH]; [done |].
      cbn in *. rewrite Hki. cbn. by rewrite IH. }
    rewrite Hk. clear Hk Hl.
    induction Hs as [| p l _ IH Hhd]; [constructor |].
    cbn. constructor; [exact IH |].
    destruct Hhd as [| q l Hpq]; constructor. exact Hpq.
Qed.

Section Facts.
Context {X : Extension}.

Lemma known_species (s : Structure) :
  wf s -> Forall (fun a => find_atom (symbol a) = Some a) (species s).
Proof.
  intros Hwf. destruct (wf_inv s Hwf) as (_ & _ & _ & Hm & _).
  apply mapM_Some in Hm. apply Forall2_fmap_l in Hm.
  apply Forall_forall. intros a Ha.
  apply list_elem_of_lookup in Ha as [i Hi].
  destruct (Forall2_lookup_l _ _ _ _ _ Hm Hi) as (b & Hb & Hf).
  congruence.
Qed.

(** C8, as the code has it.  For every index array that [np.argsort] may
    return for the ordinal numbers of [s], [s.sorted()] returns a structure
    whose sites are a permutation of the sites of [s] (coordinates as the
    constructor stores them) and whose ordinal numbers ascend. *)
Theorem sorted_permutation_ascending (s : Structure) (idx : list Z) :
  wf s ->
  argsort_of (_numbers s) idx ->
  exists s', sorted_by s idx = Ok (GotStructure s') /\
             sites s' ≡ₚ stored <$> sites s /\
             Sorted Z.le (_numbers s').
Proof.
  intros Hwf [Hperm Hsorted].
  pose proof (known_species s Hwf) as Hknown.
  destruct (wf_inv s Hwf) as (Hlen & Hitems & _ & _ & Hnum).
  assert (Hn : length (_numbers s) = length (species s))
    by (by rewrite Hnum, length_fmap).
  rewrite Hn in Hperm.
  destruct (argsort_positions _ _ Hperm) as (Hin & Hwrap & Hjs).
  set (js := Z.to_nat <$> idx) in *.
  assert (Hzl : length (sites s) = length (species s)).
  { unfold sites. rewrite length_zip. lia. }
  destruct (mapM_lookup_Permutation (sites s) js) as (r & Hr & Hrp);
    [by rewrite Hzl |].
  apply mapM_Some in Hr.
  assert (Hrows : mapM (fun j => frac_coords s !! j) js = Some r.*1).
  { apply mapM_Some. apply Forall2_fmap_r. eapply Forall2_impl; [exact Hr |].
    intros j [row a] Hj. unfold sites in Hj.
    apply lookup_zip_with_Some in Hj as (x & y & [= -> ->] & Hx & Hy). done. }
  assert (Hatoms : Forall2 (fun j a => species s !! j = Some a) js r.*2).
  { apply Forall2_fmap_r. eapply Forall2_impl; [exact Hr |].
    intros j [row a] Hj. unfold sites in Hj.
    apply lookup_zip_with_Some in Hj as (x & y & [= -> ->] & Hx & Hy). done. }
  assert (Hsyms : mapM (fun j => items (symbols s) !! j) js = Some (symbol <$> r.*2)).
  { apply mapM_Some. apply Forall2_fmap_r. eapply Forall2_impl; [exact Hatoms |].
    intros j a Hj. simpl. by rewrite Hitems, list_lookup_fmap, Hj. }
  assert (Hfind : mapM find_atom (symbol <$> r.*2) = Some r.*2).
  { apply mapM_Some. apply Forall2_fmap_l. apply Forall_Forall2_diag.
    apply Forall_forall. intros a Ha.
    apply list_elem_of_lookup in Ha as [k Hk].
    destruct (Forall2_lookup_r _ _ _ _ _ Hatoms Hk) as (j & _ & Hj).
    rewrite Forall_forall in Hknown. apply Hknown.
    apply list_elem_of_lookup. by exists j. }
  destruct (init_Ok_species (lattice s) r.*1 (symbol <$> r.*2) r.*2 pbc_default)
    as (s' & Hs' & Hsp & _ & _ & Hfc & _ & Hnum'); [by rewrite !length_fmap | done |].
  exists s'. split; [| split].
  - unfold sorted_by, getitem. cbn [bind]. unfold take.
    rewrite Hlen, (check_indices_Ok _ _ Hin), Hwrap. cbn [bind].
    fold js. rewrite Hrows. cbn [bind].
    rewrite Hitems, length_fmap, (check_indices_Ok _ _ Hin), Hwrap. cbn [bind].
    fold js. rewrite <- Hitems, Hsyms. cbn [bind]. by rewrite Hs'.
  - unfold sites at 1. rewrite Hfc, Hsp, <- Hrp.
    clear. induction r as [| [row a] r IH]; [done |].
    cbn. by rewrite IH.
  - rewrite Hnum'.
    assert (Hkeys : keys_at (_numbers s) idx = atom_Z <$> r.*2).
    { unfold keys_at.
      rewrite <- (omap_Forall2 (fun j => _numbers s !! j) js (atom_Z <$> r.*2)).
      - unfold js. clear. induction idx as [| i idx IH]; [done |].
        cbn. destruct (_numbers s !! Z.to_nat i); cbn; by rewrite IH.
      - apply Forall2_fmap_r. eapply Forall2_impl; [exact Hatoms |].
        intros j a Hj. simpl. by rewrite Hnum, list_lookup_fmap, Hj. }
    by rewrite <- Hkeys.
Qed.

(** [sorted()] returns: a suitable index array exists for every structure,
    and every such array leads to a structure. *)
Lemma sorted_returns (s : Structure) :
  wf s -> exists s', sorted s (Ok (GotStructure s')).
Proof.
  intros Hwf.
  pose proof (argsort_exists (_numbers s)) as Harg.
  set (idx := reference_argsort (_numbers s)) in *.
  assert (Hex : exists s', sorted_by s idx = Ok (GotStructure s')).
  { unfold sorted_by, getitem. cbn [bind]. unfold take.
    destruct Harg as [Hperm _].
    destruct (wf_inv s Hwf) as (Hlen & Hitems & _ & _ & Hnum).
    assert (Hn : length (_numbers s) = length (species s))
      by (by rewrite Hnum, length_fmap).
    rewrite Hn in Hperm.
    destruct (argsort_positions _ _ Hperm) as (Hin & Hwrap & Hjs).
    rewrite Hlen, (check_indices_Ok _ _ Hin), Hwrap. cbn [bind].
    destruct (mapM_lookup_Permutation (frac_coords s) (Z.to_nat <$> idx))
      as (rows & Hrows & _); [by rewrite Hlen |].
    rewrite Hrows. cbn [bind].
    rewrite Hitems, length_fmap, (check_indices_Ok _ _ Hin), Hwrap. cbn [bind].
    destruct (mapM_lookup_Permutation (symbol <$> species s) (Z.to_nat <$> idx))
      as (syms & Hsyms & Hp); [by rewrite length_fmap |].
    rewrite Hsyms. cbn [bind].
    assert (Hall : Forall (fun sym => is_Some (find_atom sym)) syms).
    { rewrite Hp. apply Forall_fmap.
      eapply Forall_impl; [apply (known_species s Hwf) |].
      intros a Ha. simpl. by rewrite Ha. }
    apply mapM_is_Some in Hall as [atoms Hatoms].
    assert (Hl : length rows = length syms).
    { apply length_mapM in Hrows, Hsyms. congruence. }
    destruct (init_Ok_species (lattice s) rows syms atoms pbc_default Hl Hatoms)
      as (s' & Hs' & _).
    rewrite Hs'. by exists s'. }
  destruct Hex as [s' Hs']. exists s', idx. by split.
Qed.

End Facts.
End SortedFacts.

Module SortedExamples.
Import Np Structure WithSpeciesFacts SortedFacts.
#[local] Existing Instance Demo.ext.

Lemma chain_wf (s : Structure) : Demo.chain = Ok s -> wf s.
Proof.
  intros H.
  exists 4120, [(0, 0, 0); (300, 0, 0); (600, 0, 0)], ["Cl"; "H"; "Cl"], pbc_default.
  rewrite <- H. reflexivity.
Qed.

Lemma sorted_permutation_ascending_witness :
  exists s : Structure,
    Demo.chain = Ok s /\
    argsort_of (_numbers s) [1; 0; 2] /\
    exists s', sorted_by s [1; 0; 2] = Ok (GotStructure s') /\
               sites s' ≡ₚ stored <$> sites s /\
               Sorted Z.le (_numbers s').
Proof.
  eexists. split; [reflexivity |].
  assert (Hargsort : argsort_of [17; 1; 17] [1; 0; 2]).
  { split; [apply (perm_swap 0 1 [2]) |].
    cbn. repeat constructor; lia. }
  split; [exact Hargsort |].
  apply (sorted_permutation_ascending _ [1; 0; 2]); [| exact Hargsort].
  by apply chain_wf.
Defined.

(** Two runs of [sorted()] that do not keep the order of sites with equal
    ordinal number.  Where numpy sorts with x86-simd-sort on an AVX-512
    processor, [np.argsort] of the numbers 17, 17, 1, 1 of the sites Cl, Cl, H, H is [3, 2, 1, 0]: the
    second round of the network exchanges lane 0 with lane 3 and lane 1
    with lane 2, and the equal keys are never exchanged back.  Where numpy
    runs its own introsort, the 18 equal keys of a cell of 18 carbon atoms
    are partitioned once, which exchanges equal keys, and the index array
    is 0, 15, 14, ..., 1, 16, 17. *)
Lemma sorted_may_swap_equal_Z :
  (exists s s' : Structure,
     Demo.pairs = Ok s /\
     simd_argsort8 (_numbers s) = Some Demo.pairs_order /\
     argsort_of (_numbers s) Demo.pairs_order /\
     sorted_by s Demo.pairs_order = Ok (GotStructure s') /\
     ~ same_order_within_Z (sites s') (stored <$> sites s)) /\
  (exists s s' : Structure,
     Demo.eighteen = Ok s /\
     aquicksort (_numbers s) = Some Demo.eighteen_order /\
     argsort_of (_numbers s) Demo.eighteen_order /\
     sorted_by s Demo.eighteen_order = Ok (GotStructure s') /\
     ~ same_order_within_Z (sites s') (stored <$> sites s)).
Proof.
  split.
  - eexists _, _.
    split; [reflexivity |].
    split; [vm_compute; reflexivity |].
    split.
    { split.
      - rewrite <- (merge_sort_Permutation Z.le Demo.pairs_order).
        vm_compute. reflexivity.
      - apply (bool_decide_unpack _). vm_compute. exact I. }
    split; [exact (eq_refl : Demo.pairs_sorted = _) |].
    intros H. specialize (H 17). vm_compute in H. discriminate.
  - eexists _, _.
    split; [reflexivity |].
    split; [vm_compute; reflexivity |].
    split.
    { split.
      - rewrite <- (merge_sort_Permutation Z.le Demo.eighteen_order).
        vm_compute. reflexivity.
      - apply (bool_decide_unpack _). vm_compute. exact I. }
    split; [exact (eq_refl : Demo.eighteen_sorted = _) |].
    intros H. specialize (H 6). vm_compute in H. discriminate.
Qed.

End SortedExamples.

(** ** [expand_results] *)

Module RunFacts.
Import Np NpFacts Structure WithSpeciesFacts Run.
Section Facts.
Context {X : Extension}.

Lemma agree_outside_refl which a : agree_outside which a a.
Proof. by split. Qed.

Lemma setitem_agree_outside (which : list Z) (a a' : str_array) (conf : list string) :
  setitem a which conf = Ok a' -> agree_outside which a' a.
Proof.
  intros H. apply setitem_inv in H as (vs & _ & Hitems).
  unfold agree_outside. rewrite Hitems.
  split; [apply length_scatter |].
  intros i Hi. apply scatter_frame.
  intros Hin. apply list_elem_of_fmap in Hin as (k & -> & Hk).
  apply Hi. by exists k.
Qed.

Lemma agree_outside_trans which a b c :
  agree_outside which a b -> agree_outside which b c -> agree_outside which a c.
Proof.
  intros [Hl1 H1] [Hl2 H2]. split; [congruence |].
  intros i Hi. rewrite H1, H2; [done | done |]. by rewrite Hl2.
Qed.

(** Every structure the loop produces spells, outside [which], the symbols
    the parent array held when the loop started; and so does the parent
    array when the loop ends, although every configuration was written into
    it. *)
Lemma expand_items_frame (lat : Lattice) (rows : list Row) (which : list Z)
    (confs : list (Z * Conf)) :
  forall (parent parent' : str_array) (out : list (Z * Structure)),
    expand_items lat rows (Some which) parent confs = (parent', Ok out) ->
    agree_outside which parent' parent /\
    Forall (fun rs => forall i : nat,
              ~ addressed (length (items parent)) which i ->
              (symbol <$> species rs.2) !! i = items parent !! i) out.
Proof.
  induction confs as [| [rank c] rest IH]; intros parent parent' out; cbn [expand_items].
  - intros [= <- <-]. split; [apply agree_outside_refl | constructor].
  - destruct (configuration_of c) as [conf |]; [| discriminate].
    unfold new_species.
    destruct (forallb int64 which); [| discriminate].
    destruct (setitem parent which conf) as [parent1 |] eqn:Hset;
      unfold tolist; [| discriminate].
    destruct (init lat rows (items parent1) pbc_default) as [st |] eqn:Hinit;
      [| discriminate].
    destruct (expand_items lat rows (Some which) parent1 rest)
      as [parent2 [r |]] eqn:Hrest; [| discriminate].
    intros [= <- <-].
    pose proof (setitem_agree_outside _ _ _ _ Hset) as H1.
    destruct (IH _ _ _ Hrest) as [H2 Hout].
    split; [by eapply agree_outside_trans |].
    destruct H1 as [Hl1 H1].
    constructor.
    + intros i Hi. cbn [snd].
      apply init_inv in Hinit as (_ & Hm & _).
      apply mapM_find_atom_symbols in Hm as [-> _]. by apply H1.
    + eapply Forall_impl; [exact Hout |]. intros [rk st'] Hst i Hi.
      rewrite Hst; [by apply H1 | by rewrite Hl1].
Qed.

Lemma known_atoms_lookup (l1 l2 : list Atom) (i : nat) :
  Forall (fun a => find_atom (symbol a) = Some a) l1 ->
  Forall (fun a => find_atom (symbol a) = Some a) l2 ->
  (symbol <$> l1) !! i = (symbol <$> l2) !! i ->
  l1 !! i = l2 !! i.
Proof.
  intros H1 H2. rewrite !list_lookup_fmap.
  destruct (l1 !! i) as [a |] eqn:Ha, (l2 !! i) as [b |] eqn:Hb; simpl; try done.
  intros [= Hab].
  rewrite Forall_forall in H1, H2.
  pose proof (H1 a (list_elem_of_lookup_2 _ _ _ Ha)) as Hfa.
  pose proof (H2 b (list_elem_of_lookup_2 _ _ _ Hb)) as Hfb.
  congruence.
Qed.

Lemma expand_items_built (lat : Lattice) (rows : list Row) (which : option (list Z))
    (confs : list (Z * Conf)) :
  forall (parent parent' : str_array) (out : list (Z * Structure)),
    expand_items lat rows which parent confs = (parent', Ok out) ->
    Forall (fun rs => wf rs.2) out.
Proof.
  induction confs as [| [rank c] rest IH]; intros parent parent' out; cbn [expand_items].
  - intros [= <- <-]. constructor.
  - destruct (configuration_of c) as [conf |]; [| discriminate].
    destruct (new_species which parent conf) as [parent1 [sp |]]; [| discriminate].
    destruct (init lat rows sp pbc_default) as [st |] eqn:Hinit; [| discriminate].
    destruct (expand_items lat rows which parent1 rest)
      as [parent2 [r |]] eqn:Hrest; [| discriminate].
    intros [= <- <-]. constructor; [| by eapply IH].
    by eexists _, _, _, _.
Qed.

(** The half of C1 that holds: every structure [expand_results] produces
    for a document with a sublattice has the species of the parent structure
    on every site that [which] does not address. *)
Lemma expand_results_frame (dense : Document) (s : Structure) (which : list Z)
    (p : option Structure) (out : list (Z * Structure)) :
  doc_structure dense = Some s ->
  wf s ->
  doc_which dense = Some which ->
  expand_results dense = (p, Ok out) ->
  forall rank st, (rank, st) ∈ out ->
  forall i : nat, ~ addressed (num_atoms s) which i ->
                  species st !! i = species s !! i.
Proof.
  intros Hs Hwf Hw. unfold expand_results. rewrite Hs, Hw.
  destruct (doc_configurations dense) as [confs |]; [| discriminate].
  destruct (expand_items _ _ _ _ confs) as [a r] eqn:Hex.
  intros [= <- ->] rank st Hin i Hi.
  pose proof (expand_items_built _ _ _ _ _ _ _ Hex) as Hbuilt.
  apply expand_items_frame in Hex as [_ Hout].
  rewrite Forall_forall in Hout, Hbuilt.
  specialize (Hout _ Hin i). specialize (Hbuilt _ Hin). cbn [snd] in *.
  destruct (wf_inv s Hwf) as (_ & Hitems & _).
  assert (HN : length (items (symbols s)) = num_atoms s)
    by (unfold num_atoms; by rewrite Hitems, length_fmap).
  rewrite HN in Hout. specialize (Hout Hi). rewrite Hitems in Hout.
  apply known_atoms_lookup; [| | done].
  - by apply SortedFacts.known_species.
  - by apply SortedFacts.known_species.
Qed.

End Facts.
End RunFacts.

Module RunExamples.
Import Np Structure Run.
#[local] Existing Instance Demo.ext.

(** C1 at a cell of three carbon atoms with the sublattice [0, 1].  The
    document asks for carbon on site 0 and silicon on site 1.  The parent's
    symbol array has cells of one character, so the structure that comes out
    carries "S" on site 1, and sulfur as its species; the parent structure,
    whose symbol array was written to, now spells "S" there as well. *)
Theorem expand_results_cuts_symbol :
  exists (s p st : Structure),
    Demo.carbon = Ok s /\
    expand_results {| doc_structure := Some s;
                      doc_configurations := Some [(0, ConfList ["C"; "Si"])];
                      doc_which := Some [0; 1] |}
      = (Some p, Ok [(0, st)]) /\
    take (items (symbols st)) [0; 1] = Ok ["C"; "S"] /\
    species st !! 1%nat = Some {| atom_Z := 16; symbol := "S" |} /\
    tolist (symbols p) = ["C"; "S"; "C"].
Proof.
  eexists _, _, _.
  split; [reflexivity |].
  split; [reflexivity |].
  repeat split.
Qed.

End RunExamples.

(** ** The readers *)

Module ReadersFacts.
Import Readers.

Lemma Qltb_spec (x y : Q) : Qltb x y = true <-> (x < y)%Q.
Proof.
  unfold Qltb. rewrite negb_true_iff. split.
  - intros H. apply Qnot_le_lt. intros Hle.
    apply Qle_bool_iff in Hle. congruence.
  - intros H. destruct (Qle_bool y x) eqn:Hb; [| done].
    apply Qle_bool_iff in Hb. by apply Qlt_not_le in H.
Qed.

Lemma increasing_from_spec (l : list Q) :
  forall x, increasing_from x l = true <-> Sorted Qlt (x :: l).
Proof.
  induction l as [| y l IH]; intros x; simpl.
  - split; [intros _; repeat constructor | done].
  - rewrite andb_true_iff, Qltb_spec, IH. split.
    + intros [Hxy Hs]. constructor; [done | by constructor].
    + intros Hs. apply Sorted_inv in Hs as [Hs Hhd].
      apply HdRel_inv in Hhd. done.
Qed.

Lemma strictly_increasing_spec (l : list Q) :
  strictly_increasing l = true <-> Sorted Qlt l.
Proof.
  destruct l as [| x l]; simpl; [split; [constructor | done] |].
  apply increasing_from_spec.
Qed.

Lemma mapM_real_of (distances : list Entry) :
  match mapM real_of distances with
  | Some ds => distances = Real <$> ds /\ reals distances = ds
  | None => Exists (fun e => e = NotReal) distances
  end.
Proof.
  destruct (mapM real_of distances) as [ds |] eqn:Hm.
  - apply mapM_Some in Hm. unfold reals.
    induction Hm as [| e x l ds He _ [IH1 IH2]]; [done |].
    destruct e; [| done]. injection He as ->.
    split; cbn; by f_equal.
  - apply mapM_None in Hm. eapply Exists_impl; [exact Hm |].
    intros [x |]; simpl; [done | done].
Qed.

Lemma leading_zero_head (ds : list Q) :
  exists h t, with_leading_zero ds = h :: t /\ (h == 0)%Q /\
              (forall x, x ∈ ds -> x = h \/ x ∈ t).
Proof.
  destruct ds as [| d ds]; simpl.
  - exists 0%Q, []. split; [done |]. split; [reflexivity |].
    intros x Hx. by apply elem_of_nil in Hx.
  - destruct (Qeq_bool d 0) eqn:Hd.
    + exists d, ds. split; [done |]. split; [by apply Qeq_bool_eq |].
      intros x Hx. apply elem_of_cons in Hx as [-> | Hx]; [by left | by right].
    + exists 0%Q, (d :: ds). split; [done |]. split; [reflexivity |].
      intros x Hx. by right.
Qed.

(** A negative entry breaks the ascent from the leading zero. *)
Lemma negative_not_increasing (ds : list Q) (x : Q) :
  x ∈ ds -> (x < 0)%Q -> ~ Sorted Qlt (with_leading_zero ds).
Proof.
  intros Hx Hneg Hs.
  apply Sorted_StronglySorted in Hs; [| intros a b c; apply Qlt_trans].
  destruct (leading_zero_head ds) as (h & t & Heq & Hh & Hin).
  rewrite Heq in Hs. apply StronglySorted_inv in Hs as [_ Hall].
  destruct (Hin x Hx) as [-> | Ht].
  - rewrite Hh in Hneg. by apply Qlt_irrefl in Hneg.
  - rewrite Forall_forall in Hall. specialize (Hall x Ht).
    rewrite Hh in Hall. apply (Qlt_irrefl 0). exact (Qlt_trans _ _ _ Hall Hneg).
Qed.

(** Every call either raises the validation error tagged [shell_distances],
    for a sequence that is rejected or holds only a zero, or returns the
    sequence with its leading zero. *)
Lemma read_shell_distances_cases (distances : list Entry) :
  (exists msg, read_shell_distances distances
               = Raise (BadSettings msg (Some "shell_distances")) /\
               (rejected distances \/ only_zero distances)) \/
  (read_shell_distances distances = Ok (with_leading_zero (reals distances)) /\
   ~ (rejected distances \/ only_zero distances)).
Proof.
  unfold read_shell_distances, bad.
  pose proof (mapM_real_of distances) as Hm.
  destruct (mapM real_of distances) as [ds |].
  2: { left. eexists. split; [done |]. left. right. left.
       eapply Exists_impl; [exact Hm |]. intros e He. by left. }
  destruct Hm as [Hd Hr].
  destruct (strictly_increasing (with_leading_zero ds)) eqn:Hinc; simpl.
  2: { left. eexists. split; [done |]. left. right. right.
       unfold increasing_after_zero. rewrite Hr.
       intros Hs. apply strictly_increasing_spec in Hs. congruence. }
  apply strictly_increasing_spec in Hinc.
  destruct (Nat.ltb_spec (length (with_leading_zero ds)) 2) as [Hlen | Hlen].
  - left. eexists. split; [done |].
    destruct ds as [| x [| y ds]]; simpl in Hlen.
    + left. left. by rewrite Hd.
    + right. exists x. split; [by rewrite Hd |].
      destruct (Qeq_bool x 0) eqn:Hx; [by apply Qeq_bool_eq | simpl in Hlen; lia].
    + destruct (Qeq_bool x 0); simpl in Hlen; lia.
  - right. rewrite Hr. split; [done |].
    intros [[Hempty | [Hbad | Hnot]] | (x & Hx & Hzero)].
    + subst distances. destruct ds; [simpl in Hlen; lia | done].
    + apply Exists_exists in Hbad as (e & He & [-> | (x & -> & Hneg)]).
      * rewrite Hd in He. apply list_elem_of_fmap in He as (? & ? & _). done.
      * rewrite Hd in He. apply list_elem_of_fmap in He as (y & [= <-] & Hy).
        by apply (negative_not_increasing ds x).
    + apply Hnot. unfold increasing_after_zero. by rewrite Hr.
    + rewrite Hx in Hd. destruct ds as [| y [| ? ?]]; try done.
      injection Hd as ->. simpl in Hlen.
      apply Qeq_eq_bool in Hzero. rewrite Hzero in Hlen. simpl in Hlen. lia.
Qed.

(** C3, as the spec's rule has it.  [read_shell_distances] raises
    [BadSettings] with parameter [shell_distances] when the sequence is
    empty, contains a negative or non-real entry, is not strictly increasing
    after the leading zero, or consists of a zero alone (the result must
    have two entries at least); otherwise it returns the sequence unchanged
    when its first element is 0 and with a 0 in front when it is not. *)
Theorem read_shell_distances_outcome (distances : list Entry) :
  (rejected distances \/ only_zero distances ->
     exists msg, read_shell_distances distances
                 = Raise (BadSettings msg (Some "shell_distances"))) /\
  (~ (rejected distances \/ only_zero distances) ->
     exists x rest,
       distances = Real <$> (x :: rest) /\
       ((x == 0)%Q -> read_shell_distances distances = Ok (x :: rest)) /\
       (~ (x == 0)%Q -> read_shell_distances distances = Ok (0%Q :: x :: rest))).
Proof.
  destruct (read_shell_distances_cases distances) as [(msg & Hr & Hrej) | [Hr Hok]].
  - split; [intros _; by exists msg | intros Hn; by destruct Hn].
  - split; [intros Hrej; by destruct Hok |]. intros _.
    pose proof (mapM_real_of distances) as Hm.
    destruct (mapM real_of distances) as [ds |].
    2: { destruct Hok. left. right. left.
         eapply Exists_impl; [exact Hm |]. intros e He. by left. }
    destruct Hm as [Hd Hreals]. rewrite Hreals in Hr.
    destruct ds as [| x rest].
    { destruct Hok. left. left. by rewrite Hd. }
    exists x, rest. split; [done |]. rewrite Hr. simpl. split.
    + intros Hx. apply Qeq_eq_bool in Hx. by rewrite Hx.
    + intros Hx. destruct (Qeq_bool x 0) eqn:Hb; [| done].
      apply Qeq_bool_eq in Hb. by destruct Hx.
Qed.

(** The sequence [[0]] is not empty, has no negative and no non-real entry
    and nothing after its leading zero that could fail to ascend, and it is
    refused all the same. *)
Lemma read_shell_distances_single_zero :
  ~ rejected [Real 0] /\
  exists msg, read_shell_distances [Real 0]
              = Raise (BadSettings msg (Some "shell_distances")).
Proof.
  split.
  - intros [H | [H | H]].
    + discriminate.
    + apply Exists_cons in H as [[H | (x & [= <-] & Hneg)] | H].
      * discriminate.
      * by apply Qlt_irrefl in Hneg.
      * by apply Exists_nil in H.
    + apply H. unfold increasing_after_zero. cbn. repeat constructor.
  - eexists. reflexivity.
Qed.

Lemma read_shell_distances_outcome_witness :
  read_shell_distances [Real 1; Real 2] = Ok [0; 1; 2]%Q /\
  exists msg, read_shell_distances [Real 0; Real (-1); Real 2]
              = Raise (BadSettings msg (Some "shell_distances")).
Proof.
  split.
  - destruct (read_shell_distances_outcome [Real 1; Real 2]) as [_ H].
    destruct H as (x & rest & Heq & _ & Hne).
    + intros [[H | [H | H]] | (x & [=] & _)].
      * discriminate.
      * apply Exists_cons in H as [[H | (x & [= <-] & Hneg)] | H]; [done | done |].
        apply Exists_cons in H as [[H | (x & [= <-] & Hneg)] | H]; [done | done |].
        by apply Exists_nil in H.
      * apply H. unfold increasing_after_zero. cbn. by repeat constructor.
    + destruct rest as [| y [| ? ?]]; try discriminate.
      injection Heq as <- <-. apply Hne. discriminate.
  - apply (read_shell_distances_outcome [Real 0; Real (-1); Real 2]).
    left. right. left. apply Exists_cons_tl, Exists_cons_hd. right.
    exists (-1)%Q. by split.
Defined.

(** The sequences of [test_read_shell_distances] and of scenario S5. *)
Example read_shell_distances_S5 :
  is_raise (read_shell_distances [Real 0; Real (-1); Real 2]) = true.
Proof. reflexivity. Qed.

Example read_shell_distances_complex :
  is_raise (read_shell_distances [Real 0; Real 1; Real 2; Real 3; NotReal]) = true.
Proof. reflexivity. Qed.

Example read_shell_distances_empty : is_raise (read_shell_distances []) = true.
Proof. reflexivity. Qed.

Example read_shell_distances_zeros :
  is_raise (read_shell_distances [Real 0; Real 0]) = true.
Proof. reflexivity. Qed.

Example read_shell_distances_custom :
  read_shell_distances [Real 0; Real 1; Real 2; Real 4; Real 5] = Ok [0; 1; 2; 4; 5]%Q.
Proof. reflexivity. Qed.

Example read_shell_distances_prepends :
  read_shell_distances [Real 1; Real 2; Real 4; Real 5] = Ok [0; 1; 2; 4; 5]%Q.
Proof. reflexivity. Qed.






End ReadersFacts.

(** ** [Structure.__getitem__] with a list, a mask or a slice *)

Module IndexingFacts.
Import Np NpFacts Structure WithSpeciesFacts.

(** What an index array selects from a list. *)
Lemma take_lookup {A} (l r : list A) (idx : list Z) :
  take l idx = Ok r ->
  length r = length idx /\
  forall k, r !! k = idx !! k ≫= fun i => l !! wrap (length l) i.
Proof.
  unfold take. intros H.
  destruct (check_indices (length l) idx) as [js |] eqn:Hc; [| discriminate].
  apply check_indices_inv in Hc as [_ ->]. cbn [bind] in H.
  destruct (mapM _ _) as [r' |] eqn:Hm; [| discriminate]. injection H as ->.
  apply mapM_Some in Hm. split.
  - apply Forall2_length in Hm. by rewrite length_fmap in Hm.
  - intros k. rewrite Forall2_lookup in Hm. specialize (Hm k).
    rewrite list_lookup_fmap in Hm.
    destruct (idx !! k) as [i |]; simpl in *; inversion Hm; congruence.
Qed.

Lemma take_omap {A} (l r : list A) (idx : list Z) :
  take l idx = Ok r -> r = omap (fun i => l !! wrap (length l) i) idx.
Proof.
  intros H. apply list_eq. intros k.
  destruct (take_lookup _ _ _ H) as [Hlen Hk]. rewrite Hk.
  unfold take in H.
  destruct (check_indices (length l) idx) as [js |] eqn:Hc; [| discriminate].
  apply check_indices_inv in Hc as [Hin _]. clear -Hin. revert k.
  induction Hin as [| i idx Hi _ IH]; intros k; [done |].
  cbn. destruct (lookup_lt_is_Some_2 l _ (wrap_lt _ _ Hi)) as [a Ha].
  rewrite Ha. cbn. destruct k; cbn; [by rewrite Ha | apply IH].
Qed.

Lemma take_Ok {A} (l : list A) (idx : list Z) :
  Forall (fun i => in_range (length l) i = true) idx ->
  exists r, take l idx = Ok r.
Proof.
  intros Hin. unfold take. rewrite (check_indices_Ok _ _ Hin). cbn [bind].
  assert (Hs : is_Some (mapM (fun j => l !! j) (wrap (length l) <$> idx))).
  { apply mapM_is_Some. apply Forall_fmap. eapply Forall_impl; [exact Hin |].
    intros i Hi. simpl. apply lookup_lt_is_Some_2. by apply wrap_lt. }
  destruct Hs as [r ->]. by exists r.
Qed.

Lemma take_Raise {A} (l : list A) (idx : list Z) :
  Exists (fun i => in_range (length l) i = false) idx ->
  exists msg, take l idx = Raise (IndexError msg).
Proof.
  intros Hout. unfold take.
  assert (Hc : exists msg, check_indices (length l) idx = Raise (IndexError msg)).
  { induction Hout as [i rest Hi | i rest _ [msg IH]]; simpl.
    - rewrite Hi. eauto.
    - destruct (in_range (length l) i); [rewrite IH |]; simpl; eauto. }
  destruct Hc as [msg ->]. by exists msg.
Qed.

Section Facts.
Context {X : Extension}.

(** Selecting sites with an integer index array. *)
Lemma getitem_array (s : Structure) (idx : list Z) :
  wf s ->
  Forall (fun i => in_range (num_atoms s) i = true) idx ->
  exists s',
    getitem s (ItemIntArray idx) = Ok (GotStructure s') /\
    wf s' /\
    lattice s' = lattice s /\ pbc s' = pbc_default /\
    num_atoms s' = length idx /\
    (forall k, species s' !! k
               = idx !! k ≫= fun i => species s !! wrap (num_atoms s) i) /\
    (forall k, frac_coords s' !! k
               = canonical pbc_default
                   <$> (idx !! k ≫= fun i => frac_coords s !! wrap (num_atoms s) i)) /\
    species s' = omap (fun i => species s !! wrap (num_atoms s) i) idx /\
    frac_coords s' = canonical pbc_default
                       <$> omap (fun i => frac_coords s !! wrap (num_atoms s) i) idx.
Proof.
  intros Hwf Hin. unfold num_atoms in *.
  destruct (wf_inv s Hwf) as (Hlen & Hitems & _ & Hknown & _).
  assert (Hin1 : Forall (fun i => in_range (length (frac_coords s)) i = true) idx)
    by (by rewrite Hlen).
  assert (Hin2 : Forall (fun i => in_range (length (items (symbols s))) i = true) idx)
    by (by rewrite Hitems, length_fmap).
  destruct (take_Ok _ _ Hin1) as [rows Hrows].
  destruct (take_Ok _ _ Hin2) as [syms Hsyms].
  destruct (take_lookup _ _ _ Hrows) as [Hlr Hrk].
  destruct (take_lookup _ _ _ Hsyms) as [Hls Hsk].
  rewrite Hlen in Hrk. rewrite Hitems, length_fmap in Hsk.
  set (picked := omap (fun i => species s !! wrap (length (species s)) i) idx).
  assert (Hpk : forall k, picked !! k
                = idx !! k ≫= fun i => species s !! wrap (length (species s)) i).
  { intros k. unfold picked. clear -Hin. revert k.
    induction Hin as [| i idx Hi _ IH]; intros k; [done |].
    cbn. destruct (lookup_lt_is_Some_2 (species s) _ (wrap_lt _ _ Hi)) as [a Ha].
    rewrite Ha. cbn. destruct k; cbn; [by rewrite Ha | apply IH]. }
  assert (Hsp : syms = symbol <$> picked).
  { apply list_eq. intros k. rewrite list_lookup_fmap, Hsk, Hpk.
    destruct (idx !! k) as [i |]; simpl; [| done]. by rewrite list_lookup_fmap. }
  assert (Hfind : mapM find_atom (symbol <$> picked) = Some picked).
  { apply mapM_Some, Forall2_fmap_l, Forall_Forall2_diag, Forall_forall.
    intros a Ha. apply list_elem_of_lookup in Ha as [k Hk].
    rewrite Hpk in Hk. destruct (idx !! k) as [i |]; simpl in Hk; [| done].
    apply mapM_Some, Forall2_fmap_l in Hknown.
    destruct (Forall2_lookup_l _ _ _ _ _ Hknown Hk) as (b & Hb & Hf). congruence. }
  assert (Hll : length rows = length (symbol <$> picked)) by (rewrite <- Hsp; lia).
  destruct (init_Ok_species (lattice s) rows _ picked pbc_default Hll Hfind)
    as (s' & Hs' & Hspec & Hlat & Hpbc & Hfc & _).
  exists s'. split.
  { unfold getitem. cbn [bind]. rewrite Hrows. cbn [bind].
    rewrite Hsyms. cbn [bind]. by rewrite Hsp, Hs'. }
  split; [by eexists _, _, _, _ |].
  split; [done |]. split; [done |].
  split; [rewrite Hspec; apply (f_equal length) in Hsp;
          rewrite length_fmap in Hsp; lia |].
  split; [intros k; by rewrite Hspec, Hpk |].
  split; [intros k; by rewrite Hfc, list_lookup_fmap, Hrk |].
  split; [done |].
  rewrite Hfc. f_equal. rewrite (take_omap _ _ _ Hrows). by rewrite Hlen.
Qed.

Lemma getitem_array_Raise (s : Structure) (idx : list Z) :
  wf s ->
  Exists (fun i => in_range (num_atoms s) i = false) idx ->
  exists msg, getitem s (ItemIntArray idx) = Raise (IndexError msg).
Proof.
  intros Hwf Hout. unfold num_atoms in *.
  destruct (wf_inv s Hwf) as (Hlen & _).
  rewrite <- Hlen in Hout.
  destruct (take_Raise _ _ Hout) as [msg Hr].
  exists msg. unfold getitem. cbn [bind]. by rewrite Hr.
Qed.

Lemma getitem_list_as_array (s : Structure) (l : list Z) :
  l <> [] -> int_dtype (num_atoms s) l = true ->
  getitem s (ItemList l) = getitem s (ItemIntArray l).
Proof. intros Hne Hd. destruct l; [done |]. unfold getitem. by rewrite Hd. Qed.

Lemma getitem_list_not_int (s : Structure) (l : list Z) :
  int_dtype (num_atoms s) l = false ->
  exists msg, getitem s (ItemList l) = Raise (TypeError msg).
Proof.
  intros Hd. destruct l; [by eexists |]. unfold getitem. rewrite Hd. by eexists.
Qed.

Lemma in_range_int_dtype (n : nat) (l : list Z) :
  Forall (fun i => in_range n i = true) l -> int_dtype n l = true.
Proof.
  intros H. unfold int_dtype. apply forallb_forall. intros i Hi.
  rewrite Forall_forall in H. rewrite (H i); [apply orb_true_r |].
  by apply list_elem_of_In.
Qed.

Lemma int64_spec (i : Z) : int64 i = true <-> - 2 ^ 63 <= i < 2 ^ 63.
Proof. unfold int64. rewrite andb_true_iff, Z.leb_le, Z.ltb_lt. done. Qed.

(** For every axis numpy can hold, the dtype is decided by the width of the
    entries alone. *)
Lemma int_dtype_spec (n : nat) (l : list Z) :
  Z.of_nat n <= 2 ^ 63 ->
  int_dtype n l = true <-> Forall (fun i => - 2 ^ 63 <= i < 2 ^ 63) l.
Proof.
  intros Hn. unfold int_dtype. rewrite forallb_forall, Forall_forall.
  split; intros H i Hi.
  - apply list_elem_of_In in Hi. specialize (H i Hi).
    apply orb_true_iff in H as [H | H]; [by apply int64_spec |].
    apply in_range_spec in H. lia.
  - apply list_elem_of_In in Hi. specialize (H i Hi).
    apply int64_spec in H. by rewrite H.
Qed.

(** X1.  Indexing a structure with a non-empty list of integers that are
    all in [-N, N) returns a structure with one site per entry: its k-th
    site has the species and the (stored) coordinates of the site of [s]
    that the k-th entry addresses; the lattice is kept and the flags are the
    default. *)
Theorem getitem_list_selects (s : Structure) (l : list Z) :
  wf s ->
  l <> [] ->
  Forall (fun i => - Z.of_nat (num_atoms s) <= i < Z.of_nat (num_atoms s)) l ->
  exists s',
    getitem s (ItemList l) = Ok (GotStructure s') /\
    lattice s' = lattice s /\ pbc s' = pbc_default /\
    num_atoms s' = length l /\
    (forall k, species s' !! k
               = l !! k ≫= fun i => species s !! wrap (num_atoms s) i) /\
    (forall k, frac_coords s' !! k
               = canonical pbc_default
                   <$> (l !! k ≫= fun i => frac_coords s !! wrap (num_atoms s) i)).
Proof.
  intros Hwf Hne Hin.
  assert (Hin' : Forall (fun i => in_range (num_atoms s) i = true) l).
  { eapply Forall_impl; [exact Hin |]. intros i Hi. by apply in_range_spec. }
  rewrite getitem_list_as_array by (done || by apply in_range_int_dtype).
  destruct (getitem_array s l Hwf Hin')
    as (s' & H & _ & Hlat & Hpbc & Hn & Hsp & Hfc & _).
  by exists s'.
Qed.

(** X2.  For a structure numpy can hold (fewer than 2^63 atoms), indexing
    with a list raises exactly when the list is empty or holds an integer
    outside [-N, N).  The error is [TypeError] when the list is empty (numpy
    gives it a float dtype) or holds an integer that does not fit 64 bits
    (numpy then gives it the dtype uint64, float64 or object), and
    [IndexError] when all entries fit but one is outside [-N, N). *)
Theorem getitem_list_raises_iff (s : Structure) (l : list Z) :
  wf s ->
  Z.of_nat (num_atoms s) <= 2 ^ 63 ->
  (raises (getitem s (ItemList l)) <->
     l = [] \/
     Exists (fun i => ~ (- Z.of_nat (num_atoms s) <= i < Z.of_nat (num_atoms s))) l) /\
  (l = [] \/ Exists (fun i => ~ (- 2 ^ 63 <= i < 2 ^ 63)) l ->
   exists msg, getitem s (ItemList l) = Raise (TypeError msg)) /\
  (l <> [] ->
   Forall (fun i => - 2 ^ 63 <= i < 2 ^ 63) l ->
   Exists (fun i => ~ (- Z.of_nat (num_atoms s) <= i < Z.of_nat (num_atoms s))) l ->
   exists msg, getitem s (ItemList l) = Raise (IndexError msg)).
Proof.
  intros Hwf HN.
  assert (Hbad : forall l' : list Z,
             Exists (fun i => ~ (- Z.of_nat (num_atoms s) <= i < Z.of_nat (num_atoms s))) l' ->
             Exists (fun i => in_range (num_atoms s) i = false) l').
  { intros l' H. eapply Exists_impl; [exact H |]. intros i Hi.
    destruct (in_range (num_atoms s) i) eqn:Hr; [| done].
    by apply in_range_spec in Hr. }
  assert (Hwide : Exists (fun i => ~ (- 2 ^ 63 <= i < 2 ^ 63)) l ->
                  int_dtype (num_atoms s) l = false).
  { intros H. destruct (int_dtype (num_atoms s) l) eqn:Hd; [| done].
    apply (int_dtype_spec _ _ HN) in Hd. apply Exists_exists in H as (i & Hi & Hw).
    rewrite Forall_forall in Hd. by destruct (Hw (Hd i Hi)). }
  split; [| split].
  - destruct l as [| x l]; [split; [by left | intros _; by eexists] |].
    destruct (int_dtype (num_atoms s) (x :: l)) eqn:Hd.
    + rewrite getitem_list_as_array by done. split.
      * intros [e He]. right.
        destruct (in_range_dec_split (num_atoms s) (x :: l)) as [Hin | Hout].
        -- destruct (getitem_array s _ Hwf Hin) as (s' & Hs' & _). congruence.
        -- eapply Exists_impl; [exact Hout |]. intros i Hi Hr.
           apply in_range_spec in Hr. congruence.
      * intros [H | H]; [done |].
        destruct (getitem_array_Raise s _ Hwf (Hbad _ H)) as [msg Hm]. by eexists.
    + split.
      * intros _. right.
        destruct (in_range_dec_split (num_atoms s) (x :: l)) as [Hin | Hout].
        -- apply in_range_int_dtype in Hin. congruence.
        -- eapply Exists_impl; [exact Hout |]. intros i Hi Hr.
           apply in_range_spec in Hr. congruence.
      * intros _. destruct (getitem_list_not_int s _ Hd) as [msg Hm]. by eexists.
  - intros [-> | H]; [by eexists |]. by apply getitem_list_not_int, Hwide.
  - intros Hne Hfit H. rewrite getitem_list_as_array;
      [| done | by apply (int_dtype_spec _ _ HN)].
    apply getitem_array_Raise; [done | by apply Hbad].
Qed.

(** X3.  The entry at position k of [s[l]] is the entry of [s] at the k-th
    index of the list: [s[l][k] == s[l[k]]]. *)
Theorem getitem_list_then_integer (s s' : Structure) (l : list Z) (k : nat) (i : Z)
    (a : Atom) :
  wf s ->
  getitem s (ItemList l) = Ok (GotStructure s') ->
  l !! k = Some i ->
  getitem s (ItemInt i) = Ok (GotAtom a) ->
  getitem s' (ItemInt (Z.of_nat k)) = Ok (GotAtom a).
Proof.
  intros Hwf Hs' Hk Ha.
  assert (Hne : l <> []) by (intros ->; done).
  assert (Hd : int_dtype (num_atoms s) l = true).
  { destruct (int_dtype (num_atoms s) l) eqn:Hd; [done |].
    destruct (getitem_list_not_int s l Hd) as [msg Hm]. congruence. }
  rewrite getitem_list_as_array in Hs' by done.
  destruct (in_range_dec_split (num_atoms s) l) as [Hin | Hout].
  2: { destruct (getitem_array_Raise s _ Hwf Hout) as [msg Hm]. congruence. }
  destruct (getitem_array s l Hwf Hin) as (s2 & H2 & _ & _ & _ & Hn & Hsp & _).
  rewrite H2 in Hs'. injection Hs' as <-.
  specialize (Hsp k). rewrite Hk in Hsp. simpl in Hsp.
  rewrite Forall_forall in Hin.
  pose proof (Hin i (list_elem_of_lookup_2 _ _ _ Hk)) as Hi.
  assert (Hai : species s !! wrap (num_atoms s) i = Some a).
  { unfold getitem in Ha. unfold in_range in Hi. apply andb_true_iff in Hi as [H1 H3].
    apply Z.leb_le in H1. apply Z.ltb_lt in H3.
    destruct (Z.ltb_spec i (- Z.of_nat (num_atoms s))); [lia |].
    destruct (Z.leb_spec (Z.of_nat (num_atoms s)) i); [lia |]. simpl in Ha.
    unfold list_getitem in Ha. fold (num_atoms s) in Ha.
    destruct (in_range (num_atoms s) i); [| done].
    destruct (species s !! wrap (num_atoms s) i); [| done]. simpl in Ha. congruence. }
  rewrite Hai in Hsp.
  assert (Hlt : (k < num_atoms s2)%nat).
  { rewrite Hn. by eapply lookup_lt_Some. }
  unfold getitem.
  destruct (Z.ltb_spec (Z.of_nat k) (- Z.of_nat (num_atoms s2))); [lia |].
  destruct (Z.leb_spec (Z.of_nat (num_atoms s2)) (Z.of_nat k)); [lia |]. simpl.
  unfold list_getitem. fold (num_atoms s2).
  assert (Hr : in_range (num_atoms s2) (Z.of_nat k) = true) by (apply in_range_spec; lia).
  rewrite Hr.
  assert (Hw : wrap (num_atoms s2) (Z.of_nat k) = k).
  { unfold wrap. destruct (Z.ltb_spec (Z.of_nat k) 0); lia. }
  by rewrite Hw, Hsp.
Qed.

(** The positions of the true entries of a mask select the entries the
    mask marks. *)
Lemma omap_argwhere {A} (m : list bool) :
  forall (pre l : list A),
    (length m <= length l)%nat ->
    omap (fun i => (pre ++ l)%list !! wrap (length (pre ++ l)%list) i)
         (argwhere_from (Z.of_nat (length pre)) m) = compress m l /\
    Forall (fun i => in_range (length (pre ++ l)%list) i = true)
           (argwhere_from (Z.of_nat (length pre)) m).
Proof.
  induction m as [| b m IH]; intros pre l Hlen; [by split |].
  destruct l as [| x l]; [simpl in Hlen; lia |].
  simpl in Hlen.
  destruct (IH (pre ++ [x])%list l ltac:(lia)) as [IH1 IH2].
  assert (E1 : ((pre ++ [x]) ++ l = pre ++ x :: l)%list) by (by rewrite <- app_assoc).
  assert (E2 : Z.of_nat (length (pre ++ [x])%list) = Z.of_nat (length pre) + 1)
    by (rewrite length_app; simpl; lia).
  rewrite E1, E2 in IH1, IH2.
  assert (Hr : in_range (length (pre ++ x :: l)%list) (Z.of_nat (length pre)) = true).
  { apply in_range_spec. rewrite length_app. simpl. lia. }
  assert (Hw : wrap (length (pre ++ x :: l)%list) (Z.of_nat (length pre)) = length pre).
  { unfold wrap. destruct (Z.ltb_spec (Z.of_nat (length pre)) 0); lia. }
  cbn [argwhere_from]. unfold compress. cbn [zip zip_with].
  rewrite filter_cons. destruct b; cbn [fst].
  - rewrite decide_True by done. cbn. rewrite Hw, list_lookup_middle by done. cbn.
    split; [f_equal; exact IH1 | constructor; [exact Hr | exact IH2]].
  - rewrite decide_False by done. cbn. by split.
Qed.

(** X4.  Indexing with a boolean mask that is not longer than the structure
    and marks at least one site returns the structure of the marked sites,
    in their order: its species and its (stored) coordinates are those of
    [s] at the positions where the mask is true. *)
Theorem getitem_mask_selects (s : Structure) (m : list bool) :
  wf s ->
  (length m <= num_atoms s)%nat ->
  true ∈ m ->
  exists s',
    getitem s (ItemMask m) = Ok (GotStructure s') /\
    species s' = compress m (species s) /\
    frac_coords s' = canonical pbc_default <$> compress m (frac_coords s) /\
    lattice s' = lattice s /\ pbc s' = pbc_default.
Proof.
  intros Hwf Hlen Htrue. unfold num_atoms in *.
  destruct (wf_inv s Hwf) as (Hl & _).
  destruct (omap_argwhere m [] (species s) Hlen) as [Hsp Hin].
  destruct (omap_argwhere m [] (frac_coords s) ltac:(lia)) as [Hfc _].
  cbn [app length] in Hsp, Hin, Hfc. change (Z.of_nat 0) with 0 in *.
  fold (argwhere m) in Hsp, Hin, Hfc.
  destruct (getitem_array s (argwhere m) Hwf Hin)
    as (s' & Hs' & _ & Hlat & Hpbc & _ & _ & _ & Hspecies & Hcoords).
  exists s'. split.
  - destruct m as [| b m]; [by apply elem_of_nil in Htrue |]. exact Hs'.
  - unfold num_atoms in *. rewrite Hspecies, Hcoords, Hsp, <- Hl, Hfc. done.
Qed.

Lemma range_from_forward (k a : nat) :
  range_from k (Z.of_nat a) 1 = Z.of_nat <$> seq a k.
Proof.
  revert a. induction k as [| k IH]; intros a; [done |].
  cbn. f_equal. replace (Z.of_nat a + 1) with (Z.of_nat (S a)) by lia. apply IH.
Qed.

Lemma range_from_backward (n : nat) :
  range_from n (Z.of_nat n - 1) (-1) = Z.of_nat <$> reverse (seq 0 n).
Proof.
  induction n as [| n IH]; [done |].
  rewrite seq_S, reverse_app. cbn.
  replace (Z.of_nat (S n) - 1) with (Z.of_nat n) by lia. f_equal.
  replace (Z.of_nat n + -1) with (Z.of_nat n - 1) by lia. exact IH.
Qed.

Lemma omap_positions {A} (l : list A) (js : list nat) :
  Forall (fun j => (j < length l)%nat) js ->
  omap (fun i => l !! wrap (length l) i) (Z.of_nat <$> js) = omap (fun j => l !! j) js /\
  Forall (fun i => in_range (length l) i = true) (Z.of_nat <$> js).
Proof.
  induction 1 as [| j js Hj _ [IH1 IH2]]; [by split |].
  assert (Hw : wrap (length l) (Z.of_nat j) = j).
  { unfold wrap. destruct (Z.ltb_spec (Z.of_nat j) 0); lia. }
  split.
  - cbn. rewrite Hw. destruct (l !! j); cbn; by rewrite IH1.
  - cbn. constructor; [apply in_range_spec; lia | exact IH2].
Qed.

Lemma omap_lookup_seq {A} (l : list A) (k : nat) :
  forall a, (a + k <= length l)%nat ->
            omap (fun j => l !! j) (seq a k) = firstn k (drop a l).
Proof.
  induction k as [| k IH]; intros a Ha; [done |].
  cbn [seq]. cbn.
  destruct (lookup_lt_is_Some_2 l a ltac:(lia)) as [x Hx].
  rewrite Hx. cbn. rewrite IH by lia.
  rewrite (drop_S l x a Hx). done.
Qed.

Lemma omap_reverse {A B} (f : A -> option B) (l : list A) :
  omap f (reverse l) = reverse (omap f l).
Proof.
  induction l as [| x l IH]; [done |].
  rewrite reverse_cons, omap_app, IH.
  destruct (f x) as [y |] eqn:Hx.
  - assert (E1 : omap f (x :: l) = y :: omap f l) by (cbn; by rewrite Hx).
    assert (E2 : omap f [x] = [y]) by (cbn; by rewrite Hx).
    by rewrite E1, E2, reverse_cons.
  - assert (E1 : omap f (x :: l) = omap f l) by (cbn; by rewrite Hx).
    assert (E2 : omap f [x] = []) by (cbn; by rewrite Hx).
    by rewrite E1, E2, app_nil_r.
Qed.

(** X5.  A slice [s[a:b]] with [0 <= a < b <= N] is the structure of the
    sites [a], ..., [b - 1] in their order, and [s[:]] of a non-empty
    structure holds all its sites; a slice with step 0 raises
    [ValueError]. *)
Theorem getitem_slice_selects (s : Structure) (a b : nat) :
  wf s ->
  (a < b <= num_atoms s)%nat ->
  (exists s',
     getitem s (ItemSlice (Some (Z.of_nat a)) (Some (Z.of_nat b)) None)
       = Ok (GotStructure s') /\
     species s' = firstn (b - a) (drop a (species s)) /\
     frac_coords s' = canonical pbc_default <$> firstn (b - a) (drop a (frac_coords s))) /\
  (exists s',
     getitem s (ItemSlice None None None) = Ok (GotStructure s') /\
     species s' = species s /\
     frac_coords s' = canonical pbc_default <$> frac_coords s) /\
  (forall start stop,
     exists msg, getitem s (ItemSlice start stop (Some 0)) = Raise (ValueError msg)).
Proof.
  intros Hwf Hab. unfold num_atoms in *.
  destruct (wf_inv s Hwf) as (Hl & _).
  assert (Hsel : forall (x k : nat), (x + k <= length (species s))%nat ->
            exists s', getitem s (ItemIntArray (Z.of_nat <$> seq x k)) = Ok (GotStructure s') /\
                       species s' = firstn k (drop x (species s)) /\
                       frac_coords s' = canonical pbc_default
                                          <$> firstn k (drop x (frac_coords s))).
  { intros x k Hxk.
    assert (Hjs : Forall (fun j => (j < length (species s))%nat) (seq x k)).
    { apply Forall_forall. intros j Hj. apply elem_of_seq in Hj. lia. }
    destruct (omap_positions (species s) _ Hjs) as [Hsp Hin].
    destruct (omap_positions (frac_coords s) (seq x k)) as [Hfc _];
      [by rewrite Hl |].
    destruct (getitem_array s _ Hwf Hin)
      as (s' & Hs' & _ & _ & _ & _ & _ & _ & Hspecies & Hcoords).
    exists s'. split; [done |]. unfold num_atoms in *.
    rewrite Hspecies, Hcoords, Hsp, <- Hl, Hfc.
    rewrite !omap_lookup_seq by lia. done. }
  split; [| split].
  - destruct (Hsel a (b - a)%nat ltac:(lia)) as (s' & Hs' & Hrest).
    exists s'. split; [| done]. rewrite <- Hs'.
    unfold getitem. cbn [bind]. unfold slice_indices, slice_bounds, num_atoms.
    cbn [default bind]. change (1 =? 0) with false. change (1 <? 0) with false. cbn iota.
    destruct (Z.ltb_spec (Z.of_nat a) 0); [lia |].
    destruct (Z.ltb_spec (Z.of_nat b) 0); [lia |].
    rewrite !Z.min_l by lia. cbn [bind]. unfold range_len. change (0 <? 1) with true.
    cbn iota.
    replace (Z.to_nat ((Z.of_nat b - Z.of_nat a + 1 - 1) / 1)) with (b - a)%nat
      by (rewrite Z.div_1_r; lia).
    by rewrite range_from_forward.
  - destruct (Hsel 0%nat (length (species s)) ltac:(lia)) as (s' & Hs' & Hsp & Hfc).
    exists s'. rewrite drop_0, firstn_all in Hsp.
    rewrite drop_0, <- Hl, firstn_all in Hfc. split; [| done]. rewrite <- Hs'.
    unfold getitem. cbn [bind]. unfold slice_indices, slice_bounds, num_atoms.
    cbn [default bind]. change (1 =? 0) with false. change (1 <? 0) with false. cbn iota.
    cbn [bind]. unfold range_len. change (0 <? 1) with true. cbn iota.
    replace (Z.to_nat ((Z.of_nat (length (species s)) - 0 + 1 - 1) / 1))
      with (length (species s)) by (rewrite Z.div_1_r; lia).
    by rewrite (range_from_forward _ 0).
  - intros start stop. by eexists.
Qed.

(** X6.  [s[::-1]] is the structure with the sites of [s] in reverse
    order. *)
Theorem getitem_slice_reverses (s : Structure) :
  wf s ->
  (0 < num_atoms s)%nat ->
  exists s',
    getitem s (ItemSlice None None (Some (-1))) = Ok (GotStructure s') /\
    species s' = reverse (species s) /\
    frac_coords s' = canonical pbc_default <$> reverse (frac_coords s).
Proof.
  intros Hwf Hpos. unfold num_atoms in *.
  destruct (wf_inv s Hwf) as (Hl & _).
  assert (Hjs : Forall (fun j => (j < length (species s))%nat)
                       (reverse (seq 0 (length (species s))))).
  { apply Forall_forall. intros j Hj. apply elem_of_reverse, elem_of_seq in Hj. lia. }
  destruct (omap_positions (species s) _ Hjs) as [Hsp Hin].
  destruct (omap_positions (frac_coords s) (reverse (seq 0 (length (species s)))))
    as [Hfc _]; [by rewrite Hl |].
  destruct (getitem_array s _ Hwf Hin)
    as (s' & Hs' & _ & _ & _ & _ & _ & _ & Hspecies & Hcoords).
  exists s'. split.
  - rewrite <- Hs'. unfold getitem. cbn [bind].
    unfold slice_indices, slice_bounds, num_atoms.
    change (default 1 (Some (-1))) with (-1). cbn [bind].
    change (-1 =? 0) with false. change (-1 <? 0) with true. cbn iota. cbn [bind].
    unfold range_len. change (0 <? -1) with false. cbn iota.
    replace (Z.to_nat ((Z.of_nat (length (species s)) - 1 - -1 - -1 - 1) / - -1))
      with (length (species s))
      by (change (- -1) with 1; rewrite Z.div_1_r; lia).
    by rewrite range_from_backward.
  - unfold num_atoms in *.
    rewrite Hspecies, Hcoords, Hsp. rewrite Hl in Hfc. rewrite Hfc.
    rewrite !omap_reverse.
    rewrite (omap_lookup_seq (species s) _ 0), drop_0, firstn_all by lia.
    rewrite (omap_lookup_seq (frac_coords s) _ 0), drop_0 by lia.
    rewrite <- Hl, firstn_all. done.
Qed.

End Facts.
End IndexingFacts.

(** ** More on [structure.py] *)

Module StructureFacts.
Import Np NpFacts Structure WithSpeciesFacts IndexingFacts.
Section Facts.
Context {X : Extension}.

Lemma wf_symbols (s : Structure) :
  wf s -> symbols s = array (symbol <$> species s).
Proof.
  intros (lat & coords & syms & flags & H).
  by apply init_inv in H as (_ & _ & _ & _ & _ & Hs & _).
Qed.

Lemma wf_unique (s : Structure) :
  wf s -> _unique_species s = remove_dups (symbol <$> species s).
Proof.
  intros (lat & coords & syms & flags & H). unfold init in H.
  case_decide; [| discriminate].
  destruct (mapM find_atom syms); [| discriminate]. by injection H as <-.
Qed.

Lemma remove_dups_shorter (l : list string) :
  (length (remove_dups l) <= length l)%nat.
Proof.
  induction l as [| x l IH]; [done |].
  cbn. case_decide; cbn; lia.
Qed.

(** X7.  What [__init__] establishes for every structure: the symbol array,
    the array of ordinal numbers and the coordinates have one entry per
    atom; the number at a site is the ordinal number the species table gives
    for the symbol at that site; every symbol fits the cells of the symbol
    array; and [unique_species] holds each occurring symbol once and nothing
    else, so that there are at most as many as atoms. *)
Theorem init_invariant (s : Structure) :
  wf s ->
  length (items (symbols s)) = num_atoms s /\
  length (numbers s) = num_atoms s /\
  length (frac_coords s) = num_atoms s /\
  (forall i sym, items (symbols s) !! i = Some sym ->
                 (String.length sym <= itemsize (symbols s))%nat /\
                 exists z, ordinal sym = Some z /\ numbers s !! i = Some z) /\
  NoDup (unique_species s) /\
  (forall sym, sym ∈ unique_species s <-> sym ∈ items (symbols s)) /\
  (num_unique_species s <= num_atoms s)%nat.
Proof.
  intros Hwf. unfold num_atoms, numbers, unique_species, num_unique_species.
  destruct (wf_inv s Hwf) as (Hlen & Hitems & Hsize & Hknown & Hnum).
  rewrite (wf_unique s Hwf), Hitems, Hnum, !length_fmap.
  refine (conj eq_refl (conj eq_refl (conj Hlen (conj _ (conj _ (conj _ _)))))).
  - intros i sym Hi. split.
    + rewrite Hsize. pose proof (array_fits (symbol <$> species s)) as Hfit.
      rewrite Forall_forall in Hfit. apply Hfit.
      by eapply list_elem_of_lookup_2.
    + rewrite list_lookup_fmap in Hi.
      destruct (species s !! i) as [a |] eqn:Ha; [| done]. injection Hi as <-.
      apply mapM_Some, Forall2_fmap_l in Hknown.
      destruct (Forall2_lookup_l _ _ _ _ _ Hknown Ha) as (b & Hb & Hf).
      assert (b = a) by congruence. subst b.
      simpl in Hf. unfold find_atom in Hf.
      destruct (ordinal (symbol a)) as [z |] eqn:Hz; [| discriminate].
      exists z. split; [done |]. rewrite list_lookup_fmap, Ha. simpl.
      injection Hf as Hf. by rewrite <- Hf.
  - apply NoDup_remove_dups.
  - intros sym. apply elem_of_remove_dups.
  - rewrite <- (length_fmap symbol (species s)). apply remove_dups_shorter.
Qed.

(** Once the guards are passed and the stored symbols are known species,
    [with_species] returns. *)
Lemma with_species_returns (s : Structure) (new_species : list string)
    (which : list Z) :
  wf s ->
  which <> [] ->
  length new_species = length which ->
  Forall (fun i => in_range (num_atoms s) i = true) which ->
  Forall (fun x => is_Some (ordinal (fit (itemsize (symbols s)) x))) new_species ->
  exists r, with_species s new_species (WhichList which) = Ok r /\ wf r /\
            num_atoms r = num_atoms s.
Proof.
  intros Hwf Hne Heq Hin Hknown. unfold num_atoms in *.
  destruct (wf_inv s Hwf) as (Hlen & Hitems & _ & Hspecies & _).
  destruct which as [| w0 w]; [done |].
  rewrite with_species_unfold by (simpl in *; lia).
  assert (Hin' : Forall (fun i => in_range (length (items (symbols s))) i = true) (w0 :: w))
    by (by rewrite Hitems, length_fmap).
  rewrite (setitem_same_length _ _ _ Heq Hin'). cbn [bind tolist items].
  set (new := scatter (items (symbols s)) _ _).
  assert (Hall : Forall (fun sym => is_Some (find_atom sym)) new).
  { apply scatter_Forall.
    - rewrite Hitems. apply mapM_is_Some. by rewrite Hspecies.
    - apply Forall_fmap. eapply Forall_impl; [exact Hknown |].
      intros y Hy. by apply find_atom_is_Some. }
  apply mapM_is_Some in Hall as [atoms Hatoms].
  assert (Hl : length (frac_coords s) = length new)
    by (unfold new; by rewrite length_scatter, Hlen, Hitems, length_fmap).
  destruct (init_Ok_species (lattice s) (frac_coords s) new atoms pbc_default Hl Hatoms)
    as (r & Hr & Hsp & _).
  exists r. split; [done |]. split; [by eexists _, _, _, _ |].
  rewrite Hsp. apply length_mapM in Hatoms. lia.
Qed.

Lemma fmap_omap_lookup {A B} (f : A -> B) (l : list A) (g : Z -> nat) (idx : list Z) :
  f <$> omap (fun i => l !! g i) idx = omap (fun i => (f <$> l) !! g i) idx.
Proof.
  induction idx as [| i idx IH]; [done |].
  cbn. rewrite list_lookup_fmap. destruct (l !! g i); cbn; by rewrite IH.
Qed.

(** X8.  [slice_with_species(species, which)] is [with_species] followed by
    indexing with [which]: for pairwise different in-range indices and
    symbols that fit the symbol array and are known species, it returns a
    structure with exactly [len(which)] sites whose symbols are the given
    symbols, in the order of [which], on the lattice of [s]. *)
Theorem slice_with_species_sites (s : Structure) (new_species : list string)
    (which : list Z) :
  wf s ->
  which <> [] ->
  length new_species = length which ->
  Forall (fun i => - Z.of_nat (num_atoms s) <= i < Z.of_nat (num_atoms s)) which ->
  NoDup (wrap (num_atoms s) <$> which) ->
  Forall (fun x => (String.length x <= itemsize (symbols s))%nat /\ is_Some (ordinal x))
         new_species ->
  exists s',
    slice_with_species s new_species (WhichList which) = Ok (GotStructure s') /\
    num_atoms s' = length which /\
    symbol <$> species s' = new_species /\
    tolist (symbols s') = new_species /\
    lattice s' = lattice s.
Proof.
  intros Hwf Hne Heq Hin Hnd Hgood.
  assert (Hin' : Forall (fun i => in_range (num_atoms s) i = true) which).
  { eapply Forall_impl; [exact Hin |]. intros i Hi. by apply in_range_spec. }
  assert (Hfit : Forall (fun x => (String.length x <= itemsize (symbols s))%nat) new_species).
  { eapply Forall_impl; [exact Hgood |]. by intros x [? _]. }
  assert (Hknown : Forall (fun x => is_Some (ordinal (fit (itemsize (symbols s)) x)))
                          new_species).
  { eapply Forall_impl; [exact Hgood |]. intros x [Hx1 Hx2]. by rewrite fit_id. }
  destruct (with_species_returns s new_species which Hwf Hne Heq Hin' Hknown)
    as (r & Hr & Hwfr & Hnr).
  pose proof (with_species_readback s r new_species which Hwf Hfit Hnd Hr) as Hback.
  rewrite <- Hnr in Hin'.
  destruct (getitem_array r which Hwfr Hin')
    as (s' & Hs' & Hwf' & Hlat & _ & Hn & _ & _ & Hsp & _).
  exists s'.
  assert (Hsyms : symbol <$> species s' = new_species).
  { rewrite Hsp, fmap_omap_lookup.
    destruct (wf_inv r Hwfr) as (_ & Hitems & _).
    apply take_omap in Hback. rewrite Hitems, length_fmap in Hback.
    by rewrite Hback. }
  split; [| split; [done | split; [done | split]]].
  - unfold slice_with_species. destruct which as [| w0 w]; [done |].
    cbn [which_or_range bind]. rewrite Hr. cbn [bind].
    rewrite getitem_list_as_array; [exact Hs' | done |].
    by apply in_range_int_dtype.
  - rewrite (wf_symbols s' Hwf'). unfold tolist. cbn [array items]. exact Hsyms.
  - rewrite Hlat. apply with_species_inv in Hr as (_ & _ & a & _ & Hinit).
    by apply init_inv in Hinit as (_ & _ & Hl & _).
Qed.

(** X9.  With [which] left at its default [None], or given as an empty
    list, [with_species] and [slice_with_species] raise [TypeError] whatever
    the structure and the symbols are: [which or tuple(range)] calls [tuple]
    on the type [range]. *)
Theorem which_default_raises (s : Structure) (new_species : list string) :
  (exists msg, with_species s new_species WhichNone = Raise (TypeError msg)) /\
  (exists msg, with_species s new_species (WhichList []) = Raise (TypeError msg)) /\
  (exists msg, slice_with_species s new_species WhichNone = Raise (TypeError msg)) /\
  (exists msg, slice_with_species s new_species (WhichList []) = Raise (TypeError msg)).
Proof. repeat split; by eexists. Qed.

(** X10.  The dictionary of [to_dict] holds what the constructor needs to
    build the structure again: called with its lattice, coordinates and
    species it returns a structure with the same lattice, species, symbols,
    ordinal numbers and unique species.  The flags are not in the dictionary,
    so the rebuilt structure has the default ones, and coordinates as the
    constructor stores them under these. *)
Theorem to_dict_rebuilds (s : Structure) :
  wf s ->
  exists s',
    init (dict_lattice (to_dict s)) (dict_coords (to_dict s))
         (dict_species (to_dict s)) pbc_default = Ok s' /\
    lattice s' = lattice s /\
    species s' = species s /\
    symbols s' = symbols s /\
    numbers s' = numbers s /\
    unique_species s' = unique_species s /\
    pbc s' = pbc_default /\
    frac_coords s' = canonical pbc_default <$> frac_coords s.
Proof.
  intros Hwf. unfold to_dict, tolist. cbn [dict_lattice dict_coords dict_species].
  destruct (wf_inv s Hwf) as (Hlen & Hitems & _ & Hknown & Hnum).
  rewrite Hitems.
  destruct (init_Ok_species (lattice s) (frac_coords s) (symbol <$> species s)
              (species s) pbc_default) as (s' & Hs' & Hsp & Hlat & Hpbc & Hfc & Hsym & Hn);
    [by rewrite length_fmap | done |].
  exists s'. split; [done |].
  assert (Hwf' : wf s') by (by eexists _, _, _, _).
  unfold numbers, unique_species.
  rewrite (wf_unique s Hwf), (wf_unique s' Hwf'), (wf_symbols s Hwf), Hsym, Hn, Hnum, Hsp.
  done.
Qed.

End Facts.
End StructureFacts.

(** ** More on the [parameter] decorator and on [construct_settings] *)

Module SettingsMoreFacts.
Import Functional Settings SettingsFacts.

(** X11.  When the reader's key is absent the body of the reader is not
    run: the outcome is the same for every body.  A parameter that is not
    required gives [None], a required one without default raises
    [BadSettings] tagged with the name, and a plain default is returned; in
    these three cases the settings are left as they are.  A callable default
    is called with the settings object: the wrapper returns or raises what
    the callable does, and the settings are as the callable leaves them. *)
Theorem parameter_absent_key {V : Type} (py_None : V) (n : string)
    (default : Default V) (required : Required) (key : option Key)
    (f g : Reader V) (settings : gmap string V) :
  contains settings (key_or_name n key) = false ->
  parameter py_None n default required key f settings
    = parameter py_None n default required key g settings /\
  (truth required = false ->
     parameter py_None n default required key f settings = (settings, Ok py_None)) /\
  (truth required = true -> default = NoDefault ->
     exists msg, parameter py_None n default required key f settings
                 = (settings, Raise (BadSettings msg (Some n)))) /\
  (truth required = true -> forall v, default = DefaultValue v ->
     parameter py_None n default required key f settings = (settings, Ok v)) /\
  (truth required = true -> forall d, default = DefaultCall d ->
     parameter py_None n default required key f settings = d settings).
Proof.
  intros Hin. unfold parameter, get_key, get_required. rewrite Hin. cbn [negb].
  split; [done |].
  destruct (truth required).
  - split; [discriminate |]. split; [| split].
    + intros _ ->. by eexists.
    + by intros _ v ->.
    + by intros _ d ->.
  - split; [done |]. by repeat split.
Qed.

Section Facts.
Context {E : Env}.

(** The dictionary after all overloads are applied. *)
Lemma overload_all_present (overloads : list (string * V)) :
  forall (h : gmap nat (gmap string V)) (b : nat) (d : gmap string V),
    h !! b = Some d ->
    NoDup overloads.*1 ->
    Forall (fun kv => is_Some (d !! kv.1)) overloads ->
    overload h b overloads = (<[b := list_to_map overloads ∪ d]> h, Ok tt).
Proof.
  induction overloads as [| [key value] rest IH]; intros h b d Hb Hnd Hall; simpl.
  - rewrite (left_id_L ∅ (∪)). by rewrite insert_id.
  - rewrite (lookup_total_correct h b d Hb).
    apply Forall_cons in Hall as [Hk Hall]. simpl in Hk.
    rewrite bool_decide_true by done.
    apply NoDup_cons in Hnd as [Hnotin Hnd].
    rewrite (IH _ b (<[key := value]> d)); [| apply lookup_insert_eq | done |].
    + rewrite insert_insert_eq. f_equal. f_equal.
      change (list_to_map ((key, value) :: rest))
        with (<[key := value]> (list_to_map rest : gmap string V)).
      rewrite <- insert_union_l. rewrite insert_union_r; [done |].
      apply not_elem_of_list_to_map_1. exact Hnotin.
    + eapply Forall_impl; [exact Hall |]. intros [k v] Hs. simpl in *.
      destruct (decide (key = k)) as [-> | Hne];
        [by rewrite lookup_insert_eq | by rewrite lookup_insert_ne].
Qed.

(** The loop stops at the first key that is missing. *)
Lemma overload_first_missing (overloads : list (string * V)) :
  forall (h h' : gmap nat (gmap string V)) (b : nat) (d : gmap string V) (k : string),
    h !! b = Some d ->
    overload h b overloads = (h', Raise (KeyError k)) ->
    exists pre v post,
      overloads = (pre ++ (k, v) :: post)%list /\
      Forall (fun kv => is_Some (d !! kv.1)) pre /\
      d !! k = None.
Proof.
  induction overloads as [| [key value] rest IH]; intros h h' b d k Hb; simpl.
  - intros [=].
  - rewrite (lookup_total_correct h b d Hb). case_bool_decide as Hk.
    + intros Hov.
      destruct (IH _ _ b (<[key := value]> d) k (lookup_insert_eq _ _ _) Hov)
        as (pre & v & post & -> & Hpre & Hnone).
      exists ((key, value) :: pre), v, post. split; [done |].
      assert (Hne : key <> k) by (intros ->; by rewrite lookup_insert_eq in Hnone).
      split; [| by rewrite lookup_insert_ne in Hnone].
      constructor; [done |].
      eapply Forall_impl; [exact Hpre |]. intros [k' v'] Hs. simpl in *.
      destruct (decide (key = k')) as [-> | Hne']; [done |].
      by rewrite lookup_insert_ne in Hs.
    + intros [= <- <-]. exists [], value, rest. split; [done |].
      split; [constructor | by apply eq_None_not_Some].
Qed.

(** X12.  The [KeyError] of [construct_settings] names the first overload,
    in the order of the keyword arguments, whose key the settings lack:
    every overload before it has a key of the settings. *)
Theorem construct_settings_first_missing
    (h : gmap nat (gmap string V)) (a : nat) (d : gmap string V)
    (process : bool) (overloads : list (string * V)) (k : string) :
  h !! a = Some d ->
  (construct_settings h a process overloads).2 = Raise (KeyError k) ->
  exists pre v post,
    overloads = (pre ++ (k, v) :: post)%list /\
    Forall (fun kv => is_Some (d !! kv.1)) pre /\
    d !! k = None.
Proof.
  intros Ha. unfold construct_settings, alloc.
  rewrite (lookup_total_correct h a d Ha).
  destruct (overload _ _ overloads) as [h2 [u | e]] eqn:Hov.
  - destruct process.
    + destruct (process_settings _) as [d' [[msg p] | processed]]; simpl;
        [discriminate |]. intros Hk. by apply build_no_KeyError in Hk.
    + simpl. intros Hk. by apply build_no_KeyError in Hk.
  - simpl. intros [= ->].
    eapply overload_first_missing; [| exact Hov]. apply lookup_insert_eq.
Qed.

(** X13.  When every overload key is a key of the settings,
    [construct_settings] builds the [IterationSettings] from the settings
    with the overloads written over them: without processing from exactly
    that dictionary, and with processing from what [process_settings] makes
    of it, or it passes on the validation error of [process_settings]. *)
Theorem construct_settings_overloaded
    (h : gmap nat (gmap string V)) (a : nat) (d : gmap string V)
    (process : bool) (overloads : list (string * V)) :
  h !! a = Some d ->
  NoDup overloads.*1 ->
  Forall (fun kv => is_Some (d !! kv.1)) overloads ->
  (construct_settings h a process overloads).2 =
    if process then
      match (process_settings (list_to_map overloads ∪ d)).2 with
      | inl (msg, p) => Raise (BadSettings msg p)
      | inr processed => build processed
      end
    else build (list_to_map overloads ∪ d).
Proof.
  intros Ha Hnd Hall. unfold construct_settings, alloc.
  rewrite (lookup_total_correct h a d Ha).
  rewrite (overload_all_present overloads _ _ d (lookup_insert_eq _ _ _) Hnd Hall).
  rewrite lookup_total_insert_eq.
  destruct process; [| done].
  destruct (process_settings _) as [d' [[msg p] | processed]]; done.
Qed.

(** X14.  The call of [IterationSettings] in [construct_settings].  Without
    [process] and without overloads the outcome of [construct_settings] is
    that of the call on the caller's settings.  The call returns exactly
    when the settings hold all eleven entries, [dict()] and [list()] accept
    [shell_weights], [shell_distances] and [threads_per_rank], and the
    constructor accepts the arguments; every field of the result is then the
    entry of the same name, converted where the call converts it.  An
    [AttributeError] names an entry that is missing. *)
Theorem build_needs_all_entries
    (h : gmap nat (gmap string V)) (a : nat) (d : gmap string V) :
  h !! a = Some d ->
  (construct_settings h a false []).2 = build d /\
  (forall r, build d = Ok r <->
     d !! "structure" = Some (structure r) /\
     d !! "target_objective" = Some (target_objective r) /\
     d !! "pair_weights" = Some (pair_weights r) /\
     (exists v, d !! "shell_weights" = Some v /\ as_dict v = Some (shell_weights r)) /\
     d !! "iterations" = Some (iterations r) /\
     d !! "max_output_configurations" = Some (max_output_configurations r) /\
     (exists v, d !! "shell_distances" = Some v /\
                as_list v = Some (shell_distances r)) /\
     (exists v, d !! "threads_per_rank" = Some v /\
                as_list v = Some (threads_per_rank r)) /\
     d !! "atol" = Some (atol r) /\
     d !! "rtol" = Some (rtol r) /\
     d !! "mode" = Some (mode r) /\
     accepts [structure r; target_objective r; pair_weights r; shell_weights r;
              iterations r; max_output_configurations r; shell_distances r;
              threads_per_rank r; atol r; rtol r; mode r] = true) /\
  (forall name, build d = Raise (AttributeError name) -> d !! name = None).
Proof.
  intros Ha. split; [| split].
  - unfold construct_settings, alloc. cbn [overload].
    rewrite (lookup_total_correct _ _ _ Ha). by rewrite lookup_total_insert_eq.
  - intros r. split.
    + unfold build, getattr, convert, bind.
      repeat (case_match; simplify_eq; try discriminate).
      intros [= <-]. cbn. repeat split; try done; by eexists.
    + intros (H1 & H2 & H3 & (v4 & H4 & C4) & H5 & H6 & (v7 & H7 & C7)
              & (v8 & H8 & C8) & H9 & H10 & H11 & Hacc).
      unfold build, getattr, convert.
      rewrite H1, H2, H3, H4, H5, H6, H7, H8, H9, H10, H11. cbn [bind].
      rewrite C4, C7, C8. cbn [bind]. rewrite Hacc. by destruct r.
  - intros name. unfold build, getattr, convert, bind.
    repeat (case_match; simplify_eq; try discriminate); by intros [= <-].
Qed.

End Facts.
End SettingsMoreFacts.

(** ** More on [expand_results] *)

Module RunMoreFacts.
Import Np NpFacts Structure WithSpeciesFacts IndexingFacts Run RunFacts.

(** Reading back through the index array what was written through it. *)
Lemma take_scatter {A} (l vals : list A) (idx : list Z) :
  Forall (fun i => in_range (length l) i = true) idx ->
  NoDup (wrap (length l) <$> idx) ->
  length vals = length idx ->
  take (scatter l (wrap (length l) <$> idx) vals) idx = Ok vals.
Proof.
  intros Hin Hnd Hlen. unfold take. rewrite length_scatter.
  rewrite (check_indices_Ok _ _ Hin). cbn [bind].
  assert (Hm : mapM (fun j => scatter l (wrap (length l) <$> idx) vals !! j)
                    (wrap (length l) <$> idx) = Some vals).
  { apply mapM_Some, Forall2_same_length_lookup_2; [by rewrite length_fmap |].
    intros k j v Hj Hv. eapply scatter_readback; eauto.
    apply Forall_fmap. eapply Forall_impl; [exact Hin |].
    intros i Hi. simpl. by apply wrap_lt. }
  by rewrite Hm.
Qed.

Lemma fit_all (w : nat) (conf : list string) :
  Forall (fun x => (String.length x <= w)%nat) conf -> fit w <$> conf = conf.
Proof.
  induction 1 as [| x xs Hx _ IH]; [done |].
  by rewrite fmap_cons, IH, fit_id.
Qed.

Section Facts.
Context {X : Extension}.

(** The loop keeps the ranks and their order. *)
Lemma expand_items_ranks (lat : Lattice) (rows : list Row) (which : option (list Z))
    (confs : list (Z * Conf)) :
  forall (parent parent' : str_array) (out : list (Z * Structure)),
    expand_items lat rows which parent confs = (parent', Ok out) ->
    out.*1 = confs.*1.
Proof.
  induction confs as [| [rank c] rest IH]; intros parent parent' out;
    cbn [expand_items].
  - by intros [= <- <-].
  - destruct (configuration_of c) as [conf |]; [| discriminate].
    destruct (new_species which parent conf) as [parent1 [sp |]]; [| discriminate].
    destruct (init lat rows sp pbc_default) as [st |]; [| discriminate].
    destruct (expand_items lat rows which parent1 rest)
      as [parent2 [r |]] eqn:Hrest; [| discriminate].
    intros [= <- <-]. cbn. f_equal. by eapply IH.
Qed.

(** X15.  When [expand_results] returns, it returns one structure for each
    entry of [configurations], under the same rank and in the same order. *)
Theorem expand_results_ranks (dense : Document) (confs : list (Z * Conf))
    (p : option Structure) (out : list (Z * Structure)) :
  doc_configurations dense = Some confs ->
  expand_results dense = (p, Ok out) ->
  out.*1 = confs.*1 /\ length out = length confs.
Proof.
  intros Hc. unfold expand_results.
  destruct (doc_structure dense) as [s |]; [| discriminate]. rewrite Hc.
  destruct (expand_items _ _ _ _ confs) as [a r] eqn:Hex.
  intros [= <- ->]. apply expand_items_ranks in Hex.
  split; [done |]. apply (f_equal length) in Hex. by rewrite !length_fmap in Hex.
Qed.

Lemma expand_items_plain (lat : Lattice) (rows : list Row) (confs : list (Z * Conf)) :
  forall (parent parent' : str_array) (out : list (Z * Structure)),
    expand_items lat rows None parent confs = (parent', Ok out) ->
    parent' = parent /\
    Forall2 (fun rc rs => rs.1 = rc.1 /\
                          lattice rs.2 = lat /\
                          configuration_of rc.2 = Ok (tolist (symbols rs.2)))
            confs out.
Proof.
  induction confs as [| [rank c] rest IH]; intros parent parent' out;
    cbn [expand_items].
  - intros [= <- <-]. by split.
  - destruct (configuration_of c) as [conf |] eqn:Hconf; [| discriminate].
    cbn [new_species].
    destruct (init lat rows conf pbc_default) as [st |] eqn:Hinit; [| discriminate].
    destruct (expand_items lat rows None parent rest)
      as [parent2 [r |]] eqn:Hrest; [| discriminate].
    intros [= <- <-]. destruct (IH _ _ _ Hrest) as [-> HF].
    split; [done |]. constructor; [| done]. cbn.
    apply init_inv in Hinit as (_ & Hm & Hlat & _ & _ & Hsym & _).
    apply mapM_find_atom_symbols in Hm as [Hm _].
    unfold symbols, tolist. rewrite Hsym. cbn [array items]. by rewrite Hm.
Qed.

(** X16.  For a document without [which], every structure that
    [expand_results] returns spells the configuration stored under its rank
    on the lattice of the parent, and the parent structure is left as it
    was. *)
Theorem expand_results_without_which (dense : Document) (s : Structure)
    (confs : list (Z * Conf)) (p : option Structure) (out : list (Z * Structure)) :
  doc_structure dense = Some s ->
  doc_configurations dense = Some confs ->
  doc_which dense = None ->
  expand_results dense = (p, Ok out) ->
  p = Some s /\
  Forall2 (fun rc rs => rs.1 = rc.1 /\
                        lattice rs.2 = lattice s /\
                        configuration_of rc.2 = Ok (tolist (symbols rs.2)))
          confs out.
Proof.
  intros Hs Hc Hw. unfold expand_results. rewrite Hs, Hc, Hw.
  destruct (expand_items _ _ _ _ confs) as [a r] eqn:Hex.
  intros [= <- ->]. apply expand_items_plain in Hex as [-> HF].
  split; [| done]. f_equal. by destruct s.
Qed.

Lemma expand_items_sublattice (lat : Lattice) (rows : list Row) (which : list Z)
    (w n : nat) (confs : list (Z * Conf)) :
  NoDup (wrap n <$> which) ->
  forall (parent parent' : str_array) (out : list (Z * Structure)),
    itemsize parent = w -> length (items parent) = n ->
    expand_items lat rows (Some which) parent confs = (parent', Ok out) ->
    Forall2 (fun rc rs =>
               rs.1 = rc.1 /\
               forall conf, configuration_of rc.2 = Ok conf ->
                            length conf = length which ->
                            Forall (fun x => (String.length x <= w)%nat) conf ->
                            take (items (symbols rs.2)) which = Ok conf)
            confs out.
Proof.
  intros Hnd.
  induction confs as [| [rank c] rest IH]; intros parent parent' out Hw Hn;
    cbn [expand_items].
  - intros [= <- <-]. constructor.
  - destruct (configuration_of c) as [conf |] eqn:Hconf; [| discriminate].
    unfold new_species.
    destruct (forallb int64 which); [| discriminate].
    destruct (setitem parent which conf) as [parent1 |] eqn:Hset;
      unfold tolist; [| discriminate].
    destruct (init lat rows (items parent1) pbc_default) as [st |] eqn:Hinit;
      [| discriminate].
    destruct (expand_items lat rows (Some which) parent1 rest)
      as [parent2 [r |]] eqn:Hrest; [| discriminate].
    intros [= <- <-].
    destruct (setitem_inv _ _ _ _ Hset) as (vs & Hsize & Hitems).
    assert (Hn1 : length (items parent1) = n) by (by rewrite Hitems, length_scatter).
    constructor; [| apply (IH parent1 parent2 r); [congruence | done | done]].
    split; [done |]. cbn [snd]. intros conf' Hc' Hlen Hfits.
    assert (conf' = conf) by congruence. subst conf'.
    apply init_inv in Hinit as (_ & Hm & _ & _ & _ & Hsym & _).
    apply mapM_find_atom_symbols in Hm as [Hm _].
    unfold symbols. rewrite Hsym. cbn [array items]. rewrite Hm.
    assert (Hin : Forall (fun i => in_range (length (items parent)) i = true) which).
    { unfold setitem in Hset.
      destruct (check_indices (length (items parent)) which) as [js |] eqn:Hci;
        [| discriminate].
      by apply check_indices_inv in Hci as [Hin _]. }
    rewrite (setitem_same_length _ _ _ Hlen Hin) in Hset. injection Hset as <-.
    cbn [items]. rewrite Hw, (fit_all _ _ Hfits).
    apply take_scatter; [done | by rewrite Hn | done].
Qed.

(** X17.  For a document with [which] whose indices address pairwise
    different sites: every structure that [expand_results] returns carries,
    on the sites of [which] and in their order, the configuration stored
    under its rank, provided the configuration has as many symbols as
    [which] has indices and each symbol fits the cells of the parent's
    symbol array.  This holds for each rank although all configurations are
    written into the same array, one after the other. *)
Theorem expand_results_on_sublattice (dense : Document) (s : Structure)
    (which : list Z) (confs : list (Z * Conf)) (p : option Structure)
    (out : list (Z * Structure)) :
  doc_structure dense = Some s ->
  doc_configurations dense = Some confs ->
  doc_which dense = Some which ->
  NoDup (wrap (length (items (symbols s))) <$> which) ->
  expand_results dense = (p, Ok out) ->
  Forall2 (fun rc rs =>
             rs.1 = rc.1 /\
             forall conf, configuration_of rc.2 = Ok conf ->
                          length conf = length which ->
                          Forall (fun x => (String.length x <= itemsize (symbols s))%nat)
                                 conf ->
                          take (items (symbols rs.2)) which = Ok conf)
          confs out.
Proof.
  intros Hs Hc Hw Hnd. unfold expand_results. rewrite Hs, Hc, Hw.
  destruct (expand_items _ _ _ _ confs) as [a r] eqn:Hex.
  intros [= <- ->].
  by eapply (expand_items_sublattice _ _ which _ _ confs Hnd (symbols s)).
Qed.

(** Whatever the outcome, the loop changes the parent's array on the sites
    of [which] at most, and not its cell width. *)
Lemma expand_items_parent (lat : Lattice) (rows : list Row) (which : list Z)
    (confs : list (Z * Conf)) :
  forall (parent parent' : str_array) (r : result (list (Z * Structure))),
    expand_items lat rows (Some which) parent confs = (parent', r) ->
    agree_outside which parent' parent /\ itemsize parent' = itemsize parent.
Proof.
  induction confs as [| [rank c] rest IH]; intros parent parent' r;
    cbn [expand_items].
  - intros [= <- <-]. split; [apply agree_outside_refl | done].
  - destruct (configuration_of c) as [conf |];
      [| intros [= <- <-]; split; [apply agree_outside_refl | done]].
    unfold new_species.
    destruct (forallb int64 which);
      [| intros [= <- <-]; split; [apply agree_outside_refl | done]].
    destruct (setitem parent which conf) as [parent1 |] eqn:Hset;
      [| intros [= <- <-]; split; [apply agree_outside_refl | done]].
    pose proof (setitem_agree_outside _ _ _ _ Hset) as H1.
    destruct (setitem_inv _ _ _ _ Hset) as (vs & Hsize & _).
    destruct (init lat rows (tolist parent1) pbc_default) as [st |];
      [| by intros [= <- <-]].
    destruct (expand_items lat rows (Some which) parent1 rest)
      as [parent2 r2] eqn:Hrest.
    destruct (IH _ _ _ Hrest) as [H2 Hs2].
    assert (agree_outside which parent2 parent) by (by eapply agree_outside_trans).
    destruct r2; intros [= <- <-]; (split; [done | congruence]).
Qed.

(** X18.  [expand_results] writes into the parent structure it is given,
    and into nothing but its symbol array: whatever the outcome, the
    parent's lattice, coordinates, species, flags and ordinal numbers are
    what they were, the symbol array keeps its length and cell width, and it
    keeps its entries on every site that [which] does not address.  Without
    [which] the symbol array is untouched as well. *)
Theorem expand_results_parent (dense : Document) (s p : Structure)
    (r : result (list (Z * Structure))) :
  doc_structure dense = Some s ->
  expand_results dense = (Some p, r) ->
  lattice p = lattice s /\ frac_coords p = frac_coords s /\
  species p = species s /\ pbc p = pbc s /\ numbers p = numbers s /\
  unique_species p = unique_species s /\
  itemsize (symbols p) = itemsize (symbols s) /\
  match doc_which dense with
  | Some which => agree_outside which (symbols p) (symbols s)
  | None => symbols p = symbols s
  end.
Proof.
  intros Hs. unfold expand_results. rewrite Hs.
  destruct (doc_configurations dense) as [confs |].
  2: { intros [= <- <-]. repeat (split; [reflexivity |]).
       destruct (doc_which dense); [apply agree_outside_refl | done]. }
  destruct (expand_items _ _ _ _ confs) as [a r'] eqn:Hex.
  intros [= <- <-]. cbn.
  destruct (doc_which dense) as [which |].
  - apply expand_items_parent in Hex as [Hag Hsize].
    repeat (split; [reflexivity |]). split; [exact Hsize | exact Hag].
  - assert (a = symbols s).
    { clear -Hex. revert Hex. generalize (symbols s). revert a r'.
      induction confs as [| [rank c] rest IH]; intros a r' parent;
        cbn [expand_items new_species].
      - by intros [= <- _].
      - destruct (configuration_of c); [| by intros [= <- _]].
        destruct (init _ _ _ _); [| by intros [= <- _]].
        destruct (expand_items _ _ None parent rest) as [p2 r2] eqn:Hr.
        apply IH in Hr. destruct r2; intros [= <- _]; done. }
    subst a. repeat (split; [reflexivity |]). reflexivity.
Qed.

End Facts.
End RunMoreFacts.

(** ** [make_result_document] and what [expand_results] reads from it *)

Module DocumentFacts.
Import Structure Run.

Ltac in_list := repeat first [apply list_elem_of_here | apply list_elem_of_further].
Ltac cases_in H :=
  repeat (apply elem_of_cons in H as [H | H]); [.. | by apply elem_of_nil in H].
Section Facts.
Context {X : Extension} {R : Results}.

Lemma allowed_field_known (settings : RunSettings) (f : string) (r : SQSResult) :
  f ∈ ["configuration"; "objective"; "parameters"] ->
  (f = "parameters" -> is_Some (settings_shape settings)) ->
  exists v, allowed_field settings f r = Ok v /\
            (f = "configuration" ->
             v = VConfiguration (symbols_from_z (configuration r))).
Proof.
  intros Hf Hshape. unfold allowed_field.
  apply elem_of_cons in Hf as [-> | Hf]; [cbn; by eexists |].
  apply elem_of_cons in Hf as [-> | Hf]; [cbn; by eexists |].
  apply list_elem_of_singleton in Hf as ->. cbn.
  destruct (Hshape eq_refl) as [shape ->]. by eexists.
Qed.

Lemma allowed_field_unknown (settings : RunSettings) (f : string) (r : SQSResult) :
  f ∉ ["configuration"; "objective"; "parameters"] ->
  allowed_field settings f r = Raise (KeyError f).
Proof.
  intros Hf. unfold allowed_field.
  destruct (String.eqb_spec f "configuration") as [-> | _];
    [exfalso; apply Hf; in_list |].
  destruct (String.eqb_spec f "objective") as [-> | _];
    [exfalso; apply Hf; in_list |].
  destruct (String.eqb_spec f "parameters") as [-> | _];
    [exfalso; apply Hf; in_list |].
  done.
Qed.

(** The comprehension over the fields, when every field is known. *)
Lemma field_dict_known (settings : RunSettings) (fields : list string) (r : SQSResult) :
  Forall (fun f => f ∈ ["configuration"; "objective"; "parameters"]) fields ->
  ("parameters" ∈ fields -> is_Some (settings_shape settings)) ->
  forall d : gmap string FieldValue,
    "configuration" ∈ fields \/
    d !! "configuration" = Some (VConfiguration (symbols_from_z (configuration r))) ->
    exists d', field_dict settings fields r d = Ok d' /\
               d' !! "configuration"
               = Some (VConfiguration (symbols_from_z (configuration r))).
Proof.
  induction 1 as [| f fields Hf _ IH]; intros Hshape d Hc; cbn [field_dict].
  - destruct Hc as [Hc | Hc]; [by apply elem_of_nil in Hc | by exists d].
  - destruct (allowed_field_known settings f r Hf) as (v & -> & Hv).
    { intros ->. apply Hshape. left. }
    cbn [bind]. apply IH.
    + intros H. apply Hshape. by right.
    + destruct (decide (f = "configuration")) as [-> | Hne].
      * right. rewrite (Hv eq_refl). apply lookup_insert_eq.
      * destruct Hc as [Hc | Hc].
        -- apply elem_of_cons in Hc as [Hc | Hc]; [congruence | by left].
        -- right. by rewrite lookup_insert_ne.
Qed.

(** The comprehension stops at the first field that is not a key of
    [allowed_fields]. *)
Lemma field_dict_unknown (settings : RunSettings) (pre post : list string)
    (f : string) (r : SQSResult) :
  Forall (fun f => f ∈ ["configuration"; "objective"; "parameters"]) pre ->
  ("parameters" ∈ pre -> is_Some (settings_shape settings)) ->
  f ∉ ["configuration"; "objective"; "parameters"] ->
  forall d : gmap string FieldValue,
    field_dict settings (pre ++ f :: post) r d = Raise (KeyError f).
Proof.
  induction 1 as [| g pre Hg _ IH]; intros Hshape Hf d; cbn [field_dict app].
  - by rewrite allowed_field_unknown.
  - destruct (allowed_field_known settings g r Hg) as (v & -> & _).
    { intros ->. apply Hshape. left. }
    cbn [bind]. apply IH; [| done]. intros H. apply Hshape. by right.
Qed.

Lemma make_sqs_result_document_known (settings : RunSettings) (fields : list string)
    (r : SQSResult) :
  Forall (fun f => f ∈ ["configuration"; "objective"; "parameters"]) fields ->
  ("parameters" ∈ fields -> is_Some (settings_shape settings)) ->
  "configuration" ∈ fields ->
  exists e c, make_sqs_result_document settings fields r = Ok e /\
              as_conf e = Some c /\
              configuration_of c = Ok (symbols_from_z (configuration r)).
Proof.
  intros Hknown Hshape Hc.
  assert (Hd : exists d', field_dict settings fields r ∅ = Ok d' /\
                          d' !! "configuration"
                          = Some (VConfiguration (symbols_from_z (configuration r))))
    by (apply field_dict_known; auto).
  destruct Hd as (d' & Hd & Hlook).
  unfold make_sqs_result_document.
  destruct fields as [| key [| key2 rest]].
  - by apply elem_of_nil in Hc.
  - apply list_elem_of_singleton in Hc. subst key. cbn.
    eexists _, _. split; [done |]. by split.
  - rewrite Hd. cbn [bind]. eexists _, _. split; [done |].
    cbn [as_conf]. rewrite Hlook. by split.
Qed.

Lemma make_sqs_result_document_many (settings : RunSettings) (fields : list string)
    (r : SQSResult) :
  length fields <> 1%nat ->
  make_sqs_result_document settings fields r
  = let! d := field_dict settings fields r ∅ in Ok (Fields d).
Proof. by destruct fields as [| a [| b l]]. Qed.

Lemma dict_set_new {A} (d : list (Z * A)) (k : Z) (v : A) :
  k ∉ d.*1 -> dict_set d k v = (d ++ [(k, v)])%list.
Proof.
  induction d as [| [k' v'] d IH]; intros Hk; [done |].
  cbn [dict_set]. rewrite fmap_cons in Hk. cbn in Hk.
  apply not_elem_of_cons in Hk as [Hne Hk].
  destruct (Z.eqb_spec k' k); [congruence |]. cbn. by rewrite IH.
Qed.

Lemma configurations_dict_known (settings : RunSettings) (fields : list string)
    (results : list SQSResult) :
  Forall (fun f => f ∈ ["configuration"; "objective"; "parameters"]) fields ->
  ("parameters" ∈ fields -> is_Some (settings_shape settings)) ->
  "configuration" ∈ fields ->
  forall d : list (Z * ResultEntry),
    NoDup (d.*1 ++ (rank <$> results))%list ->
    exists es, configurations_dict settings fields results d = Ok (d ++ es)%list /\
               Forall2 (fun r re =>
                          re.1 = rank r /\
                          exists c, as_conf re.2 = Some c /\
                                    configuration_of c
                                    = Ok (symbols_from_z (configuration r)))
                       results es.
Proof.
  intros Hknown Hshape Hc.
  induction results as [| r results IH]; intros d Hnd; cbn [configurations_dict].
  - exists []. by rewrite app_nil_r.
  - destruct (make_sqs_result_document_known settings fields r Hknown Hshape Hc)
      as (e & c & -> & He & Hconf).
    cbn [bind]. rewrite fmap_cons in Hnd.
    assert (Hk : rank r ∉ d.*1).
    { apply NoDup_app in Hnd as (_ & Hdis & _). intros Hin.
      apply (Hdis _ Hin). left. }
    rewrite (dict_set_new _ _ _ Hk).
    destruct (IH (d ++ [(rank r, e)])%list) as (es & Hes & HF).
    { rewrite fmap_app. cbn. rewrite <- app_assoc. exact Hnd. }
    exists ((rank r, e) :: es). rewrite <- app_assoc in Hes. split; [exact Hes |].
    constructor; [| done]. split; [done |]. by exists c.
Qed.

Lemma dump_fields_known (dump_include : list string) :
  Forall (fun f => f ∈ ["parameters"; "objective"]) dump_include ->
  Forall (fun f => f ∈ ["configuration"; "objective"; "parameters"])
         (dump_fields dump_include) /\
  "configuration" ∈ dump_fields dump_include /\
  ("parameters" ∈ dump_fields dump_include -> "parameters" ∈ dump_include).
Proof.
  intros H. unfold dump_fields. case_bool_decide as Hc.
  - split; [| by split]. eapply Forall_impl; [exact H |]. intros f Hf.
    cases_in Hf; subst f; in_list.
  - split; [| split].
    + apply Forall_app. split.
      * eapply Forall_impl; [exact H |]. intros f Hf. cases_in Hf; subst f; in_list.
      * repeat constructor.
    + apply elem_of_app. right. in_list.
    + intros Hp. apply elem_of_app in Hp as [Hp | Hp]; [done |].
      apply list_elem_of_singleton in Hp. discriminate.
Qed.

(** X19.  The document that [iteration] builds and hands to
    [expand_results]: for results of pairwise different ranks and
    [--dump-include] choices among [parameters] and [objective],
    [make_result_document] returns, and [expand_results] finds in the
    document the structure of the settings (that of the sublattice when
    there is one), [which] exactly when there is a sublattice, and under
    every rank, in the order of the results, the symbols of that result's
    configuration, whether the entry is the bare list or a dictionary of
    fields. *)
Theorem make_result_document_dense (results : list SQSResult)
    (settings : RunSettings) (timings : option Timings)
    (dump_include : list string) (s : Structure) :
  match settings_sublattice settings with
  | Some sub => sub.1 = s
  | None => settings_structure settings = Some s
  end ->
  Forall (fun f => f ∈ ["parameters"; "objective"]) dump_include ->
  ("parameters" ∈ dump_include -> is_Some (settings_shape settings)) ->
  NoDup (rank <$> results) ->
  exists doc confs,
    make_result_document results settings timings (dump_fields dump_include) = Ok doc /\
    document_timings doc = timings /\
    as_dense doc = Some {| doc_structure := Some s;
                           doc_configurations := Some confs;
                           doc_which := snd <$> settings_sublattice settings |} /\
    Forall2 (fun r rc => rc.1 = rank r /\
                         configuration_of rc.2 = Ok (symbols_from_z (configuration r)))
            results confs.
Proof.
  intros Hs Hdi Hshape Hnd.
  destruct (dump_fields_known dump_include Hdi) as (Hknown & Hc & Hp).
  destruct (configurations_dict_known settings (dump_fields dump_include) results
              Hknown (fun H => Hshape (Hp H)) Hc [] Hnd) as (es & Hes & HF).
  unfold make_result_document.
  assert (Hst : match settings_sublattice settings with
                | Some (s0, _) => Ok s0
                | None => match settings_structure settings with
                          | Some s0 => Ok s0
                          | None => Raise (AttributeError "structure")
                          end
                end = Ok s).
  { destruct (settings_sublattice settings) as [[s0 w] |]; [by cbn in Hs; subst |].
    by rewrite Hs. }
  rewrite Hst, Hes. cbn [bind app].
  assert (Hm : exists confs,
             mapM (fun re : Z * ResultEntry => c ← as_conf re.2; Some (re.1, c)) es
               = Some confs /\
             Forall2 (fun r rc => rc.1 = rank r /\
                                  configuration_of rc.2
                                  = Ok (symbols_from_z (configuration r)))
                     results confs).
  { clear -HF. induction HF as [| r re results es (Hr & c & Hc & Hconf) _ IH].
    - by exists [].
    - destruct IH as (confs & Hm & HF').
      exists ((re.1, c) :: confs). split.
      + apply mapM_Some. constructor; [by rewrite Hc | by apply mapM_Some].
      + constructor; [by split | done]. }
  destruct Hm as (confs & Hm & HF').
  eexists _, confs. split; [reflexivity |]. split; [done |].
  unfold as_dense. cbn. rewrite Hm. by split.
Qed.

(** X20.  [--dump-include timings] is a choice the command offers, but
    [timings] is not a key of [allowed_fields]: with at least one result,
    [make_result_document] called with the fields of such a command line
    raises [KeyError('timings')]. *)
Theorem make_result_document_timings (r : SQSResult) (results : list SQSResult)
    (settings : RunSettings) (timings : option Timings)
    (dump_include : list string) :
  is_Some (settings_sublattice settings) \/ is_Some (settings_structure settings) ->
  Forall (fun f => f ∈ ["parameters"; "timings"; "objective"]) dump_include ->
  ("parameters" ∈ dump_include -> is_Some (settings_shape settings)) ->
  "timings" ∈ dump_include ->
  make_result_document (r :: results) settings timings (dump_fields dump_include)
    = Raise (KeyError "timings").
Proof.
  intros Hs Hdi Hshape Ht.
  unfold make_result_document.
  assert (Hst : exists s, match settings_sublattice settings with
                          | Some (s0, _) => Ok s0
                          | None => match settings_structure settings with
                                    | Some s0 => Ok s0
                                    | None => Raise (AttributeError "structure")
                                    end
                          end = Ok s).
  { destruct (settings_sublattice settings) as [[s0 w] |]; [by eexists |].
    destruct Hs as [[? [=]] | [s0 ->]]. by eexists. }
  destruct Hst as [s ->]. cbn [bind configurations_dict].
  apply list_elem_of_split_l in Ht as (pre & post & Hsplit & Hpre).
  assert (Hfields : exists post', dump_fields dump_include
                                  = (pre ++ "timings" :: post')%list
                                  /\ post' <> []).
  { unfold dump_fields. case_bool_decide as Hc.
    - exfalso. rewrite Forall_forall in Hdi. specialize (Hdi _ Hc).
      cases_in Hdi; discriminate.
    - exists (post ++ ["configuration"])%list. rewrite Hsplit, <- app_assoc.
      split; [done |]. by destruct post. }
  destruct Hfields as (post' & Hfields & Hne).
  assert (Hraise : field_dict settings (dump_fields dump_include) r ∅
                   = Raise (KeyError "timings")).
  { rewrite Hfields. apply field_dict_unknown.
    - subst dump_include. apply Forall_app in Hdi as [Hdi _].
      rewrite Forall_forall in Hdi |- *. intros f Hf. specialize (Hdi f Hf).
      assert (f <> "timings") by (intros ->; done).
      cases_in Hdi; subst f; [in_list | done | in_list].
    - intros Hp. apply Hshape. subst dump_include. apply elem_of_app. by left.
    - intros H. cases_in H; discriminate. }
  rewrite make_sqs_result_document_many, Hraise; [done |].
  rewrite Hfields, length_app. destruct post'; [done |]. cbn. lia.
Qed.

End Facts.
End DocumentFacts.

(** ** [make_supercell] *)

Module SupercellFacts.
Import Np Structure WithSpeciesFacts.

Lemma length_bind_const {A B} (f : A -> list B) (k : nat) (l : list A) :
  (forall x, length (f x) = k) -> length (l ≫= f) = (length l * k)%nat.
Proof.
  intros Hf. induction l as [| x l IH]; [done |].
  rewrite bind_cons, length_app, IH, Hf. simpl. lia.
Qed.

Lemma length_range (n : Z) : length (range n) = Z.to_nat n.
Proof. unfold range. by rewrite length_fmap, length_seq. Qed.

(** [itertools.product] of the three ranges has one shift per cell. *)
Lemma length_product3 (sa sb sc : Z) :
  length (product3 sa sb sc)
  = (Z.to_nat sa * (Z.to_nat sb * (Z.to_nat sc * 1)))%nat.
Proof.
  unfold product3.
  rewrite (length_bind_const _ (Z.to_nat sb * (Z.to_nat sc * 1))), length_range;
    [done |].
  intros a. rewrite (length_bind_const _ (Z.to_nat sc * 1)), length_range; [done |].
  intros b. rewrite (length_bind_const _ 1), length_range; [done |]. done.
Qed.

Lemma length_concat_const {A} (n : nat) (blocks : list (list A)) :
  Forall (fun b => length b = n) blocks ->
  length (concat blocks) = (length blocks * n)%nat.
Proof. induction 1 as [| b bs Hb _ IH]; simpl; [done |]. rewrite length_app. lia. Qed.

Lemma mapM_concat_replicate {A B} (f : A -> option B) (l : list A) (a : list B)
    (k : nat) :
  mapM f l = Some a -> mapM f (concat (replicate k l)) = Some (concat (replicate k a)).
Proof.
  rewrite !mapM_Some. intros H. induction k; simpl; [constructor |].
  by apply Forall2_app.
Qed.

Section Facts.
Context {X : Extension} {T : Tiling}.

Lemma make_supercell_positive (s : Structure) (sa sb sc : Z) :
  wf s -> 1 <= sa -> 1 <= sb -> 1 <= sc ->
  exists s',
    make_supercell s sa sb sc = Passed (Ok s') /\
    species s' = concat (replicate (Z.to_nat (sa * sb * sc)) (species s)) /\
    lattice s' = scale_lattice (sa, sb, sc) (lattice s) /\
    pbc s' = (true, true, true) /\
    frac_coords s'
    = canonical (true, true, true)
        <$> concat ((fun shift => translate (sa, sb, sc) shift
                                    <$> (shrink (sa, sb, sc) <$> frac_coords s))
                      <$> product3 sa sb sc).
Proof.
  intros Hwf Ha Hb Hc.
  destruct (wf_inv s Hwf) as (Hlen & Hitems & _ & Hm & _).
  unfold make_supercell.
  destruct (Z.eqb_spec sa 0); [lia |]. destruct (Z.eqb_spec sb 0); [lia |].
  destruct (Z.eqb_spec sc 0); [lia |]. cbn [orb].
  remember ((fun shift => translate (sa, sb, sc) shift
                            <$> (shrink (sa, sb, sc) <$> frac_coords s))
              <$> product3 sa sb sc) as blocks eqn:Hblocks.
  assert (Hpos : 0 < sa * sb * sc) by nia.
  assert (Hbl : length blocks = Z.to_nat (sa * sb * sc)).
  { rewrite Hblocks, length_fmap, length_product3, !Z2Nat.inj_mul by lia. lia. }
  assert (HF : Forall (fun b => length b = length (species s)) blocks).
  { rewrite Hblocks. apply Forall_fmap, Forall_forall. intros shift _. simpl.
    by rewrite !length_fmap. }
  assert (Hcoords : length (concat blocks)
                    = (Z.to_nat (sa * sb * sc) * length (species s))%nat)
    by (by rewrite (length_concat_const _ _ HF), Hbl).
  assert (Hspecies : length (concat (replicate (Z.to_nat (sa * sb * sc))
                                               (tolist (symbols s))))
                     = (Z.to_nat (sa * sb * sc) * length (species s))%nat).
  { rewrite (length_concat_const (length (species s))), length_replicate; [done |].
    apply Forall_forall. intros b Hb'. apply elem_of_replicate in Hb' as [-> _].
    unfold tolist. by rewrite Hitems, length_fmap. }
  assert (Hnum : Z.of_nat (Z.to_nat (sa * sb * sc) * length (species s))
                 = Z.of_nat (num_atoms s) * (sa * sb * sc)).
  { unfold num_atoms. rewrite Nat2Z.inj_mul, Z2Nat.id by lia. lia. }
  destruct blocks as [| b bs]; [simpl in Hbl; lia |].
  unfold len. rewrite Hcoords, Hspecies, Hnum, Z.eqb_refl. cbn [negb].
  destruct (init_Ok_species (scale_lattice (sa, sb, sc) (lattice s))
              (concat (b :: bs))
              (concat (replicate (Z.to_nat (sa * sb * sc)) (tolist (symbols s))))
              (concat (replicate (Z.to_nat (sa * sb * sc)) (species s)))
              (true, true, true))
    as (s' & Hs' & Hsp & Hlat & Hpbc & Hfc & _).
  - by rewrite Hcoords, Hspecies.
  - apply mapM_concat_replicate. unfold tolist. by rewrite Hitems.
  - exists s'. by rewrite Hs'.
Qed.

Lemma make_supercell_nonpositive (s : Structure) (sa sb sc : Z) :
  sa <= 0 \/ sb <= 0 \/ sc <= 0 ->
  exists msg, make_supercell s sa sb sc = Passed (Raise (ValueError msg)).
Proof.
  intros H. unfold make_supercell.
  destruct ((sa =? 0) || (sb =? 0) || (sc =? 0)); [by eexists |].
  assert (Hnil : product3 sa sb sc = []).
  { apply length_zero_iff_nil. rewrite length_product3.
    destruct H as [H | [H | H]].
    - assert (Z.to_nat sa = 0%nat) as -> by lia. lia.
    - assert (Z.to_nat sb = 0%nat) as -> by lia. lia.
    - assert (Z.to_nat sc = 0%nat) as -> by lia. lia. }
  rewrite Hnil. cbn. by eexists.
Qed.

(** X21.  For sizes of at least 1, [make_supercell] returns a structure
    with [sa * sb * sc] times the atoms of the cell: its species are the
    species of the cell repeated once per cell, its coordinates the shrunk
    and shifted coordinates of the cell, one block per shift in the order of
    [itertools.product], its lattice the scaled lattice, and it is periodic
    on all axes. *)
Theorem make_supercell_tiles (s : Structure) (sa sb sc : Z) :
  wf s -> 1 <= sa -> 1 <= sb -> 1 <= sc ->
  exists s',
    make_supercell s sa sb sc = Passed (Ok s') /\
    Z.of_nat (num_atoms s') = Z.of_nat (num_atoms s) * (sa * sb * sc) /\
    species s' = concat (replicate (Z.to_nat (sa * sb * sc)) (species s)) /\
    lattice s' = scale_lattice (sa, sb, sc) (lattice s) /\
    pbc s' = (true, true, true) /\
    frac_coords s'
    = canonical (true, true, true)
        <$> concat ((fun shift => translate (sa, sb, sc) shift
                                    <$> (shrink (sa, sb, sc) <$> frac_coords s))
                      <$> product3 sa sb sc).
Proof.
  intros Hwf Ha Hb Hc.
  destruct (make_supercell_positive s sa sb sc Hwf Ha Hb Hc)
    as (s' & Hs' & Hsp & Hrest).
  exists s'. split; [done |]. split; [| by split].
  unfold num_atoms. rewrite Hsp.
  rewrite (length_concat_const (length (species s))), length_replicate.
  - assert (0 < sa * sb * sc) by nia. rewrite Nat2Z.inj_mul, Z2Nat.id by lia. lia.
  - apply Forall_forall. intros b Hb'. by apply elem_of_replicate in Hb' as [-> _].
Qed.

(** X22.  A size that is zero or negative makes [make_supercell] raise
    [ValueError], for every structure: a zero gives a singular scale matrix,
    and a negative size an empty range, so that nothing is left to stack. *)
Theorem make_supercell_rejects (s : Structure) (sa sb sc : Z) :
  sa <= 0 \/ sb <= 0 \/ sc <= 0 ->
  exists msg, make_supercell s sa sb sc = Passed (Raise (ValueError msg)).
Proof. apply make_supercell_nonpositive. Qed.

(** X23.  The two assertions of [make_supercell] hold on every call with a
    structure the constructor has built: whatever the sizes are, the call
    does not end in [AssertionError]. *)
Theorem make_supercell_assertions_hold (s : Structure) (sa sb sc : Z) :
  wf s -> make_supercell s sa sb sc <> AssertionError.
Proof.
  intros Hwf.
  destruct (Z_le_gt_dec sa 0) as [Ha | Ha];
    [destruct (make_supercell_nonpositive s sa sb sc) as [msg ->]; [lia | done] |].
  destruct (Z_le_gt_dec sb 0) as [Hb | Hb];
    [destruct (make_supercell_nonpositive s sa sb sc) as [msg ->]; [lia | done] |].
  destruct (Z_le_gt_dec sc 0) as [Hc | Hc];
    [destruct (make_supercell_nonpositive s sa sb sc) as [msg ->]; [lia | done] |].
  destruct (make_supercell_positive s sa sb sc Hwf) as (s' & -> & _); [lia .. | done].
Qed.

End Facts.
End SupercellFacts.

(** ** The table helpers of [commands/run.py] *)

Module TableFacts.
Import Run.

Lemma transpose_cons {A} (row r : list A) (rest : list (list A)) :
  transpose (row :: r :: rest) = zip_with cons row (transpose (r :: rest)).
Proof. done. Qed.

Lemma transpose_cons_col {A} (M : list (list A)) :
  forall col : list A,
    M <> [] -> length col = length M ->
    transpose (zip_with cons col M) = col :: transpose M.
Proof.
  induction M as [| r M IH]; intros col Hne Hlen; [done |].
  destruct col as [| c col]; [done |].
  destruct M as [| r' M].
  - destruct col; [done | discriminate].
  - destruct col as [| c' col]; [discriminate |].
    change (zip_with cons (c :: c' :: col) (r :: r' :: M))
      with ((c :: r) :: (c' :: r') :: zip_with cons col M).
    rewrite transpose_cons.
    change ((c' :: r') :: zip_with cons col M)
      with (zip_with cons (c' :: col) (r' :: M)).
    rewrite IH; [| done | simpl in *; lia]. by rewrite transpose_cons.
Qed.

(** A table whose rows all have an entry is a column in front of a table. *)
Lemma split_first_col {A} (m : nat) (M : list (list A)) :
  Forall (fun r => length r = S m) M ->
  exists col M', M = zip_with cons col M' /\ length col = length M' /\
                 length M' = length M /\ Forall (fun r => length r = m) M'.
Proof.
  induction 1 as [| r M Hr _ (col & M' & -> & Hl1 & Hl2 & HF)].
  - by exists [], [].
  - destruct r as [| x r]; [discriminate |].
    exists (x :: col), (r :: M'). cbn. repeat split; try congruence.
    constructor; [by injection Hr | done].
Qed.

Lemma transpose_empty_rows {A} (M : list (list A)) :
  M <> [] -> Forall (fun r => length r = 0%nat) M -> transpose M = [].
Proof.
  intros Hne HF. destruct HF as [| r M Hr HF]; [done |].
  apply length_zero_iff_nil in Hr as ->. by destruct M.
Qed.

Lemma zip_with_cons_empty_rows {A} (M : list (list A)) :
  Forall (fun r => length r = 0%nat) M ->
  forall col : list A, length col = length M ->
                       zip_with cons col M = (fun x => [x]) <$> col.
Proof.
  induction 1 as [| r M Hr _ IH]; intros [| c col] Hlen; try done.
  apply length_zero_iff_nil in Hr as ->. cbn. f_equal. apply IH. by injection Hlen.
Qed.

Lemma transpose_rectangular {A} (m : nat) :
  forall M : list (list A),
    M <> [] -> Forall (fun r => length r = S m) M ->
    transpose (transpose M) = M /\ length (transpose M) = S m.
Proof.
  induction m as [| m IH]; intros M Hne HF;
    destruct (split_first_col _ M HF) as (col & M' & -> & Hl1 & Hl2 & HF');
    assert (Hne' : M' <> []) by (intros ->; by destruct col);
    rewrite (transpose_cons_col M' col Hne' Hl1).
  - rewrite (transpose_empty_rows M' Hne' HF'). split; [| done].
    cbn. symmetry. by apply zip_with_cons_empty_rows.
  - destruct (IH M' Hne' HF') as [Hinv Hlen]. split; [| cbn; by rewrite Hlen].
    destruct (transpose M') as [| c cs] eqn:Ht; [discriminate |].
    rewrite transpose_cons. by rewrite Hinv.
Qed.

(** X24.  On a table with at least one row whose rows all have the same
    positive number of entries, [transpose] exchanges rows and columns:
    the result has one row per column, and transposing twice gives the
    table back. *)
Theorem transpose_involutive {A} (m : nat) (M : list (list A)) :
  M <> [] -> (0 < m)%nat -> Forall (fun r => length r = m) M ->
  transpose (transpose M) = M /\ length (transpose M) = m.
Proof.
  intros Hne Hm HF. destruct m as [| m]; [lia |]. by apply transpose_rectangular.
Qed.

(** X25.  On such a table [add_col(l, col)] puts the entries of [col] in
    front of the rows of [l], one entry per row; rows or entries beyond the
    shorter of the two are dropped. *)
Theorem add_col_prepends {A} (m : nat) (l : list (list A)) (col : list A) :
  l <> [] -> (0 < m)%nat -> Forall (fun r => length r = m) l ->
  add_col l col = zip_with cons col l /\
  length (add_col l col) = min (length col) (length l).
Proof.
  intros Hne Hm HF. destruct m as [| m]; [lia |].
  destruct (transpose_rectangular m l Hne HF) as [Hinv Hlen].
  assert (H : add_col l col = zip_with cons col l).
  { unfold add_col. destruct (transpose l) as [| c cs] eqn:Ht; [discriminate |].
    rewrite transpose_cons. by rewrite Hinv. }
  split; [done |]. by rewrite H, length_zip_with.
Qed.

End TableFacts.

(** ** The keys of [utils/optionparser.py] *)

Module OptionparserFacts.
Import Stdlib.Strings.Ascii Optionparser.

Lemma substring_last (key : string) :
  forall c, String.substring (String.length (key ++ ">")%string) 1
                             (String c (key ++ ">")%string) = ">"%string.
Proof.
  induction key as [| a key IH]; intros c; [done |].
  change (String.length (String a key ++ ">")%string)
    with (S (String.length (key ++ ">")%string)).
  change (String a key ++ ">")%string with (String a (key ++ ">")%string).
  cbn [String.substring]. apply IH.
Qed.

Lemma length_append (a c : string) :
  String.length (a ++ c)%string = (String.length a + String.length c)%nat.
Proof.
  induction a as [| x a IH]; [done |].
  change (S (String.length (a ++ c)%string)
          = S (String.length a + String.length c)).
  by rewrite IH.
Qed.

Lemma append_inj_r (a b c : string) : (a ++ c = b ++ c)%string -> a = b.
Proof.
  revert b. induction a as [| x a IH]; intros [| y b] H; [done | | |].
  - exfalso. apply (f_equal String.length) in H.
    rewrite !length_append in H. cbn in H. lia.
  - exfalso. apply (f_equal String.length) in H.
    rewrite !length_append in H. cbn in H. lia.
  - change (String x (a ++ c)%string = String y (b ++ c)%string) in H.
    injection H as -> H. f_equal. by apply IH.
Qed.

(** X26.  The key under which a parser is registered is one that
    [parse_options] hands to a parser and does not copy: [format_key] begins
    with [--] for an option and is enclosed in [<] and [>] for an argument.
    The key and the kind of the parser can be read off it: two parsers have
    the same formatted key only if they have the same key and kind. *)
Theorem format_key_parsed (key : string) (option : bool) :
  is_parsed_key (format_key key option) = true /\
  forall key' option', format_key key option = format_key key' option' ->
                       key = key' /\ option = option'.
Proof.
  split.
  - unfold format_key, is_parsed_key, endswith. destruct option.
    + change ("--" ++ key)%string with (String "-"%char (String "-"%char key)).
      replace (String.prefix "--" (String "-"%char (String "-"%char key))) with true
        by (by destruct key).
      reflexivity.
    + change ("<" ++ key ++ ">")%string with (String "<"%char (key ++ ">")%string).
      replace (String.prefix "--" (String "<"%char (key ++ ">"))) with false
        by reflexivity.
      replace (String.prefix "<" (String "<"%char (key ++ ">"))) with true
        by (by destruct key).
      change (String.length (String "<"%char (key ++ ">")) - String.length ">")%nat
        with (String.length (key ++ ">")%string - 0)%nat.
      rewrite Nat.sub_0_r, substring_last. reflexivity.
  - intros key' option'. unfold format_key.
    destruct option, option'; intros H.
    + change (String "-"%char (String "-"%char key) = String "-"%char (String "-"%char key')) in H.
      injection H as ->. done.
    + change (String "-"%char (String "-"%char key) = String "<"%char (key' ++ ">")%string) in H.
      discriminate.
    + change (String "<"%char (key ++ ">")%string = String "-"%char (String "-"%char key')) in H.
      discriminate.
    + change (String "<"%char (key ++ ">")%string = String "<"%char (key' ++ ">")%string) in H.
      injection H as H. apply append_inj_r in H. by subst.
Qed.

End OptionparserFacts.

(** ** The structures of [expand_results], [with_species] read back, and
    the formula of [__repr__] *)

Module StructureMoreFacts.
Import Np NpFacts Structure WithSpeciesFacts StructureFacts Run RunFacts.
Section Facts.
Context {X : Extension}.

(** Every structure of the loop is built on the lattice and the coordinates
    the loop was given, with default flags. *)
Lemma expand_items_cell (lat : Lattice) (rows : list Row) (which : option (list Z))
    (confs : list (Z * Conf)) :
  forall (parent parent' : str_array) (out : list (Z * Structure)),
    expand_items lat rows which parent confs = (parent', Ok out) ->
    Forall (fun rs => lattice rs.2 = lat /\
                      frac_coords rs.2 = canonical pbc_default <$> rows /\
                      pbc rs.2 = pbc_default /\
                      num_atoms rs.2 = length rows) out.
Proof.
  induction confs as [| [rank c] rest IH]; intros parent parent' out;
    cbn [expand_items].
  - intros [= <- <-]. constructor.
  - destruct (configuration_of c) as [conf |]; [| discriminate].
    destruct (new_species which parent conf) as [parent1 [sp |]]; [| discriminate].
    destruct (init lat rows sp pbc_default) as [st |] eqn:Hinit; [| discriminate].
    destruct (expand_items lat rows which parent1 rest)
      as [parent2 [r |]] eqn:Hrest; [| discriminate].
    intros [= <- <-]. constructor; [| by eapply IH].
    apply init_inv in Hinit as (Hlen & Hm & Hlat & Hpbc & Hc & _).
    apply length_mapM in Hm. cbn [snd]. unfold num_atoms.
    repeat split; try done. congruence.
Qed.

(** X27.  Every structure that [expand_results] returns is a structure on
    the cell of the parent: it has the parent's lattice, the parent's
    coordinates as the constructor stores them under default flags, the
    default flags, one atom per coordinate row of the parent and, for a
    document with [which], the parent's species on every site that [which]
    does not address. *)
Theorem expand_results_structures (dense : Document) (s : Structure)
    (p : option Structure) (out : list (Z * Structure)) (rank : Z) (st : Structure) :
  wf s ->
  doc_structure dense = Some s ->
  expand_results dense = (p, Ok out) ->
  (rank, st) ∈ out ->
  lattice st = lattice s /\
  frac_coords st = canonical pbc_default <$> frac_coords s /\
  pbc st = pbc_default /\
  num_atoms st = num_atoms s /\
  forall which, doc_which dense = Some which ->
                forall i : nat, ~ addressed (num_atoms s) which i ->
                                species st !! i = species s !! i.
Proof.
  intros Hwf Hs Hex Hin.
  assert (Hcell : lattice st = lattice s /\
                  frac_coords st = canonical pbc_default <$> frac_coords s /\
                  pbc st = pbc_default /\ num_atoms st = length (frac_coords s)).
  { revert Hex. unfold expand_results. rewrite Hs.
    destruct (doc_configurations dense) as [confs |]; [| discriminate].
    destruct (expand_items _ _ _ _ confs) as [a r] eqn:Hitems.
    intros [= <- ->]. apply expand_items_cell in Hitems.
    rewrite Forall_forall in Hitems. exact (Hitems _ Hin). }
  destruct Hcell as (Hlat & Hfc & Hpbc & Hn).
  destruct (wf_inv s Hwf) as (Hlen & _).
  repeat split; try done.
  - unfold num_atoms in *. congruence.
  - intros which Hw i Hi.
    by eapply (expand_results_frame dense s which p out Hs Hwf Hw Hex rank st).
Qed.

(** X28.  [with_species] puts the given symbols on the sites of [which]
    when every symbol is a known species that fits the cells of the symbol
    array and the indices are in range and address pairwise different sites:
    it returns a structure with as many atoms as [s], and reading the symbols
    of the result at [which] gives the given symbols in their order. *)
Theorem with_species_round_trip (s : Structure) (new_species : list string)
    (which : list Z) :
  wf s ->
  which <> [] ->
  length new_species = length which ->
  Forall (fun i => - Z.of_nat (num_atoms s) <= i < Z.of_nat (num_atoms s)) which ->
  NoDup (wrap (num_atoms s) <$> which) ->
  Forall (fun x => (String.length x <= itemsize (symbols s))%nat /\ is_Some (ordinal x))
         new_species ->
  exists s',
    with_species s new_species (WhichList which) = Ok s' /\
    num_atoms s' = num_atoms s /\
    take (items (symbols s')) which = Ok new_species.
Proof.
  intros Hwf Hne Heq Hin Hnd Hgood.
  assert (Hin' : Forall (fun i => in_range (num_atoms s) i = true) which).
  { eapply Forall_impl; [exact Hin |]. intros i Hi. by apply in_range_spec. }
  assert (Hfit : Forall (fun x => (String.length x <= itemsize (symbols s))%nat)
                        new_species).
  { eapply Forall_impl; [exact Hgood |]. by intros x [? _]. }
  assert (Hknown : Forall (fun x => is_Some (ordinal (fit (itemsize (symbols s)) x)))
                          new_species).
  { eapply Forall_impl; [exact Hgood |]. intros x [Hx1 Hx2]. by rewrite fit_id. }
  destruct (with_species_returns s new_species which Hwf Hne Heq Hin' Hknown)
    as (r & Hr & _ & Hnr).
  exists r. split; [done |]. split; [done |].
  by apply (with_species_readback s r new_species which).
Qed.

End Facts.

(** The first run of [groupby] starts with the first symbol. *)
Lemma groupby_head (x : string) (l : list string) :
  exists n gs, groupby (x :: l) = (x, S n) :: gs.
Proof.
  revert x. induction l as [| y l IH]; intros x; [by exists 0%nat, [] |].
  destruct (IH y) as (n & gs & Hg). cbn [groupby] in *. rewrite Hg.
  destruct (String.eqb_spec x y) as [-> | _]; by eexists _, _.
Qed.

Lemma groupby_run (x : string) (n : nat) (l : list string) :
  head l <> Some x ->
  groupby (replicate (S n) x ++ l) = (x, S n) :: groupby l.
Proof.
  intros Hl. induction n as [| n IH].
  - cbn [replicate app groupby]. destruct l as [| y l]; [done |].
    destruct (groupby_head y l) as (k & gs & Hg). rewrite Hg.
    destruct (String.eqb_spec x y) as [-> | _]; [by destruct Hl | done].
  - change (replicate (S (S n)) x ++ l)%list
      with (x :: (replicate (S n) x ++ l))%list.
    cbn [groupby]. rewrite IH. by rewrite String.eqb_refl.
Qed.

(** X29.  The formula of [__repr__] names a run of equal symbols once: when
    the symbols begin with [n + 1] times the symbol [x] and go on with
    another symbol or end, the formula begins with [x], followed by the
    length of the run when the run is longer than one, and goes on with the
    formula of the rest. *)
Theorem repr_runs (x : string) (n : nat) (l : list string) :
  head l <> Some x ->
  group_symbols (replicate (S n) x ++ l)
  = (if (n =? 0)%nat then x else (x ++ pretty (S n))%string) :: group_symbols l.
Proof.
  intros Hl. unfold group_symbols. rewrite (groupby_run x n l Hl), fmap_cons.
  reflexivity.
Qed.

End StructureMoreFacts.

(** ** The properties above at the example structures *)

Module MoreExamples.
Import Np Structure Run Functional Settings.
Import IndexingFacts StructureFacts StructureMoreFacts.
#[local] Existing Instance Demo.ext.
#[local] Existing Instance Demo.tiling.
#[local] Existing Instance Demo.results.

Ltac decided := apply (bool_decide_unpack _); vm_compute; exact I.

Lemma built_chain (s : Structure) : Demo.chain = Ok s -> wf s.
Proof.
  intros H.
  exists 4120, [(0, 0, 0); (300, 0, 0); (600, 0, 0)], ["Cl"; "H"; "Cl"], pbc_default.
  rewrite <- H. reflexivity.
Qed.

Lemma built_cscl (s : Structure) : Demo.cscl = Ok s -> wf s.
Proof.
  intros H. exists 4120, [(0, 0, 0); (500, 500, 500)], ["Cs"; "Cl"], pbc_default.
  rewrite <- H. reflexivity.
Qed.

Lemma getitem_list_selects_witness :
  exists s : Structure,
    Demo.chain = Ok s /\
    exists s', getitem s (ItemList [2; -3]) = Ok (GotStructure s') /\
               num_atoms s' = 2%nat.
Proof.
  eexists. split; [reflexivity |].
  lazymatch goal with
  | |- context [getitem ?s _] =>
      destruct (getitem_list_selects s [2; -3]) as (s' & H & _ & _ & Hn & _)
  end.
  - by apply built_chain.
  - done.
  - repeat constructor; cbn; lia.
  - exists s'. by split.
Defined.

Lemma getitem_list_raises_iff_witness :
  exists s : Structure,
    Demo.chain = Ok s /\
    (exists msg, getitem s (ItemList [0; 3]) = Raise (IndexError msg)) /\
    (exists msg, getitem s (ItemList [0; 2 ^ 63]) = Raise (TypeError msg)).
Proof.
  eexists. split; [reflexivity |].
  lazymatch goal with
  | |- context [getitem ?s _] =>
      destruct (getitem_list_raises_iff s [0; 3]) as (_ & _ & Hindex);
      [| | destruct (getitem_list_raises_iff s [0; 2 ^ 63]) as (_ & Htype & _)]
  end.
  - by apply built_chain.
  - apply Z.leb_le. reflexivity.
  - by apply built_chain.
  - apply Z.leb_le. reflexivity.
  - split.
    + apply Hindex; [done | repeat constructor; lia |].
      apply Exists_cons_tl, Exists_cons_hd. cbn. lia.
    + apply Htype. right. apply Exists_cons_tl, Exists_cons_hd. lia.
Defined.

Lemma getitem_list_then_integer_witness :
  exists s s' : Structure,
    Demo.chain = Ok s /\
    getitem s (ItemList [1; 0]) = Ok (GotStructure s') /\
    getitem s' (ItemInt (Z.of_nat 0)) = Ok (GotAtom {| atom_Z := 1; symbol := "H" |}).
Proof.
  eexists _, _. split; [reflexivity |]. split; [reflexivity |].
  eapply (getitem_list_then_integer _ _ [1; 0] 0 1);
    [by apply built_chain | reflexivity | reflexivity | reflexivity].
Defined.

Lemma getitem_mask_selects_witness :
  exists s : Structure,
    Demo.chain = Ok s /\
    exists s', getitem s (ItemMask [true; false; true]) = Ok (GotStructure s') /\
               species s' = compress [true; false; true] (species s).
Proof.
  eexists. split; [reflexivity |].
  lazymatch goal with
  | |- context [getitem ?s _] =>
      destruct (getitem_mask_selects s [true; false; true]) as (s' & H & Hsp & _)
  end.
  - by apply built_chain.
  - cbn. lia.
  - apply list_elem_of_here.
  - exists s'. by split.
Defined.

Lemma getitem_slice_selects_witness :
  exists s : Structure,
    Demo.chain = Ok s /\
    exists s', getitem s (ItemSlice (Some (Z.of_nat 1)) (Some (Z.of_nat 3)) None)
               = Ok (GotStructure s') /\
               species s' = firstn (3 - 1) (drop 1 (species s)).
Proof.
  eexists. split; [reflexivity |].
  lazymatch goal with
  | |- context [getitem ?s _] =>
      destruct (getitem_slice_selects s 1 3) as ((s' & H & Hsp & _) & _)
  end.
  - by apply built_chain.
  - cbn. lia.
  - exists s'. by split.
Defined.

Lemma getitem_slice_reverses_witness :
  exists s : Structure,
    Demo.chain = Ok s /\
    exists s', getitem s (ItemSlice None None (Some (-1))) = Ok (GotStructure s') /\
               species s' = reverse (species s).
Proof.
  eexists. split; [reflexivity |].
  lazymatch goal with
  | |- context [getitem ?s _] =>
      destruct (getitem_slice_reverses s) as (s' & H & Hsp & _)
  end.
  - by apply built_chain.
  - cbn. lia.
  - exists s'. by split.
Defined.

Lemma init_invariant_witness :
  exists s : Structure,
    Demo.chain = Ok s /\ NoDup (unique_species s) /\
    (num_unique_species s <= num_atoms s)%nat.
Proof.
  eexists. split; [reflexivity |].
  lazymatch goal with
  | |- NoDup (unique_species ?s) /\ _ =>
      destruct (init_invariant s) as (_ & _ & _ & _ & Hnd & _ & Hle)
  end.
  - by apply built_chain.
  - by split.
Defined.

Lemma slice_with_species_sites_witness :
  exists s : Structure,
    Demo.cscl = Ok s /\
    exists s', slice_with_species s ["Fe"] (WhichList [1]) = Ok (GotStructure s') /\
               tolist (symbols s') = ["Fe"].
Proof.
  eexists. split; [reflexivity |].
  lazymatch goal with
  | |- context [slice_with_species ?s _ _] =>
      destruct (slice_with_species_sites s ["Fe"] [1]) as (s' & H & _ & _ & Hsym & _)
  end.
  - by apply built_cscl.
  - done.
  - done.
  - repeat constructor; cbn; lia.
  - decided.
  - constructor; [split; [cbn; lia | by eexists] | constructor].
  - exists s'. by split.
Defined.

Lemma to_dict_rebuilds_witness :
  exists s : Structure,
    Demo.chain = Ok s /\
    exists s', init (dict_lattice (to_dict s)) (dict_coords (to_dict s))
                    (dict_species (to_dict s)) pbc_default = Ok s' /\
               species s' = species s.
Proof.
  eexists. split; [reflexivity |].
  lazymatch goal with
  | |- context [to_dict ?s] =>
      destruct (to_dict_rebuilds s) as (s' & H & _ & Hsp & _)
  end.
  - by apply built_chain.
  - exists s'. by split.
Defined.

Lemma with_species_round_trip_witness :
  exists s : Structure,
    Demo.cscl = Ok s /\
    exists s', with_species s ["Fe"] (WhichList [1]) = Ok s' /\
               num_atoms s' = num_atoms s /\
               take (items (symbols s')) [1] = Ok ["Fe"].
Proof.
  eexists. split; [reflexivity |].
  apply (with_species_round_trip _ ["Fe"] [1]).
  - by apply built_cscl.
  - done.
  - done.
  - repeat constructor; cbn; lia.
  - decided.
  - constructor; [split; [cbn; lia | by eexists] | constructor].
Defined.

Lemma parameter_absent_key_witness :
  parameter 0 "rtol" (DefaultCall Demo.default_rtol) (RequiredBool true) None
            Demo.read_atol_body Demo.caller
  = (<["rtol" := 5]> Demo.caller, Ok 5).
Proof.
  destruct (SettingsMoreFacts.parameter_absent_key
              0 "rtol" (DefaultCall Demo.default_rtol) (RequiredBool true) None
              Demo.read_atol_body Demo.read_atol_body Demo.caller)
    as (_ & _ & _ & _ & H).
  - reflexivity.
  - exact (H eq_refl Demo.default_rtol eq_refl).
Defined.

Lemma construct_settings_first_missing_witness :
  exists pre v post,
    [("atol", 2); ("rtol", 5)] = (pre ++ ("rtol", v) :: post)%list /\
    Forall (fun kv : string * Z => is_Some (Demo.caller !! kv.1)) pre /\
    Demo.caller !! "rtol" = None.
Proof.
  apply (@SettingsMoreFacts.construct_settings_first_missing
           Demo.env {[7%nat := Demo.caller]} 7%nat Demo.caller true).
  - reflexivity.
  - reflexivity.
Defined.

Lemma construct_settings_overloaded_witness :
  (@construct_settings Demo.env {[7%nat := Demo.caller]} 7%nat false [("atol", 2)]).2
  = @build Demo.env (list_to_map [("atol", 2)] ∪ Demo.caller).
Proof.
  apply (@SettingsMoreFacts.construct_settings_overloaded
           Demo.env {[7%nat := Demo.caller]} 7%nat Demo.caller false [("atol", 2)]).
  - reflexivity.
  - decided.
  - constructor; [by eexists | constructor].
Defined.

Lemma build_needs_all_entries_witness :
  exists r,
    (@construct_settings Demo.env {[7%nat := Demo.full]} 7%nat false []).2 = Ok r /\
    Demo.full !! "atol" = Some (atol r) /\
    Demo.full !! "mode" = Some (mode r) /\
    Demo.full !! "shell_weights" = Some (shell_weights r).
Proof.
  destruct (@SettingsMoreFacts.build_needs_all_entries
              Demo.env {[7%nat := Demo.full]} 7%nat Demo.full)
    as (Hc & Hb & _); [reflexivity |].
  eexists. split; [rewrite Hc; reflexivity |].
  lazymatch goal with
  | |- _ = Some (atol ?r) /\ _ =>
      destruct (proj1 (Hb r) eq_refl)
        as (_ & _ & _ & (v & Hv & Hd) & _ & _ & _ & _ & H9 & _ & H11 & _)
  end.
  split; [exact H9 |]. split; [exact H11 |].
  exact (eq_trans Hv Hd).
Defined.

Lemma built_cscl_cell : wf Demo.cscl_cell.
Proof. by apply built_cscl. Qed.

Lemma expand_results_ranks_witness :
  exists p out,
    expand_results (Demo.plain_document Demo.cscl_cell) = (p, Ok out) /\
    out.*1 = Demo.plain_confs.*1 /\ length out = length Demo.plain_confs.
Proof.
  eexists _, _. split; [reflexivity |].
  eapply (RunMoreFacts.expand_results_ranks (Demo.plain_document Demo.cscl_cell)
            Demo.plain_confs); reflexivity.
Defined.

Lemma expand_results_without_which_witness :
  exists p out,
    expand_results (Demo.plain_document Demo.cscl_cell) = (p, Ok out) /\
    p = Some Demo.cscl_cell /\
    Forall2 (fun rc rs => rs.1 = rc.1 /\
                          lattice rs.2 = lattice Demo.cscl_cell /\
                          configuration_of rc.2 = Ok (tolist (symbols rs.2)))
            Demo.plain_confs out.
Proof.
  eexists _, _. split; [reflexivity |].
  eapply (RunMoreFacts.expand_results_without_which
            (Demo.plain_document Demo.cscl_cell) Demo.cscl_cell Demo.plain_confs);
    reflexivity.
Defined.

Lemma expand_results_on_sublattice_witness :
  exists p out,
    expand_results (Demo.sublattice_document Demo.cscl_cell) = (p, Ok out) /\
    Forall2 (fun rc rs =>
               rs.1 = rc.1 /\
               forall conf, configuration_of rc.2 = Ok conf ->
                            length conf = length [1] ->
                            Forall (fun x => (String.length x
                                              <= itemsize (symbols Demo.cscl_cell))%nat)
                                   conf ->
                            take (items (symbols rs.2)) [1] = Ok conf)
            Demo.sublattice_confs out.
Proof.
  eexists _, _. split; [reflexivity |].
  eapply (RunMoreFacts.expand_results_on_sublattice
            (Demo.sublattice_document Demo.cscl_cell) Demo.cscl_cell [1]
            Demo.sublattice_confs);
    [reflexivity | reflexivity | reflexivity | decided | reflexivity].
Defined.

Lemma expand_results_parent_witness :
  exists p r,
    expand_results (Demo.sublattice_document Demo.cscl_cell) = (Some p, r) /\
    species p = species Demo.cscl_cell /\
    agree_outside [1] (symbols p) (symbols Demo.cscl_cell).
Proof.
  eexists _, _. split; [reflexivity |].
  lazymatch goal with
  | |- species ?p = _ /\ _ =>
      let r := open_constr:(_ : result (list (Z * Structure))) in
      destruct (RunMoreFacts.expand_results_parent
                  (Demo.sublattice_document Demo.cscl_cell) Demo.cscl_cell p r)
        as (_ & _ & Hsp & _ & _ & _ & _ & Hag)
  end.
  - reflexivity.
  - reflexivity.
  - split; [exact Hsp | exact Hag].
Defined.

Lemma expand_results_structures_witness :
  exists p st,
    expand_results (Demo.sublattice_document Demo.cscl_cell) = (p, Ok [(0, st)]) /\
    lattice st = lattice Demo.cscl_cell /\ num_atoms st = num_atoms Demo.cscl_cell.
Proof.
  eexists _, _. split; [reflexivity |].
  lazymatch goal with
  | |- lattice ?st = _ /\ _ =>
      let p := open_constr:(_ : option Structure) in
      destruct (expand_results_structures
                  (Demo.sublattice_document Demo.cscl_cell) Demo.cscl_cell p
                  [(0, st)] 0 st)
        as (Hlat & _ & _ & Hn & _)
  end.
  - exact built_cscl_cell.
  - reflexivity.
  - reflexivity.
  - apply list_elem_of_here.
  - by split.
Defined.

Lemma make_result_document_dense_witness :
  exists doc confs,
    make_result_document Demo.sqs_results (Demo.run_settings Demo.cscl_cell) None
                         (dump_fields ["objective"]) = Ok doc /\
    document_timings doc = None /\
    as_dense doc = Some {| doc_structure := Some Demo.cscl_cell;
                           doc_configurations := Some confs;
                           doc_which := None |} /\
    Forall2 (fun r rc => rc.1 = rank r /\
                         configuration_of rc.2
                         = Ok (symbols_from_z (configuration r)))
            Demo.sqs_results confs.
Proof.
  apply (DocumentFacts.make_result_document_dense Demo.sqs_results
           (Demo.run_settings Demo.cscl_cell) None ["objective"] Demo.cscl_cell).
  - reflexivity.
  - constructor; [| constructor]. apply list_elem_of_further, list_elem_of_here.
  - intros H. apply list_elem_of_singleton in H. discriminate.
  - decided.
Defined.

Lemma make_result_document_timings_witness :
  make_result_document Demo.sqs_results (Demo.run_settings Demo.cscl_cell) None
                       (dump_fields ["objective"; "timings"])
  = Raise (KeyError "timings").
Proof.
  apply (DocumentFacts.make_result_document_timings _ _
           (Demo.run_settings Demo.cscl_cell) None ["objective"; "timings"]).
  - right. by eexists.
  - constructor; [| constructor; [| constructor]].
    + apply list_elem_of_further, list_elem_of_further, list_elem_of_here.
    + apply list_elem_of_further, list_elem_of_here.
  - intros H. apply elem_of_cons in H as [H | H]; [discriminate |].
    apply list_elem_of_singleton in H. discriminate.
  - apply list_elem_of_further, list_elem_of_here.
Defined.

Lemma make_supercell_tiles_witness :
  exists s : Structure,
    Demo.cscl = Ok s /\
    exists s', make_supercell s 2 1 1 = Passed (Ok s') /\
               Z.of_nat (num_atoms s') = Z.of_nat (num_atoms s) * (2 * 1 * 1).
Proof.
  eexists. split; [reflexivity |].
  lazymatch goal with
  | |- context [make_supercell ?s _ _ _] =>
      destruct (SupercellFacts.make_supercell_tiles s 2 1 1) as (s' & H & Hn & _)
  end.
  - by apply built_cscl.
  - lia.
  - lia.
  - lia.
  - exists s'. by split.
Defined.

Lemma make_supercell_rejects_witness :
  exists s : Structure,
    Demo.cscl = Ok s /\
    exists msg, make_supercell s 2 (-1) 1 = Passed (Raise (ValueError msg)).
Proof.
  eexists. split; [reflexivity |].
  apply (SupercellFacts.make_supercell_rejects _ 2 (-1) 1). right. left. lia.
Defined.

Lemma make_supercell_assertions_hold_witness :
  exists s : Structure,
    Demo.cscl = Ok s /\ make_supercell s 2 2 2 <> AssertionError.
Proof.
  eexists. split; [reflexivity |].
  apply (SupercellFacts.make_supercell_assertions_hold _ 2 2 2). by apply built_cscl.
Defined.

Lemma transpose_involutive_witness :
  transpose (transpose [[1; 2]; [3; 4]; [5; 6]]) = [[1; 2]; [3; 4]; [5; 6]] /\
  length (transpose [[1; 2]; [3; 4]; [5; 6]]) = 2%nat.
Proof.
  apply (TableFacts.transpose_involutive 2 [[1; 2]; [3; 4]; [5; 6]]);
    [done | lia | repeat constructor].
Defined.

Lemma add_col_prepends_witness :
  add_col [[1; 2]; [3; 4]] [0; 0] = zip_with cons [0; 0] [[1; 2]; [3; 4]] /\
  length (add_col [[1; 2]; [3; 4]] [0; 0])
  = min (length [0; 0]) (length [[1; 2]; [3; 4]]).
Proof.
  apply (TableFacts.add_col_prepends 2 [[1; 2]; [3; 4]] [0; 0]);
    [done | lia | repeat constructor].
Defined.

Lemma format_key_parsed_witness :
  Optionparser.is_parsed_key (Optionparser.format_key "atoms" false) = true.
Proof. exact (proj1 (OptionparserFacts.format_key_parsed "atoms" false)). Defined.

Lemma repr_runs_witness :
  group_symbols (replicate 2 "Cl" ++ ["H"])
  = (if (1 =? 0)%nat then "Cl" else ("Cl" ++ pretty 2%nat)%string) :: group_symbols ["H"].
Proof. apply (repr_runs "Cl" 1 ["H"]). discriminate. Defined.

End MoreExamples.
